(** * Song Analyzer guide generator: text wrapping, page composer, PDF serializer

    Shallow embedding of [scripts/generate_365_tool_drop_guide_pdf.py].

    Conventions of the embedding.
    - A Python [str] is a list of Unicode code points ([N]); [len] is the
      length of that list.
    - A Python [bytes] value is a list of [byte].
    - Python numbers used as coordinates and sizes (ints and floats) are
      embedded twice.  The first embedding takes them as exact rationals
      ([Q]) and leaves the rounding of binary floating point out; it carries
      the properties that hold whatever the arithmetic computes, and the
      properties of integer quantities.  The module [Float64] embeds the
      same functions over IEEE 754 doubles, operation by operation; what
      depends on rounding is stated there.  Counters and lengths are [nat],
      the wrap capacity is [Z].
    - A raised exception is [None] in the [option] monad. *)

From Stdlib Require Import ZArith QArith Qround Qminmax Lia Lqa.
From Stdlib Require Import Strings.String Strings.Ascii Strings.Byte.
From Stdlib Require Import Numbers.DecimalString Numbers.DecimalNat Numbers.DecimalFacts.
From Stdlib Require Import Floats.SpecFloat.
From stdpp Require Import base tactics option list.

Local Open Scope nat_scope.

(** ** Python strings *)

Definition char := N.
Definition str := list char.

(** A string literal of the source, as code points. *)
Definition lit (s : string) : str := map N_of_ascii (list_ascii_of_string s).

(** [str.isspace] on one code point: the characters on which [str.split()]
    and [str.strip()] (without arguments) cut. *)
Definition is_space (c : char) : bool :=
  (((9 <=? c) && (c <=? 13)) || ((28 <=? c) && (c <=? 32))
   || (c =? 133) || (c =? 160) || (c =? 5760)
   || ((8192 <=? c) && (c <=? 8202))
   || (c =? 8232) || (c =? 8233) || (c =? 8239) || (c =? 8287)
   || (c =? 12288))%N.

Definition SP : char := 32%N.

Fixpoint lstrip (s : str) : str :=
  match s with
  | [] => []
  | c :: s' => if is_space c then lstrip s' else s
  end.

Fixpoint rstrip (s : str) : str :=
  match s with
  | [] => []
  | c :: s' =>
      match rstrip s' with
      | [] => if is_space c then [] else [c]
      | r => c :: r
      end
  end.

(** [text.strip()] *)
Definition strip (s : str) : str := rstrip (lstrip s).

(** [text.split()]: the maximal runs of non-whitespace characters, in order.
    [scan s] reads [s] from its right end and returns the word that starts
    at the head of [s] (empty when [s] starts with whitespace) and the words
    after it. *)
Definition flush (w : str) (ws : list str) : list str :=
  match w with [] => ws | _ => w :: ws end.

Fixpoint scan (s : str) : str * list str :=
  match s with
  | [] => ([], [])
  | c :: s' =>
      let '(w, ws) := scan s' in
      if is_space c then ([], flush w ws) else (c :: w, ws)
  end.

Definition split (s : str) : list str :=
  let '(w, ws) := scan s in flush w ws.

(** [sep.join(l)] *)
Fixpoint join (sep : str) (l : list str) : str :=
  match l with
  | [] => []
  | [x] => x
  | x :: l' => x ++ sep ++ join sep l'
  end.

(** ** estimate_char_width and wrap_text

    Over exact rationals: products and quotients are not rounded, and the
    only error of the division is the zero divisor.  What the doubles of
    the code compute, rounding and the errors of [int()] on an infinite or
    undefined quotient included, is in [Float64.estimate_char_width],
    [Float64.truediv], [Float64.py_int] and [Float64.char_capacity]. *)

Definition estimate_char_width (font : str) (size : Q) : Q :=
  if decide (font = lit "F2") then (size * 0.56)%Q
  else if decide (font = lit "F3") then (size * 0.60)%Q
  else (size * 0.53)%Q.

(** [a / b] on floats: [ZeroDivisionError] when the divisor is zero. *)
Definition truediv (a b : Q) : option Q :=
  if Qeq_bool b 0 then None else Some (a / b)%Q.

(** [int(x)]: truncation toward zero. *)
Definition py_int (x : Q) : Z := Z.quot (Qnum x) (Zpos (Qden x)).

(** The body of the [for word in words[1:]] loop of [wrap_text], with the
    loop variables [lines] and [current]; the final [lines.append(current)]
    is the base case. *)
Fixpoint wrap_loop (char_capacity : Z) (lines : list str) (current : str)
    (words : list str) : list str :=
  match words with
  | [] => lines ++ [current]
  | word :: rest =>
      let candidate := current ++ [SP] ++ word in
      if (Z.of_nat (length candidate) <=? char_capacity)%Z
      then wrap_loop char_capacity lines candidate rest
      else wrap_loop char_capacity (lines ++ [current]) word rest
  end.

Definition char_capacity (width : Q) (font : str) (size : Q) : option Z :=
  q ← truediv width (estimate_char_width font size);
  Some (Z.max 8 (py_int q)).

Definition wrap_text (text : str) (width : Q) (font : str) (size : Q)
    : option (list str) :=
  match split (strip text) with
  | [] => Some []
  | w0 :: rest =>
      cap ← char_capacity width font size;
      Some (wrap_loop cap [] w0 rest)
  end.

(** ** Page geometry *)

Local Open Scope Q_scope.

Definition PAGE_WIDTH : Q := 612.
Definition PAGE_HEIGHT : Q := 792.
Definition MARGIN : Q := 54.

(** ** BlockStyle and PageCanvas *)

Definition rgb := (Q * Q * Q)%type.

Record BlockStyle := {
  font : str;
  size : Q;
  leading : Q;
  color : rgb;
}.

(** One entry of [PageCanvas.commands].  The source stores the operator
    string formatted from the arguments of [rect_fill], [line] or [text];
    the model keeps the call and its arguments, which determine that
    string. *)
Inductive Command :=
| RectFill (x y w h : Q) (c : rgb)
| Line (x1 y1 x2 y2 : Q) (c : rgb) (width : Q)
| Text (x y : Q) (text : str) (style : BlockStyle).

(** A [PageCanvas] object is its [commands] list. *)
Definition PageCanvas := list Command.

(** ** GuideComposer

    [PageCanvas] objects are mutable and shared between [self.pages] and
    [self.current], so the composer state carries the object store: [heap]
    lists the canvases allocated so far and a reference is an index into
    it.  The six style fields are set once in [__init__] and never
    assigned again; they are constants here. *)

Record GuideComposer := {
  heap : list PageCanvas;
  pages : list nat;
  current : nat;
  y : Q;
  page_num : nat;
}.

Definition title_style : BlockStyle := Build_BlockStyle (lit "F2") 28 32 (1, 1, 1)%Q.
Definition h1_style : BlockStyle := Build_BlockStyle (lit "F2") 18 24 (0.08, 0.12, 0.17)%Q.
Definition h2_style : BlockStyle := Build_BlockStyle (lit "F2") 13 18 (0.08, 0.12, 0.17)%Q.
Definition body_style : BlockStyle := Build_BlockStyle (lit "F1") 11 15 (0.14, 0.17, 0.22)%Q.
Definition small_style : BlockStyle := Build_BlockStyle (lit "F1") 9 12 (0.28, 0.32, 0.38)%Q.
Definition code_style : BlockStyle := Build_BlockStyle (lit "F3") 9.5 13 (0.10, 0.13, 0.18)%Q.

(** [GuideComposer()] *)
Definition init : GuideComposer :=
  {| heap := [[]]; pages := [0%nat]; current := 0%nat;
     y := PAGE_HEIGHT - 96; page_num := 1%nat |}.

(** [self.y = v] *)
Definition set_y (v : Q) (g : GuideComposer) : GuideComposer :=
  {| heap := heap g; pages := pages g; current := current g;
     y := v; page_num := page_num g |}.

(** A drawing call on the canvas object [r]: [commands.append(...)]. *)
Definition draw_on (r : nat) (cmd : Command) (g : GuideComposer) : GuideComposer :=
  {| heap := alter (λ c, c ++ [cmd]) r (heap g); pages := pages g;
     current := current g; y := y g; page_num := page_num g |}.

(** A drawing call on [self.current]. *)
Definition draw (cmd : Command) (g : GuideComposer) : GuideComposer :=
  draw_on (current g) cmd g.

(** [str(n)] for a non-negative int, as a [str]. *)
Definition str_of_nat (n : nat) : str := lit (NilZero.string_of_uint (Nat.to_uint n)).

Definition _draw_page_chrome (g : GuideComposer) : GuideComposer :=
  let g := draw (RectFill 0 (PAGE_HEIGHT - 42) PAGE_WIDTH 42 (0.09, 0.15, 0.29)%Q) g in
  let g := draw (Text MARGIN (PAGE_HEIGHT - 28) (lit "365 Tool Drop")
                   (Build_BlockStyle (lit "F2") 12 14 (1, 1, 1)%Q)) g in
  let g := draw (Text (PAGE_WIDTH - 244) (PAGE_HEIGHT - 28)
                   (lit "Song Analyzer - Getting Started")
                   (Build_BlockStyle (lit "F1") 10 12 (0.90, 0.94, 1.0)%Q)) g in
  let g := draw (Line MARGIN 52 (PAGE_WIDTH - MARGIN) 52 (0.85, 0.88, 0.93)%Q 0.8) g in
  draw (Text (PAGE_WIDTH - MARGIN - 40) 36 (lit "Page " ++ str_of_nat (page_num g))
          (Build_BlockStyle (lit "F1") 9 12 (0.35, 0.39, 0.46)%Q)) g.

Definition new_page (g : GuideComposer) : GuideComposer :=
  let r := length (heap g) in                    (* PageCanvas() *)
  _draw_page_chrome
    {| heap := heap g ++ [[]]; pages := pages g ++ [r]; current := r;
       y := PAGE_HEIGHT - 84; page_num := (page_num g + 1)%nat |}.

(** [a < b] on numbers *)
Definition Qltb (a b : Q) : bool := negb (Qle_bool b a).

(** The space check on the exact difference; the code compares the rounded
    difference, [Float64.ensure_space].  The same holds for the cursor
    arithmetic of the block methods below and their [Float64] versions. *)
Definition ensure_space (needed : Q) (g : GuideComposer) : GuideComposer :=
  if Qltb (y g - needed) 72 then new_page g else g.

Definition add_h1 (text : str) (g : GuideComposer) : GuideComposer :=
  let g := ensure_space (leading h1_style + 8) g in
  let g := draw (Text MARGIN (y g) text h1_style) g in
  set_y (y g - (leading h1_style + 2)) g.

Definition add_h2 (text : str) (g : GuideComposer) : GuideComposer :=
  let g := ensure_space (leading h2_style + 6) g in
  let g := draw (Text MARGIN (y g) text h2_style) g in
  set_y (y g - leading h2_style) g.

(** [len(lines)] as a number *)
Definition len {A} (l : list A) : Q := inject_Z (Z.of_nat (length l)).

(** The loop [for line in lines] of [add_paragraph]. *)
Fixpoint paragraph_loop (style : BlockStyle) (lines : list str) (g : GuideComposer)
    : GuideComposer :=
  match lines with
  | [] => g
  | line :: rest =>
      let g := draw (Text MARGIN (y g) line style) g in
      let g := set_y (y g - leading style) g in
      paragraph_loop style rest g
  end.

Definition add_paragraph (text : str) (style : option BlockStyle) (g : GuideComposer)
    : option GuideComposer :=
  let style := default body_style style in
  lines ← wrap_text text (PAGE_WIDTH - 2 * MARGIN) (font style) (size style);
  let needed := Qmax (leading style) (len lines * leading style + 4) in
  let g := ensure_space needed g in
  let g := paragraph_loop style lines g in
  Some (set_y (y g - 4) g).

(** The loop [for i, line in enumerate(lines)] of [add_bullet]; [n] is
    [len(lines)], at least 1 inside the loop. *)
Fixpoint bullet_loop (n i : nat) (lines : list str) (g : GuideComposer) : GuideComposer :=
  match lines with
  | [] => g
  | line :: rest =>
      let x := (MARGIN + 14)%Q in
      let g := draw (Text x (y g) line body_style) g in
      let g := if (i <? n - 1)%nat then set_y (y g - leading body_style) g else g in
      bullet_loop n (S i) rest g
  end.

Definition add_bullet (text : str) (g : GuideComposer) : option GuideComposer :=
  let bullet_width := (PAGE_WIDTH - 2 * MARGIN - 18)%Q in
  lines ← wrap_text text bullet_width (font body_style) (size body_style);
  let needed := Qmax (leading body_style) (len lines * leading body_style + 2) in
  let g := ensure_space needed g in
  let g := draw (Text MARGIN (y g) (lit "-") body_style) g in
  let g := bullet_loop (length lines) 0%nat lines g in
  Some (set_y (y g - leading body_style) g).

(** The inner loop [for subline in wrapped] of [add_code_block], with the
    local [y_cursor]. *)
Fixpoint subline_loop (wrapped : list str) (y_cursor : Q) (g : GuideComposer)
    : Q * GuideComposer :=
  match wrapped with
  | [] => (y_cursor, g)
  | subline :: rest =>
      let g := draw (Text (MARGIN + 8) y_cursor subline code_style) g in
      subline_loop rest (y_cursor - leading code_style) g
  end.

(** The outer loop [for line in lines]. *)
Fixpoint code_loop (lines : list str) (y_cursor : Q) (g : GuideComposer)
    : option (Q * GuideComposer) :=
  match lines with
  | [] => Some (y_cursor, g)
  | line :: rest =>
      wrapped ← wrap_text line (PAGE_WIDTH - 2 * MARGIN - 16)
                  (font code_style) (size code_style);
      let '(y_cursor, g) := subline_loop wrapped y_cursor g in
      code_loop rest y_cursor g
  end.

Definition add_code_block (lines : list str) (g : GuideComposer) : option GuideComposer :=
  let pad : Q := 8 in
  let block_height := (pad * 2 + len lines * leading code_style)%Q in
  let g := ensure_space (block_height + 8) g in
  let y_bottom := (y g - block_height + 10)%Q in
  let g := draw (RectFill MARGIN y_bottom (PAGE_WIDTH - 2 * MARGIN) block_height
                   (0.93, 0.95, 0.98)%Q) g in
  let y_cursor := (y g - pad)%Q in
  '(_, g) ← code_loop lines y_cursor g;
  Some (set_y (y_bottom - 10) g).

Definition add_spacer (amount : Q) (g : GuideComposer) : GuideComposer :=
  set_y (y g - amount) g.

(** [add_cover_page]; [today] stands for [date.today().isoformat()]. *)
Definition add_cover_page (today : str) (g : GuideComposer) : GuideComposer :=
  let canvas := current g in
  let g := draw_on canvas (RectFill 0 0 PAGE_WIDTH PAGE_HEIGHT (0.97, 0.98, 1.0)%Q) g in
  let g := draw_on canvas (RectFill 0 (PAGE_HEIGHT - 280) PAGE_WIDTH 280 (0.09, 0.15, 0.29)%Q) g in
  let g := draw_on canvas (RectFill 54 (PAGE_HEIGHT - 258) 188 26 (0.97, 0.64, 0.17)%Q) g in
  let g := draw_on canvas (Text 68 (PAGE_HEIGHT - 240) (lit "365 TOOL DROP")
                             (Build_BlockStyle (lit "F2") 12 14 (0.09, 0.15, 0.29)%Q)) g in
  let g := draw_on canvas (Text 54 (PAGE_HEIGHT - 332) (lit "Song Analyzer") title_style) g in
  let g := draw_on canvas (Text 54 (PAGE_HEIGHT - 366) (lit "Getting Started Guide") title_style) g in
  let g := draw_on canvas (Text 54 (PAGE_HEIGHT - 412)
                             (lit "Buyer-ready setup guide for your Gumroad delivery")
                             (Build_BlockStyle (lit "F1") 14 18 (0.87, 0.92, 1.0)%Q)) g in
  let g := draw_on canvas (RectFill 54 204 (PAGE_WIDTH - 108) 140 (1.0, 1.0, 1.0)%Q) g in
  let g := draw_on canvas (Line 54 344 (PAGE_WIDTH - 54) 344 (0.83, 0.87, 0.94)%Q 1) g in
  let g := draw_on canvas (Text 72 316 (lit "What this guide covers")
                             (Build_BlockStyle (lit "F2") 13 16 (0.11, 0.15, 0.22)%Q)) g in
  let g := draw_on canvas (Text 72 292 (lit "- Local Whisper transcription setup") body_style) g in
  let g := draw_on canvas (Text 72 274 (lit "- New local mood/sentiment/themes engine") body_style) g in
  let g := draw_on canvas (Text 72 256 (lit "- First file workflow in under 10 minutes") body_style) g in
  let g := draw_on canvas (Text 72 238 (lit "- Packaging notes for Gumroad buyers") body_style) g in
  let g := draw_on canvas (Text 54 120 (lit "Version: 1.0    Date: " ++ today) small_style) g in
  draw_on canvas (Text 54 102 (lit "Brand: 365 Tool Drop")
                    (Build_BlockStyle (lit "F2") 10 12 (0.15, 0.2, 0.33)%Q)) g.

(** A call of a public method of the composer, and a script of calls. *)
Inductive Call :=
| NewPage
| AddH1 (text : str)
| AddH2 (text : str)
| AddParagraph (text : str) (style : option BlockStyle)
| AddBullet (text : str)
| AddCodeBlock (lines : list str)
| AddSpacer (amount : Q)
| AddCoverPage (today : str).

Definition call (c : Call) (g : GuideComposer) : option GuideComposer :=
  match c with
  | NewPage => Some (new_page g)
  | AddH1 text => Some (add_h1 text g)
  | AddH2 text => Some (add_h2 text g)
  | AddParagraph text style => add_paragraph text style g
  | AddBullet text => add_bullet text g
  | AddCodeBlock lines => add_code_block lines g
  | AddSpacer amount => Some (add_spacer amount g)
  | AddCoverPage today => Some (add_cover_page today g)
  end.

Fixpoint run (cs : list Call) (g : GuideComposer) : option GuideComposer :=
  match cs with
  | [] => Some g
  | c :: rest => g' ← call c g; run rest g'
  end.

Local Close Scope Q_scope.

(** ** build_pdf *)

Abbreviation bytes := (list byte).

(** An ASCII literal as bytes ([b"..."], and [f"...".encode("utf-8")] for
    ASCII text). *)
Definition b (s : string) : bytes := list_byte_of_string s.

Definition NL : bytes := [x0a].

(** [f"{n}"] for a non-negative int. *)
Definition dec (n : nat) : bytes := b (NilZero.string_of_uint (Nat.to_uint n)).

(** [f"{n:010d}"]: zero-padded on the left to at least ten digits. *)
Definition dec010 (n : nat) : bytes :=
  let d := dec n in replicate (10 - length d) x30 ++ d.

(** [l[i] = x] for [0 <= i]: [IndexError] out of range. *)
Definition setitem {A} (l : list A) (i : nat) (x : A) : option (list A) :=
  if decide (i < length l) then Some (<[i:=x]> l) else None.

Definition font_regular : bytes := b "<< /Type /Font /Subtype /Type1 /BaseFont /Helvetica >>".
Definition font_bold : bytes := b "<< /Type /Font /Subtype /Type1 /BaseFont /Helvetica-Bold >>".
Definition font_code : bytes := b "<< /Type /Font /Subtype /Type1 /BaseFont /Courier >>".

Definition stream_obj (content : bytes) : bytes :=
  (b "<< /Length " ++ dec (length content) ++ b " >>" ++ NL ++ b "stream" ++ NL)
  ++ content ++ b "endstream".

(** [PAGE_WIDTH] and [PAGE_HEIGHT] formatted with [:.0f] are [612] and [792]. *)
Definition page_dict (pages_obj content_obj_id : nat) : bytes :=
  b "<< /Type /Page /Parent " ++ dec pages_obj ++ b " 0 R "
  ++ b "/MediaBox [0 0 612 792] "
  ++ b "/Resources << /Font << /F1 1 0 R /F2 2 0 R /F3 3 0 R >> >> "
  ++ b "/Contents " ++ dec content_obj_id ++ b " 0 R >>".

(** [for idx, content in enumerate(streams)], from index [idx] on. *)
Fixpoint content_loop (first_content_obj idx : nat) (streams : list bytes)
    (objects : list bytes) : option (list bytes) :=
  match streams with
  | [] => Some objects
  | content :: rest =>
      let content_obj_id := first_content_obj + idx in
      objects ← setitem objects (content_obj_id - 1) (stream_obj content);
      content_loop first_content_obj (S idx) rest objects
  end.

(** [for idx in range(n_pages)], from index [idx] on with [todo] rounds left. *)
Fixpoint page_loop (first_content_obj first_page_obj pages_obj idx todo : nat)
    (objects : list bytes) (page_ids : list nat) : option (list bytes * list nat) :=
  match todo with
  | 0 => Some (objects, page_ids)
  | S todo =>
      let page_obj_id := first_page_obj + idx in
      let content_obj_id := first_content_obj + idx in
      objects ← setitem objects (page_obj_id - 1) (page_dict pages_obj content_obj_id);
      page_loop first_content_obj first_page_obj pages_obj (S idx) todo
        objects (page_ids ++ [page_obj_id])
  end.

(** [" ".join(f"{pid} 0 R" for pid in page_ids)] *)
Fixpoint join_bytes (sep : bytes) (l : list bytes) : bytes :=
  match l with
  | [] => []
  | [x] => x
  | x :: l' => x ++ sep ++ join_bytes sep l'
  end.

Definition kids_of (page_ids : list nat) : bytes :=
  join_bytes (b " ") (map (λ pid, dec pid ++ b " 0 R") page_ids).

Definition pages_dict (kids : bytes) (n_pages : nat) : bytes :=
  b "<< /Type /Pages /Kids [" ++ kids ++ b "] /Count " ++ dec n_pages ++ b " >>".

Definition catalog_dict (pages_obj : nat) : bytes :=
  b "<< /Type /Catalog /Pages " ++ dec pages_obj ++ b " 0 R >>".

(** The object table of [build_pdf] as it stands before the output is
    written; [objects[k - 1]] is the body of the object with identifier [k]. *)
Definition build_objects (streams : list bytes) : option (list bytes) :=
  let n_pages := length streams in
  let first_content_obj := 4 in
  let first_page_obj := first_content_obj + n_pages in
  let pages_obj := first_page_obj + n_pages in
  let catalog_obj := pages_obj + 1 in
  let total_objs := catalog_obj in
  let objects := replicate total_objs [] in
  objects ← setitem objects 0 font_regular;
  objects ← setitem objects 1 font_bold;
  objects ← setitem objects 2 font_code;
  objects ← content_loop first_content_obj 0 streams objects;
  '(objects, page_ids) ← page_loop first_content_obj first_page_obj pages_obj 0 n_pages objects [];
  let kids := kids_of page_ids in
  objects ← setitem objects (pages_obj - 1) (pages_dict kids n_pages);
  setitem objects (catalog_obj - 1) (catalog_dict pages_obj).

Definition pdf_header : bytes :=
  b "%PDF-1.4" ++ NL ++ [x25; xe2; xe3; xcf; xd3] ++ NL.

Definition obj_header (obj_id : nat) : bytes := dec obj_id ++ b " 0 obj" ++ NL.
Definition endobj : bytes := NL ++ b "endobj" ++ NL.

(** [for obj_id, obj in enumerate(objects, start=1)], from [obj_id] on. *)
Fixpoint write_loop (obj_id : nat) (objects : list bytes) (offsets : list nat)
    (out : bytes) : list nat * bytes :=
  match objects with
  | [] => (offsets, out)
  | obj :: rest =>
      let offsets := offsets ++ [length out] in
      let out := out ++ obj_header obj_id in
      let out := out ++ obj in
      let out := out ++ endobj in
      write_loop (S obj_id) rest offsets out
  end.

Definition xref_entry (off : nat) : bytes := dec010 off ++ b " 00000 n " ++ NL.

(** [for off in offsets[1:]] *)
Fixpoint xref_loop (offs : list nat) (out : bytes) : bytes :=
  match offs with
  | [] => out
  | off :: rest => xref_loop rest (out ++ xref_entry off)
  end.

Definition trailer (total_objs catalog_obj xref_start : nat) : bytes :=
  b "trailer" ++ NL ++ b "<< /Size " ++ dec (total_objs + 1) ++ b " /Root "
  ++ dec catalog_obj ++ b " 0 R >>" ++ NL
  ++ b "startxref" ++ NL ++ dec xref_start ++ NL ++ b "%%EOF" ++ NL.

(** The locals of [build_pdf] at the point where the file is written. *)
Record Built := {
  objects_of : list bytes;
  offsets_of : list nat;
  xref_start_of : nat;
  out_of : bytes;
}.

Definition build_pdf_locals (streams : list bytes) : option Built :=
  objects ← build_objects streams;
  let n_pages := length streams in
  let catalog_obj := 4 + n_pages + n_pages + 1 in
  let total_objs := catalog_obj in
  let out := pdf_header in
  let offsets := [0] in
  let '(offsets, out) := write_loop 1 objects offsets out in
  let xref_start := length out in
  let out := out ++ (b "xref" ++ NL ++ b "0 " ++ dec (total_objs + 1) ++ NL) in
  let out := out ++ (b "0000000000 65535 f " ++ NL) in
  let out := xref_loop (drop 1 offsets) out in
  let out := out ++ trailer total_objs catalog_obj xref_start in
  Some {| objects_of := objects; offsets_of := offsets;
          xref_start_of := xref_start; out_of := out |}.

(** [build_pdf(streams, destination)]: the bytes written to [destination].
    Creating the parent directory and the write itself are outside the
    model. *)
Definition build_pdf (streams : list bytes) : option bytes :=
  out_of <$> build_pdf_locals streams.

(** ** Reading a written file back

    What a reader of the file does with the cross-reference section that
    starts at [xref_start]: the section is cut into lines, the entry of the
    object [id] is line [2 + id] (after the [xref] line, the subsection line
    and the entry of object 0), and its first space-delimited field is the
    byte offset in decimal. *)

Fixpoint lines_of (bs : bytes) : list bytes :=
  match bs with
  | [] => [[]]
  | c :: bs' =>
      if Byte.eqb c x0a then [] :: lines_of bs'
      else match lines_of bs' with
           | l :: ls => (c :: l) :: ls
           | [] => [[c]]
           end
  end.

Fixpoint first_field (bs : bytes) : bytes :=
  match bs with
  | [] => []
  | c :: bs' => if Byte.eqb c x20 then [] else c :: first_field bs'
  end.

Definition parse_dec (bs : bytes) : option nat :=
  Nat.of_uint <$> NilZero.uint_of_string (string_of_list_byte bs).

Definition xref_offset (out : bytes) (xref_start id : nat) : option nat :=
  line ← lines_of (drop xref_start out) !! (2 + id);
  parse_dec (first_field line).

(** What a reader does with a stream object: the integer after [/Length]
    (the dictionary starts with the 11 bytes [<< /Length ]), and the bytes
    that follow the [stream] marker line (the 11 bytes after the integer are
    [ >>], a newline, [stream] and a newline). *)
Definition declared_length (obj : bytes) : option nat :=
  parse_dec (first_field (drop 11 obj)).

Definition after_stream_marker (obj : bytes) : bytes :=
  drop (11 + length (first_field (drop 11 obj)) + 11) obj.

(** The ASCII digits. *)
Definition is_digit (c : byte) : bool :=
  match c with
  | x30 | x31 | x32 | x33 | x34 | x35 | x36 | x37 | x38 | x39 => true
  | _ => false
  end.

(** The offsets [write_loop] records for objects numbered from [obj_id]
    when the output is [pos] bytes long. *)
Fixpoint offsets_from (pos obj_id : nat) (objects : list bytes) : list nat :=
  match objects with
  | [] => []
  | obj :: rest =>
      pos :: offsets_from (pos + length (obj_header obj_id ++ obj ++ endobj))
               (S obj_id) rest
  end.

(** [l] starts with the bytes [p]. *)
Fixpoint starts_with (p l : bytes) : bool :=
  match p, l with
  | [], _ => true
  | c :: p', d :: l' => Byte.eqb c d && starts_with p' l'
  | _ :: _, [] => false
  end.

(** Reading the content stream of the object [id] back from a file: follow
    the cross-reference entry of [id], check that the object header stands
    at that offset, read the integer after [/Length], take that many bytes
    after the [stream] marker line and check that [endstream] follows. *)
Definition read_stream (out : bytes) (xref_start id : nat) : option bytes :=
  off ← xref_offset out xref_start id;
  let at_obj := drop off out in
  if starts_with (obj_header id) at_obj then
    let obj := drop (length (obj_header id)) at_obj in
    n ← declared_length obj;
    let payload := after_stream_marker obj in
    if starts_with (b "endstream") (drop n payload) then Some (take n payload)
    else None
  else None.

(** The entry of the object [id] read by position, as a reader with random
    access does: the entries follow the [xref] line and the subsection line
    [0 <total_objs + 1>], and each is taken to be 20 bytes long. *)
Definition xref_entry_at (out : bytes) (xref_start total_objs id : nat) : bytes :=
  take 20 (drop (xref_start
                 + length (b "xref" ++ NL ++ b "0 " ++ dec (total_objs + 1) ++ NL)
                 + 20 * id) out).

(** The cross-reference section and trailer written after the objects. *)
Definition xref_section (total_objs catalog_obj xref_start : nat) (offs : list nat)
    : bytes :=
  b "xref" ++ NL ++ b "0 " ++ dec (total_objs + 1) ++ NL
  ++ b "0000000000 65535 f " ++ NL
  ++ concat (map xref_entry offs)
  ++ trailer total_objs catalog_obj xref_start.

(** The serialized form of object [obj_id] with body [obj], and of a run
    of objects numbered from [obj_id]. *)
Definition emit (obj_id : nat) (obj : bytes) : bytes :=
  obj_header obj_id ++ obj ++ endobj.

Fixpoint body (obj_id : nat) (objects : list bytes) : bytes :=
  match objects with
  | [] => []
  | obj :: rest => emit obj_id obj ++ body (S obj_id) rest
  end.

(** ** pdf_escape

    The three [replace] calls of [pdf_escape] each have a pattern of one
    character. *)

Definition BACKSLASH : char := 92%N.
Definition LPAREN : char := 40%N.
Definition RPAREN : char := 41%N.

(** [s.replace(old, new)] for a pattern [old] of one character. *)
Fixpoint replace_char (old : char) (new : str) (s : str) : str :=
  match s with
  | [] => []
  | c :: s' => (if (c =? old)%N then new else [c]) ++ replace_char old new s'
  end.

Definition pdf_escape (text : str) : str :=
  replace_char RPAREN [BACKSLASH; RPAREN]
    (replace_char LPAREN [BACKSLASH; LPAREN]
       (replace_char BACKSLASH [BACKSLASH; BACKSLASH] text)).

(** What a reader of a PDF literal string makes of the text between the
    outer parentheses, in the fragment [pdf_escape] writes: a backslash
    makes a following backslash or parenthesis literal; a bare parenthesis,
    a dangling backslash or another escape is not accepted. *)
Definition is_special (c : char) : bool :=
  ((c =? BACKSLASH) || (c =? LPAREN) || (c =? RPAREN))%N.

Fixpoint pdf_unescape (s : str) : option str :=
  match s with
  | [] => Some []
  | c :: s' =>
      if (c =? BACKSLASH)%N then
        match s' with
        | [] => None
        | c' :: s'' =>
            if is_special c' then (c' ::.) <$> pdf_unescape s'' else None
        end
      else if is_special c then None
      else (c ::.) <$> pdf_unescape s'
  end.

(** The escaping of one character. *)
Definition escape_char (c : char) : str :=
  if is_special c then [BACKSLASH; c] else [c].

(** Every break between two consecutive groups of words is forced: the
    first word of the next group does not fit at the end of the line. *)
Fixpoint breaks_forced (capacity : Z) (groups : list (list str)) : Prop :=
  match groups with
  | g1 :: tl =>
      match tl with
      | g2 :: _ =>
          (∀ w, head g2 = Some w → ¬ (Z.of_nat (length (join [SP] g1 ++ [SP] ++ w))
                                       <= capacity)%Z)
          ∧ breaks_forced capacity tl
      | [] => True
      end
  | [] => True
  end.

(** ** Notions used in the statements *)

(** A word: non-empty and free of whitespace. *)
Definition is_word (w : str) : Prop :=
  w ≠ [] ∧ Forall (λ c, is_space c = false) w.

(** [len(line) <= capacity] *)
Definition fits (capacity : Z) (line : str) : Prop :=
  (Z.of_nat (length line) <= capacity)%Z.

(** The capacity in the words of the specification: the font factor, the
    character width and [max(8, floor(widthBudget / charWidth))]. *)
Definition spec_factor (font : str) : Q :=
  if decide (font = lit "F2") then 0.56%Q
  else if decide (font = lit "F3") then 0.60%Q
  else 0.53%Q.

Definition spec_capacity (width : Q) (font : str) (size : Q) : Z :=
  Z.max 8 (Qfloor (width / (size * spec_factor font))).

(** A group of consecutive words that [wrap_text] puts on one line: either
    the joined line fits the capacity or the group is a single word. *)
Definition group_ok (capacity : Z) (g : list str) : Prop :=
  g ≠ [] ∧ (fits capacity (join [SP] g) ∨ ∃ w, g = [w]).

(** *** Composer *)

Local Open Scope Q_scope.

(** Several drawing calls on [self.current], as one update of the store. *)
Definition append_cmds (cmds : list Command) (g : GuideComposer) : GuideComposer :=
  {| heap := alter (λ c, c ++ cmds) (current g) (heap g); pages := pages g;
     current := current g; y := y g; page_num := page_num g |}.

(** What [_draw_page_chrome] draws when the page counter is [n]. *)
Definition chrome_commands (n : nat) : list Command :=
  [ RectFill 0 (PAGE_HEIGHT - 42) PAGE_WIDTH 42 (0.09, 0.15, 0.29)%Q;
    Text MARGIN (PAGE_HEIGHT - 28) (lit "365 Tool Drop")
      (Build_BlockStyle (lit "F2") 12 14 (1, 1, 1)%Q);
    Text (PAGE_WIDTH - 244) (PAGE_HEIGHT - 28) (lit "Song Analyzer - Getting Started")
      (Build_BlockStyle (lit "F1") 10 12 (0.90, 0.94, 1.0)%Q);
    Line MARGIN 52 (PAGE_WIDTH - MARGIN) 52 (0.85, 0.88, 0.93)%Q 0.8;
    Text (PAGE_WIDTH - MARGIN - 40) 36 (lit "Page " ++ str_of_nat n)
      (Build_BlockStyle (lit "F1") 9 12 (0.35, 0.39, 0.46)%Q) ].

(** The text runs of the line loop of [add_paragraph] started at cursor
    [y0], and the cursor it ends with. *)
Fixpoint paragraph_trace (style : BlockStyle) (y0 : Q) (lines : list str)
    : list Command * Q :=
  match lines with
  | [] => ([], y0)
  | line :: rest =>
      let '(cmds, y1) := paragraph_trace style (y0 - leading style) rest in
      (Text MARGIN y0 line style :: cmds, y1)
  end.

(** The same for the loop of [add_bullet]. *)
Fixpoint bullet_trace (n i : nat) (y0 : Q) (lines : list str) : list Command * Q :=
  match lines with
  | [] => ([], y0)
  | line :: rest =>
      let y1 := if (i <? n - 1)%nat then y0 - leading body_style else y0 in
      let '(cmds, y2) := bullet_trace n (S i) y1 rest in
      (Text (MARGIN + 14) y0 line body_style :: cmds, y2)
  end.

(** The same for the loops of [add_code_block], on [y_cursor]. *)
Fixpoint subline_trace (y_cursor : Q) (wrapped : list str) : list Command * Q :=
  match wrapped with
  | [] => ([], y_cursor)
  | subline :: rest =>
      let '(cmds, y1) := subline_trace (y_cursor - leading code_style) rest in
      (Text (MARGIN + 8) y_cursor subline code_style :: cmds, y1)
  end.

Fixpoint code_trace (y_cursor : Q) (lines : list str) : option (list Command * Q) :=
  match lines with
  | [] => Some ([], y_cursor)
  | line :: rest =>
      wrapped ← wrap_text line (PAGE_WIDTH - 2 * MARGIN - 16)
                  (font code_style) (size code_style);
      let '(cmds1, y1) := subline_trace y_cursor wrapped in
      '(cmds2, y2) ← code_trace y1 rest;
      Some (cmds1 ++ cmds2, y2)
  end.

(** What a block call draws on the current page, and the cursor it leaves,
    when the cursor is [y1] after the space check. *)
Definition block_trace (c : Call) (y1 : Q) : option (list Command * Q) :=
  match c with
  | AddH1 text =>
      Some ([Text MARGIN y1 text h1_style], y1 - (leading h1_style + 2))
  | AddH2 text =>
      Some ([Text MARGIN y1 text h2_style], y1 - leading h2_style)
  | AddParagraph text style =>
      let style := default body_style style in
      lines ← wrap_text text (PAGE_WIDTH - 2 * MARGIN) (font style) (size style);
      let '(cmds, y2) := paragraph_trace style y1 lines in
      Some (cmds, y2 - 4)
  | AddBullet text =>
      lines ← wrap_text text (PAGE_WIDTH - 2 * MARGIN - 18)
                (font body_style) (size body_style);
      let '(cmds, y2) := bullet_trace (length lines) 0 y1 lines in
      Some (Text MARGIN y1 (lit "-") body_style :: cmds, y2 - leading body_style)
  | AddCodeBlock lines =>
      let block_height := 8 * 2 + len lines * leading code_style in
      let y_bottom := y1 - block_height + 10 in
      '(cmds, _) ← code_trace (y1 - 8) lines;
      Some (RectFill MARGIN y_bottom (PAGE_WIDTH - 2 * MARGIN) block_height
              (0.93, 0.95, 0.98)%Q :: cmds, y_bottom - 10)
  | _ => None
  end.

(** The invariant of the page list. *)
Definition composer_inv (g : GuideComposer) : Prop :=
  last (pages g) = Some (current g) ∧ page_num g = length (pages g).

(** The page list after a step: unchanged, or one fresh canvas appended. *)
Definition page_step (g g' : GuideComposer) : Prop :=
  (pages g' = pages g ∧ current g' = current g ∧ page_num g' = page_num g)
  ∨ (pages g' = pages g ++ [length (heap g)] ∧ current g' = length (heap g)
     ∧ page_num g' = (page_num g + 1)%nat).

(** The height a block call passes to [ensure_space]. *)
Definition needed_height (c : Call) : option Q :=
  match c with
  | AddH1 _ => Some (leading h1_style + 8)
  | AddH2 _ => Some (leading h2_style + 6)
  | AddParagraph text style =>
      let style := default body_style style in
      lines ← wrap_text text (PAGE_WIDTH - 2 * MARGIN) (font style) (size style);
      Some (Qmax (leading style) (len lines * leading style + 4))
  | AddBullet text =>
      lines ← wrap_text text (PAGE_WIDTH - 2 * MARGIN - 18)
                (font body_style) (size body_style);
      Some (Qmax (leading body_style) (len lines * leading body_style + 2))
  | AddCodeBlock lines => Some (8 * 2 + len lines * leading code_style + 8)
  | _ => None
  end.

(** The two effects a call can have on the canvases: it appends the
    commands [more] to the current canvas, or it allocates one canvas, makes
    it the current and last page, and fills it with the chrome of its page
    number followed by [more]. *)
Definition draws_on_current (more : list Command) (g g' : GuideComposer) : Prop :=
  heap g' = alter (λ c, c ++ more) (current g) (heap g)
  ∧ pages g' = pages g ∧ current g' = current g ∧ page_num g' = page_num g.

Definition draws_on_new_page (more : list Command) (g g' : GuideComposer) : Prop :=
  heap g' = heap g ++ [chrome_commands (page_num g + 1)%nat ++ more]
  ∧ pages g' = pages g ++ [length (heap g)]
  ∧ current g' = length (heap g) ∧ page_num g' = (page_num g + 1)%nat.

(** What [add_cover_page] draws. *)
Definition cover_commands (today : str) : list Command :=
  [ RectFill 0 0 PAGE_WIDTH PAGE_HEIGHT (0.97, 0.98, 1.0)%Q;
    RectFill 0 (PAGE_HEIGHT - 280) PAGE_WIDTH 280 (0.09, 0.15, 0.29)%Q;
    RectFill 54 (PAGE_HEIGHT - 258) 188 26 (0.97, 0.64, 0.17)%Q;
    Text 68 (PAGE_HEIGHT - 240) (lit "365 TOOL DROP")
      (Build_BlockStyle (lit "F2") 12 14 (0.09, 0.15, 0.29)%Q);
    Text 54 (PAGE_HEIGHT - 332) (lit "Song Analyzer") title_style;
    Text 54 (PAGE_HEIGHT - 366) (lit "Getting Started Guide") title_style;
    Text 54 (PAGE_HEIGHT - 412)
      (lit "Buyer-ready setup guide for your Gumroad delivery")
      (Build_BlockStyle (lit "F1") 14 18 (0.87, 0.92, 1.0)%Q);
    RectFill 54 204 (PAGE_WIDTH - 108) 140 (1.0, 1.0, 1.0)%Q;
    Line 54 344 (PAGE_WIDTH - 54) 344 (0.83, 0.87, 0.94)%Q 1;
    Text 72 316 (lit "What this guide covers")
      (Build_BlockStyle (lit "F2") 13 16 (0.11, 0.15, 0.22)%Q);
    Text 72 292 (lit "- Local Whisper transcription setup") body_style;
    Text 72 274 (lit "- New local mood/sentiment/themes engine") body_style;
    Text 72 256 (lit "- First file workflow in under 10 minutes") body_style;
    Text 72 238 (lit "- Packaging notes for Gumroad buyers") body_style;
    Text 54 120 (lit "Version: 1.0    Date: " ++ today) small_style;
    Text 54 102 (lit "Brand: 365 Tool Drop")
      (Build_BlockStyle (lit "F2") 10 12 (0.15, 0.2, 0.33)%Q) ]%Q.

Local Close Scope Q_scope.

(** * The arithmetic of the program in binary64

    Python's [float] is the IEEE 754 double.  The definitions above take the
    numbers of the program as exact rationals; this module embeds the same
    functions over doubles, with the operations of [SpecFloat] at precision
    53 and maximal exponent 1024 (round to nearest, ties to even), so that
    what depends on rounding can be stated of the code as it runs.  An [int]
    of the source that meets a [float] in an operation is converted first
    ([of_Z]); the composer's own styles hold small ints, on which Python's
    int arithmetic and the float arithmetic below agree while the values
    stay under [2 ^ 53]. *)

Module Float64.

Abbreviation float := spec_float.

Definition prec : Z := 53.
Definition emax : Z := 1024.

(** [float(n)] for an int [n], correctly rounded. *)
Definition of_Z (n : Z) : float := binary_normalize prec emax n 0 false.

(** A decimal literal [n/d] of the source, such as [0.56]: the double
    nearest to it (the quotient of two exactly represented integers is
    correctly rounded). *)
Definition dlit (n d : Z) : float := SFdiv prec emax (of_Z n) (of_Z d).

Definition fadd : float → float → float := SFadd prec emax.
Definition fsub : float → float → float := SFsub prec emax.
Definition fmul : float → float → float := SFmul prec emax.

(** [a < b] and [a <= b]; false when either is NaN. *)
Definition fltb : float → float → bool := SFltb.
Definition fleb : float → float → bool := SFleb.

(** [max(a, b)]: [b] when [b > a], else [a]. *)
Definition py_max (a b : float) : float := if fltb a b then b else a.

Definition is_zero (x : float) : bool :=
  match x with S754_zero _ => true | _ => false end.

(** [a / b] on floats: [ZeroDivisionError] when [b] is [0.0] or [-0.0]. *)
Definition truediv (a b : float) : option float :=
  if is_zero b then None else Some (SFdiv prec emax a b).

(** [int(x)]: truncation toward zero; [OverflowError] on an infinity and
    [ValueError] on NaN. *)
Definition py_int (x : float) : option Z :=
  match x with
  | S754_zero _ => Some 0%Z
  | S754_finite s m e =>
      Some (cond_Zopp s (match e with
                         | Zneg k => Z.shiftr (Zpos m) (Zpos k)
                         | _ => Z.shiftl (Zpos m) e
                         end))
  | _ => None
  end.

(** The rational a finite double stands for. *)
Definition value (x : float) : option Q :=
  match x with
  | S754_zero _ => Some 0%Q
  | S754_finite s m e =>
      Some (inject_Z (cond_Zopp s (Zpos m)) * Qpower 2 e)%Q
  | _ => None
  end.

(** Structural equality of doubles, as a boolean. *)
Definition float_eqb (a b : float) : bool :=
  match a, b with
  | S754_zero s1, S754_zero s2 => Bool.eqb s1 s2
  | S754_infinity s1, S754_infinity s2 => Bool.eqb s1 s2
  | S754_nan, S754_nan => true
  | S754_finite s1 m1 e1, S754_finite s2 m2 e2 =>
      Bool.eqb s1 s2 && Pos.eqb m1 m2 && Z.eqb e1 e2
  | _, _ => false
  end.

(** ** estimate_char_width and wrap_text *)

Definition estimate_char_width (font : str) (size : float) : float :=
  if decide (font = lit "F2") then fmul size (dlit 56 100)
  else if decide (font = lit "F3") then fmul size (dlit 60 100)
  else fmul size (dlit 53 100).

(** [max(8, int(width / estimate_char_width(font, size)))] *)
Definition char_capacity (width : float) (font : str) (size : float) : option Z :=
  q ← truediv width (estimate_char_width font size);
  n ← py_int q;
  Some (Z.max 8 n).

Definition wrap_text (text : str) (width : float) (font : str) (size : float)
    : option (list str) :=
  match split (strip text) with
  | [] => Some []
  | w0 :: rest =>
      cap ← char_capacity width font size;
      Some (wrap_loop cap [] w0 rest)
  end.

(** ** Page geometry *)

Definition PAGE_WIDTH : float := of_Z 612.
Definition PAGE_HEIGHT : float := of_Z 792.
Definition MARGIN : float := of_Z 54.

(** ** BlockStyle and PageCanvas *)

Definition rgb := (float * float * float)%type.

Record BlockStyle := {
  font : str;
  size : float;
  leading : float;
  color : rgb;
}.

Inductive Command :=
| RectFill (x y w h : float) (c : rgb)
| Line (x1 y1 x2 y2 : float) (c : rgb) (width : float)
| Text (x y : float) (text : str) (style : BlockStyle).

Abbreviation PageCanvas := (list Command).

(** ** GuideComposer, with the object store of canvases as above *)

Record GuideComposer := {
  heap : list PageCanvas;
  pages : list nat;
  current : nat;
  y : float;
  page_num : nat;
}.

Definition title_style : BlockStyle :=
  Build_BlockStyle (lit "F2") (of_Z 28) (of_Z 32) (of_Z 1, of_Z 1, of_Z 1).
Definition h1_style : BlockStyle :=
  Build_BlockStyle (lit "F2") (of_Z 18) (of_Z 24) (dlit 8 100, dlit 12 100, dlit 17 100).
Definition h2_style : BlockStyle :=
  Build_BlockStyle (lit "F2") (of_Z 13) (of_Z 18) (dlit 8 100, dlit 12 100, dlit 17 100).
Definition body_style : BlockStyle :=
  Build_BlockStyle (lit "F1") (of_Z 11) (of_Z 15) (dlit 14 100, dlit 17 100, dlit 22 100).
Definition small_style : BlockStyle :=
  Build_BlockStyle (lit "F1") (of_Z 9) (of_Z 12) (dlit 28 100, dlit 32 100, dlit 38 100).
Definition code_style : BlockStyle :=
  Build_BlockStyle (lit "F3") (dlit 95 10) (of_Z 13) (dlit 10 100, dlit 13 100, dlit 18 100).

(** [GuideComposer()] *)
Definition init : GuideComposer :=
  {| heap := [[]]; pages := [0%nat]; current := 0%nat;
     y := fsub PAGE_HEIGHT (of_Z 96); page_num := 1%nat |}.

(** [self.y = v] *)
Definition set_y (v : float) (g : GuideComposer) : GuideComposer :=
  {| heap := heap g; pages := pages g; current := current g;
     y := v; page_num := page_num g |}.

(** A drawing call on [self.current]: [commands.append(...)]. *)
Definition draw (cmd : Command) (g : GuideComposer) : GuideComposer :=
  {| heap := alter (λ c, c ++ [cmd]) (current g) (heap g); pages := pages g;
     current := current g; y := y g; page_num := page_num g |}.

Definition _draw_page_chrome (g : GuideComposer) : GuideComposer :=
  let g := draw (RectFill (of_Z 0) (fsub PAGE_HEIGHT (of_Z 42)) PAGE_WIDTH (of_Z 42)
                   (dlit 9 100, dlit 15 100, dlit 29 100)) g in
  let g := draw (Text MARGIN (fsub PAGE_HEIGHT (of_Z 28)) (lit "365 Tool Drop")
                   (Build_BlockStyle (lit "F2") (of_Z 12) (of_Z 14)
                      (of_Z 1, of_Z 1, of_Z 1))) g in
  let g := draw (Text (fsub PAGE_WIDTH (of_Z 244)) (fsub PAGE_HEIGHT (of_Z 28))
                   (lit "Song Analyzer - Getting Started")
                   (Build_BlockStyle (lit "F1") (of_Z 10) (of_Z 12)
                      (dlit 90 100, dlit 94 100, dlit 10 10))) g in
  let g := draw (Line MARGIN (of_Z 52) (fsub PAGE_WIDTH MARGIN) (of_Z 52)
                   (dlit 85 100, dlit 88 100, dlit 93 100) (dlit 8 10)) g in
  draw (Text (fsub (fsub PAGE_WIDTH MARGIN) (of_Z 40)) (of_Z 36)
          (lit "Page " ++ str_of_nat (page_num g))
          (Build_BlockStyle (lit "F1") (of_Z 9) (of_Z 12)
             (dlit 35 100, dlit 39 100, dlit 46 100))) g.

Definition new_page (g : GuideComposer) : GuideComposer :=
  let r := length (heap g) in                    (* PageCanvas() *)
  _draw_page_chrome
    {| heap := heap g ++ [[]]; pages := pages g ++ [r]; current := r;
       y := fsub PAGE_HEIGHT (of_Z 84); page_num := (page_num g + 1)%nat |}.

(** [if self.y - needed < 72: self.new_page()] *)
Definition ensure_space (needed : float) (g : GuideComposer) : GuideComposer :=
  if fltb (fsub (y g) needed) (of_Z 72) then new_page g else g.

Definition add_h1 (text : str) (g : GuideComposer) : GuideComposer :=
  let g := ensure_space (fadd (leading h1_style) (of_Z 8)) g in
  let g := draw (Text MARGIN (y g) text h1_style) g in
  set_y (fsub (y g) (fadd (leading h1_style) (of_Z 2))) g.

Definition add_h2 (text : str) (g : GuideComposer) : GuideComposer :=
  let g := ensure_space (fadd (leading h2_style) (of_Z 6)) g in
  let g := draw (Text MARGIN (y g) text h2_style) g in
  set_y (fsub (y g) (leading h2_style)) g.

(** [len(lines)] where it meets a float *)
Definition len {A} (l : list A) : float := of_Z (Z.of_nat (length l)).

(** The loop [for line in lines] of [add_paragraph]. *)
Fixpoint paragraph_loop (style : BlockStyle) (lines : list str) (g : GuideComposer)
    : GuideComposer :=
  match lines with
  | [] => g
  | line :: rest =>
      let g := draw (Text MARGIN (y g) line style) g in
      let g := set_y (fsub (y g) (leading style)) g in
      paragraph_loop style rest g
  end.

Definition add_paragraph (text : str) (style : option BlockStyle) (g : GuideComposer)
    : option GuideComposer :=
  let style := default body_style style in
  lines ← wrap_text text (fsub PAGE_WIDTH (fmul (of_Z 2) MARGIN)) (font style) (size style);
  let needed := py_max (leading style) (fadd (fmul (len lines) (leading style)) (of_Z 4)) in
  let g := ensure_space needed g in
  let g := paragraph_loop style lines g in
  Some (set_y (fsub (y g) (of_Z 4)) g).

(** The loop [for i, line in enumerate(lines)] of [add_bullet]; [n] is
    [len(lines)]. *)
Fixpoint bullet_loop (n i : nat) (lines : list str) (g : GuideComposer) : GuideComposer :=
  match lines with
  | [] => g
  | line :: rest =>
      let x := fadd MARGIN (of_Z 14) in
      let g := draw (Text x (y g) line body_style) g in
      let g := if (i <? n - 1)%nat then set_y (fsub (y g) (leading body_style)) g else g in
      bullet_loop n (S i) rest g
  end.

Definition add_bullet (text : str) (g : GuideComposer) : option GuideComposer :=
  let bullet_width := fsub (fsub PAGE_WIDTH (fmul (of_Z 2) MARGIN)) (of_Z 18) in
  lines ← wrap_text text bullet_width (font body_style) (size body_style);
  let needed := py_max (leading body_style)
                  (fadd (fmul (len lines) (leading body_style)) (of_Z 2)) in
  let g := ensure_space needed g in
  let g := draw (Text MARGIN (y g) (lit "-") body_style) g in
  let g := bullet_loop (length lines) 0%nat lines g in
  Some (set_y (fsub (y g) (leading body_style)) g).

(** The width [PAGE_WIDTH - (2 * MARGIN) - 16] of a code line. *)
Definition code_width : float :=
  fsub (fsub PAGE_WIDTH (fmul (of_Z 2) MARGIN)) (of_Z 16).

(** The inner loop [for subline in wrapped] of [add_code_block], with the
    local [y_cursor]. *)
Fixpoint subline_loop (wrapped : list str) (y_cursor : float) (g : GuideComposer)
    : float * GuideComposer :=
  match wrapped with
  | [] => (y_cursor, g)
  | subline :: rest =>
      let g := draw (Text (fadd MARGIN (of_Z 8)) y_cursor subline code_style) g in
      subline_loop rest (fsub y_cursor (leading code_style)) g
  end.

(** The outer loop [for line in lines]. *)
Fixpoint code_loop (lines : list str) (y_cursor : float) (g : GuideComposer)
    : option (float * GuideComposer) :=
  match lines with
  | [] => Some (y_cursor, g)
  | line :: rest =>
      wrapped ← wrap_text line code_width (font code_style) (size code_style);
      let '(y_cursor, g) := subline_loop wrapped y_cursor g in
      code_loop rest y_cursor g
  end.

Definition add_code_block (lines : list str) (g : GuideComposer) : option GuideComposer :=
  let pad := of_Z 8 in
  let block_height := fadd (fmul pad (of_Z 2)) (fmul (len lines) (leading code_style)) in
  let g := ensure_space (fadd block_height (of_Z 8)) g in
  let y_bottom := fadd (fsub (y g) block_height) (of_Z 10) in
  let g := draw (RectFill MARGIN y_bottom (fsub PAGE_WIDTH (fmul (of_Z 2) MARGIN))
                   block_height (dlit 93 100, dlit 95 100, dlit 98 100)) g in
  let y_cursor := fsub (y g) pad in
  '(_, g) ← code_loop lines y_cursor g;
  Some (set_y (fsub y_bottom (of_Z 10)) g).

Definition add_spacer (amount : float) (g : GuideComposer) : GuideComposer :=
  set_y (fsub (y g) amount) g.

(** A call of one of the block methods, with [add_spacer], and a script of
    calls. *)
Inductive Call :=
| AddH1 (text : str)
| AddH2 (text : str)
| AddParagraph (text : str) (style : option BlockStyle)
| AddBullet (text : str)
| AddCodeBlock (lines : list str)
| AddSpacer (amount : float).

Definition call (c : Call) (g : GuideComposer) : option GuideComposer :=
  match c with
  | AddH1 text => Some (add_h1 text g)
  | AddH2 text => Some (add_h2 text g)
  | AddParagraph text style => add_paragraph text style g
  | AddBullet text => add_bullet text g
  | AddCodeBlock lines => add_code_block lines g
  | AddSpacer amount => Some (add_spacer amount g)
  end.

Fixpoint run (cs : list Call) (g : GuideComposer) : option GuideComposer :=
  match cs with
  | [] => Some g
  | c :: rest => g' ← call c g; run rest g'
  end.

(** ** Notions used in the statements *)

(** The capacity in the words of the specification, in double arithmetic:
    [charWidth = size * factor] and
    [capacity = max(8, floor(widthBudget / charWidth))]. *)
Definition spec_factor (font : str) : float :=
  if decide (font = lit "F2") then dlit 56 100
  else if decide (font = lit "F3") then dlit 60 100
  else dlit 53 100.

(** The floor of a finite double. *)
Definition ffloor (x : float) : option Z :=
  match x with
  | S754_zero _ => Some 0%Z
  | S754_finite s m e =>
      Some (match e with
            | Zneg k => Z.shiftr (cond_Zopp s (Zpos m)) (Zpos k)
            | _ => Z.shiftl (cond_Zopp s (Zpos m)) e
            end)
  | _ => None
  end.

Definition spec_capacity (width : float) (font : str) (size : float) : option Z :=
  q ← truediv width (fmul size (spec_factor font));
  n ← ffloor q;
  Some (Z.max 8 n).

(** Several drawing calls on [self.current], as one update of the store. *)
Definition append_cmds (cmds : list Command) (g : GuideComposer) : GuideComposer :=
  {| heap := alter (λ c, c ++ cmds) (current g) (heap g); pages := pages g;
     current := current g; y := y g; page_num := page_num g |}.

(** What [_draw_page_chrome] draws when the page counter is [n]. *)
Definition chrome_commands (n : nat) : list Command :=
  [ RectFill (of_Z 0) (fsub PAGE_HEIGHT (of_Z 42)) PAGE_WIDTH (of_Z 42)
      (dlit 9 100, dlit 15 100, dlit 29 100);
    Text MARGIN (fsub PAGE_HEIGHT (of_Z 28)) (lit "365 Tool Drop")
      (Build_BlockStyle (lit "F2") (of_Z 12) (of_Z 14) (of_Z 1, of_Z 1, of_Z 1));
    Text (fsub PAGE_WIDTH (of_Z 244)) (fsub PAGE_HEIGHT (of_Z 28))
      (lit "Song Analyzer - Getting Started")
      (Build_BlockStyle (lit "F1") (of_Z 10) (of_Z 12)
         (dlit 90 100, dlit 94 100, dlit 10 10));
    Line MARGIN (of_Z 52) (fsub PAGE_WIDTH MARGIN) (of_Z 52)
      (dlit 85 100, dlit 88 100, dlit 93 100) (dlit 8 10);
    Text (fsub (fsub PAGE_WIDTH MARGIN) (of_Z 40)) (of_Z 36)
      (lit "Page " ++ str_of_nat n)
      (Build_BlockStyle (lit "F1") (of_Z 9) (of_Z 12)
         (dlit 35 100, dlit 39 100, dlit 46 100)) ].

(** The text runs of the line loop of [add_paragraph] started at cursor
    [y0], and the cursor it ends with. *)
Fixpoint paragraph_trace (style : BlockStyle) (y0 : float) (lines : list str)
    : list Command * float :=
  match lines with
  | [] => ([], y0)
  | line :: rest =>
      let '(cmds, y1) := paragraph_trace style (fsub y0 (leading style)) rest in
      (Text MARGIN y0 line style :: cmds, y1)
  end.

(** The same for the loop of [add_bullet]. *)
Fixpoint bullet_trace (n i : nat) (y0 : float) (lines : list str)
    : list Command * float :=
  match lines with
  | [] => ([], y0)
  | line :: rest =>
      let y1 := if (i <? n - 1)%nat then fsub y0 (leading body_style) else y0 in
      let '(cmds, y2) := bullet_trace n (S i) y1 rest in
      (Text (fadd MARGIN (of_Z 14)) y0 line body_style :: cmds, y2)
  end.

(** The same for the loops of [add_code_block], on [y_cursor]. *)
Fixpoint subline_trace (y_cursor : float) (wrapped : list str)
    : list Command * float :=
  match wrapped with
  | [] => ([], y_cursor)
  | subline :: rest =>
      let '(cmds, y1) := subline_trace (fsub y_cursor (leading code_style)) rest in
      (Text (fadd MARGIN (of_Z 8)) y_cursor subline code_style :: cmds, y1)
  end.

(** The sublines of a code block, in the order they are drawn. *)
Fixpoint code_sublines (lines : list str) : option (list str) :=
  match lines with
  | [] => Some []
  | line :: rest =>
      wrapped ← wrap_text line code_width (font code_style) (size code_style);
      more ← code_sublines rest;
      Some (wrapped ++ more)
  end.

(** The height a block call passes to [ensure_space]. *)
Definition needed_height (c : Call) : option float :=
  match c with
  | AddH1 _ => Some (fadd (leading h1_style) (of_Z 8))
  | AddH2 _ => Some (fadd (leading h2_style) (of_Z 6))
  | AddParagraph text style =>
      let style := default body_style style in
      lines ← wrap_text text (fsub PAGE_WIDTH (fmul (of_Z 2) MARGIN))
                (font style) (size style);
      Some (py_max (leading style) (fadd (fmul (len lines) (leading style)) (of_Z 4)))
  | AddBullet text =>
      lines ← wrap_text text (fsub (fsub PAGE_WIDTH (fmul (of_Z 2) MARGIN)) (of_Z 18))
                (font body_style) (size body_style);
      Some (py_max (leading body_style)
              (fadd (fmul (len lines) (leading body_style)) (of_Z 2)))
  | AddCodeBlock lines =>
      Some (fadd (fadd (fmul (of_Z 8) (of_Z 2)) (fmul (len lines) (leading code_style)))
              (of_Z 8))
  | AddSpacer _ => None
  end.

(** What a block call draws on the current page, and the cursor it leaves,
    when the cursor is [y1] after the space check. *)
Definition block_trace (c : Call) (y1 : float) : option (list Command * float) :=
  match c with
  | AddH1 text =>
      Some ([Text MARGIN y1 text h1_style], fsub y1 (fadd (leading h1_style) (of_Z 2)))
  | AddH2 text =>
      Some ([Text MARGIN y1 text h2_style], fsub y1 (leading h2_style))
  | AddParagraph text style =>
      let style := default body_style style in
      lines ← wrap_text text (fsub PAGE_WIDTH (fmul (of_Z 2) MARGIN))
                (font style) (size style);
      let '(cmds, y2) := paragraph_trace style y1 lines in
      Some (cmds, fsub y2 (of_Z 4))
  | AddBullet text =>
      lines ← wrap_text text (fsub (fsub PAGE_WIDTH (fmul (of_Z 2) MARGIN)) (of_Z 18))
                (font body_style) (size body_style);
      let '(cmds, y2) := bullet_trace (length lines) 0 y1 lines in
      Some (Text MARGIN y1 (lit "-") body_style :: cmds, fsub y2 (leading body_style))
  | AddCodeBlock lines =>
      let block_height :=
        fadd (fmul (of_Z 8) (of_Z 2)) (fmul (len lines) (leading code_style)) in
      let y_bottom := fadd (fsub y1 block_height) (of_Z 10) in
      sublines ← code_sublines lines;
      Some (RectFill MARGIN y_bottom (fsub PAGE_WIDTH (fmul (of_Z 2) MARGIN))
              block_height (dlit 93 100, dlit 95 100, dlit 98 100)
            :: (subline_trace (fsub y1 (of_Z 8)) sublines).1,
            fsub y_bottom (of_Z 10))
  | AddSpacer _ => None
  end.

(** The vertical position at which a command draws: the baseline of a text
    run, the lower edge of a rectangle, the lower end of a line. *)
Definition ypos (cmd : Command) : float :=
  match cmd with
  | RectFill _ y0 _ _ _ => y0
  | Line _ y1 _ y2 _ _ => if fltb y2 y1 then y2 else y1
  | Text _ y0 _ _ => y0
  end.

(** The footer elements of the page chrome: the rule and the page label. *)
Definition footer_chrome (cmd : Command) : Prop :=
  cmd = Line MARGIN (of_Z 52) (fsub PAGE_WIDTH MARGIN) (of_Z 52)
          (dlit 85 100, dlit 88 100, dlit 93 100) (dlit 8 10)
  ∨ ∃ n, cmd = Text (fsub (fsub PAGE_WIDTH MARGIN) (of_Z 40)) (of_Z 36)
                 (lit "Page " ++ str_of_nat n)
                 (Build_BlockStyle (lit "F1") (of_Z 9) (of_Z 12)
                    (dlit 35 100, dlit 39 100, dlit 46 100)).

(** [72 <= y] for the position of a command. *)
Definition above_threshold (cmd : Command) : Prop :=
  fleb (of_Z 72) (ypos cmd) = true.

Definition command_ok (cmd : Command) : Prop :=
  footer_chrome cmd ∨ above_threshold cmd.

(** No command of any page draws below the threshold 72, the footer
    elements apart. *)
Definition content_above_threshold (g : GuideComposer) : Prop :=
  Forall (Forall command_ok) (heap g).

(** A line of a code block that wraps to at most one subline. *)
Definition one_subline (line : str) : bool :=
  match wrap_text line code_width (font code_style) (size code_style) with
  | Some wrapped => (length wrapped <=? 1)%nat
  | None => false
  end.

(** The integers from [lo], [n] of them. *)
Definition zrange (lo : Z) (n : nat) : list Z :=
  map (λ i, (lo + Z.of_nat i)%Z) (seq 0 n).

(** A leading that is a whole number from 1 to 32, as the leadings of the
    composer's own styles are (12 to 32). *)
Definition whole_leading (x : float) : option Z :=
  find (λ L, float_eqb x (of_Z L)) (zrange 1 32).

(** How far below the cursor a block draws: nothing for a heading, the
    lines after the first for a paragraph or a bullet, the lower edge of
    the rectangle for a code block.  Defined for the blocks whose arithmetic
    stays in small integers: a paragraph in a style with a whole leading
    from 1 to 32, a code block none of whose lines wraps. *)
Definition extent (c : Call) : option Z :=
  match c with
  | AddH1 _ | AddH2 _ => Some 0%Z
  | AddParagraph text style =>
      let st := default body_style style in
      lines ← wrap_text text (fsub PAGE_WIDTH (fmul (of_Z 2) MARGIN)) (font st) (size st);
      L ← whole_leading (leading st);
      Some ((Z.of_nat (length lines) - 1) * L)%Z
  | AddBullet text =>
      lines ← wrap_text text (fsub (fsub PAGE_WIDTH (fmul (of_Z 2) MARGIN)) (of_Z 18))
                (font body_style) (size body_style);
      Some ((Z.of_nat (length lines) - 1) * 15)%Z
  | AddCodeBlock lines =>
      if forallb one_subline lines then Some (13 * Z.of_nat (length lines) + 6)%Z
      else None
  | AddSpacer _ => None
  end.

(** A block that, drawn from the top of a fresh page (cursor 708), stays on
    or above the threshold: [708 - extent >= 72]. *)
Definition fits_page (c : Call) : bool :=
  match extent c with
  | Some e => (e <=? 636)%Z
  | None => false
  end.

(** [op] on the doubles of the integers of [la] and [lb] is the integer
    operation [zop], without rounding; the same for a comparison. *)
Definition exact_on (op : float → float → float) (zop : Z → Z → Z) (la lb : list Z)
    : bool :=
  forallb (λ a, let fa := of_Z a in
                forallb (λ b, float_eqb (op fa (of_Z b)) (of_Z (zop a b))) lb) la.

Definition agree_on (cmp : float → float → bool) (zcmp : Z → Z → bool) (la lb : list Z)
    : bool :=
  forallb (λ a, let fa := of_Z a in
                forallb (λ b, Bool.eqb (cmp fa (of_Z b)) (zcmp a b)) lb) la.

End Float64.

(** * Properties of the text wrapper *)

Section split_facts.

Lemma flush_nil (ws : list str) : flush [] ws = ws.
Proof. reflexivity. Qed.

Lemma flush_word (w : str) (ws : list str) : w ≠ [] → flush w ws = w :: ws.
Proof. by destruct w. Qed.

Lemma scan_space (c : char) (s : str) :
  is_space c = true → scan (c :: s) = ([], split s).
Proof.
  intros Hc. unfold split. simpl. destruct (scan s) as [w ws]. by rewrite Hc.
Qed.

Lemma scan_nonspace (c : char) (s : str) :
  is_space c = false → scan (c :: s) = (c :: (scan s).1, (scan s).2).
Proof. intros Hc. simpl. destruct (scan s) as [w ws]. by rewrite Hc. Qed.

Lemma scan_word_app (w s : str) :
  Forall (λ c, is_space c = false) w →
  scan (w ++ s) = (w ++ (scan s).1, (scan s).2).
Proof.
  induction 1 as [|c w Hc _ IH]; simpl app.
  - by destruct (scan s).
  - rewrite scan_nonspace by done. by rewrite IH.
Qed.

Lemma split_space (c : char) (s : str) :
  is_space c = true → split (c :: s) = split s.
Proof. intros Hc. unfold split at 1. by rewrite scan_space. Qed.

Lemma split_word_space (w : str) (c : char) (s : str) :
  is_word w → is_space c = true → split (w ++ c :: s) = w :: split s.
Proof.
  intros [Hne Hw] Hc. unfold split at 1.
  rewrite scan_word_app, scan_space by done. simpl.
  rewrite app_nil_r. by apply flush_word.
Qed.

Lemma split_single (w : str) : is_word w → split w = [w].
Proof.
  intros [Hne Hw]. unfold split.
  rewrite <- (app_nil_r w) at 1. rewrite scan_word_app by done. simpl.
  rewrite app_nil_r. by apply flush_word.
Qed.

Lemma scan_words (s : str) :
  Forall (λ c, is_space c = false) (scan s).1 ∧ Forall is_word (scan s).2.
Proof.
  induction s as [|c s [IH1 IH2]]; simpl; [by split|].
  destruct (scan s) as [w ws]; simpl in *.
  destruct (is_space c) eqn:Hc; simpl.
  - split; [done|]. destruct w as [|c' w]; simpl; [done|].
    constructor; [by split|done].
  - split; [by constructor|done].
Qed.

Lemma split_words (s : str) : Forall is_word (split s).
Proof.
  unfold split. pose proof (scan_words s) as [H1 H2].
  destruct (scan s) as [w ws]; simpl in *.
  destruct w; simpl; [done|]. constructor; [by split|done].
Qed.

Lemma split_blank (s : str) : forallb is_space s = true → split s = [].
Proof.
  induction s as [|c s IH]; simpl; [done|].
  intros [Hc Hs]%andb_true_iff. rewrite split_space by done. auto.
Qed.

Lemma split_lstrip (s : str) : split (lstrip s) = split s.
Proof.
  induction s as [|c s IH]; simpl; [done|].
  destruct (is_space c) eqn:Hc; [|done]. by rewrite split_space.
Qed.

Lemma scan_rstrip (s : str) : scan (rstrip s) = scan s.
Proof.
  induction s as [|c s IH]; [done|].
  cbn [rstrip]. destruct (rstrip s) as [|c' r] eqn:Hr.
  - simpl in IH. destruct (is_space c) eqn:Hc.
    + rewrite scan_space by done. unfold split. by rewrite <- IH.
    + rewrite !scan_nonspace by done. by rewrite <- IH.
  - change (scan (c :: c' :: r) = scan (c :: s)).
    destruct (is_space c) eqn:Hc.
    + rewrite !scan_space by done. unfold split. by rewrite IH.
    + rewrite (scan_nonspace c s), (scan_nonspace c (c' :: r)) by done.
      by rewrite IH.
Qed.

Lemma split_strip (s : str) : split (strip s) = split s.
Proof.
  unfold strip. rewrite <- (split_lstrip s). unfold split. by rewrite scan_rstrip.
Qed.

Lemma join_cons (sep x : str) (l : list str) :
  l ≠ [] → join sep (x :: l) = x ++ sep ++ join sep l.
Proof. by destruct l. Qed.

Lemma join_snoc (sep : str) (l : list str) (x : str) :
  l ≠ [] → join sep (l ++ [x]) = join sep l ++ sep ++ x.
Proof.
  induction l as [|a l IH]; [done|]. intros _.
  destruct l as [|a' l]; [done|].
  change ((a :: a' :: l) ++ [x]) with (a :: ((a' :: l) ++ [x])).
  rewrite join_cons by done. rewrite IH by done.
  rewrite (join_cons _ a (a' :: l)) by done. by rewrite <- !app_assoc.
Qed.

Lemma join_app (sep : str) (l1 l2 : list str) :
  l1 ≠ [] → l2 ≠ [] → join sep (l1 ++ l2) = join sep l1 ++ sep ++ join sep l2.
Proof.
  induction l1 as [|a l1 IH]; [done|]. intros _ Hl2.
  destruct l1 as [|a' l1].
  - simpl app. by rewrite join_cons.
  - change ((a :: a' :: l1) ++ l2) with (a :: ((a' :: l1) ++ l2)).
    rewrite join_cons by done. rewrite IH by done.
    rewrite (join_cons _ a (a' :: l1)) by done. by rewrite <- !app_assoc.
Qed.

Lemma split_join (ws : list str) :
  Forall is_word ws → split (join [SP] ws) = ws.
Proof.
  induction 1 as [|w ws Hw Hws IH]; [done|].
  destruct ws as [|w' ws]; [by apply split_single|].
  rewrite join_cons by done.
  change (w ++ [SP] ++ join [SP] (w' :: ws)) with (w ++ SP :: join [SP] (w' :: ws)).
  rewrite split_word_space by done. by rewrite IH.
Qed.

(** Joining the joined groups is joining all the words. *)
Lemma join_concat (groups : list (list str)) :
  Forall (λ g, g ≠ []) groups →
  join [SP] (map (join [SP]) groups) = join [SP] (concat groups).
Proof.
  induction 1 as [|g groups Hg Hgs IH]; [done|].
  destruct groups as [|g' groups].
  - simpl. by rewrite app_nil_r.
  - change (map (join [SP]) (g :: g' :: groups))
      with (join [SP] g :: map (join [SP]) (g' :: groups)).
    rewrite join_cons by done. rewrite IH.
    change (concat (g :: g' :: groups)) with (g ++ concat (g' :: groups)).
    rewrite join_app; [done..|].
    inversion Hgs; subst. simpl. by destruct g'.
Qed.

End split_facts.

Section wrap_facts.

Lemma wrap_loop_lines (cap : Z) (lines : list str) (cur : str) (ws : list str) :
  wrap_loop cap lines cur ws = lines ++ wrap_loop cap [] cur ws.
Proof.
  revert lines cur. induction ws as [|w ws IH]; intros lines cur; simpl; [done|].
  destruct (_ <=? _)%Z.
  - apply IH.
  - rewrite IH, (IH [cur]). by rewrite app_assoc.
Qed.

Lemma wrap_loop_groups (cap : Z) (g0 rest : list str) :
  group_ok cap g0 →
  ∃ groups, concat groups = g0 ++ rest
    ∧ wrap_loop cap [] (join [SP] g0) rest = map (join [SP]) groups
    ∧ Forall (group_ok cap) groups.
Proof.
  revert g0. induction rest as [|word rest IH]; intros g0 Hg0.
  - exists [g0]. simpl. rewrite !app_nil_r. repeat split. by constructor.
  - destruct Hg0 as [Hne Hfit]. cbn [wrap_loop].
    rewrite <- join_snoc by done.
    destruct (_ <=? _)%Z eqn:Hle.
    + destruct (IH (g0 ++ [word])) as (groups & Hcat & Hwrap & Hok).
      { split; [by destruct g0|]. left. by apply Z.leb_le. }
      exists groups. rewrite Hcat, Hwrap, <- app_assoc. done.
    + destruct (IH [word]) as (groups & Hcat & Hwrap & Hok).
      { split; [done|]. right. by exists word. }
      exists (g0 :: groups). simpl in Hwrap. rewrite wrap_loop_lines, Hwrap.
      simpl. rewrite Hcat. repeat split; [|done..]. by constructor.
Qed.

Lemma estimate_char_width_spec (font : str) (size : Q) :
  estimate_char_width font size = (size * spec_factor font)%Q.
Proof. unfold estimate_char_width, spec_factor. by repeat case_decide. Qed.

Lemma py_int_max_floor (q : Q) : Z.max 8 (py_int q) = Z.max 8 (Qfloor q).
Proof.
  destruct q as [n d]. unfold py_int, Qfloor; simpl.
  destruct (Z_lt_le_dec n 0) as [Hn|Hn].
  - assert (n ÷ Z.pos d <= 0)%Z.
    { rewrite Z.quot_div by done. rewrite Z.sgn_neg, Z.sgn_pos by lia.
      pose proof (Z.div_pos (Z.abs n) (Z.abs (Z.pos d))). lia. }
    assert (n / Z.pos d < 0)%Z by (apply Z.div_lt_upper_bound; lia).
    lia.
  - by rewrite Z.quot_div_nonneg by lia.
Qed.

Lemma char_capacity_spec (width : Q) (font : str) (size : Q) (cap : Z) :
  char_capacity width font size = Some cap → cap = spec_capacity width font size.
Proof.
  unfold char_capacity, truediv, spec_capacity.
  rewrite estimate_char_width_spec.
  destruct (Qeq_bool _ _); simpl; [done|]. intros [= <-]. apply py_int_max_floor.
Qed.

(** The lines of [wrap_text] are the joined groups of a cutting of the
    word list into consecutive groups. *)
Lemma wrap_text_groups (text : str) (width : Q) (font : str) (size : Q)
    (lines : list str) :
  wrap_text text width font size = Some lines →
  ∃ groups, concat groups = split text
    ∧ lines = map (join [SP]) groups
    ∧ Forall (group_ok (spec_capacity width font size)) groups.
Proof.
  unfold wrap_text. rewrite split_strip.
  destruct (split text) as [|w0 rest] eqn:Hw.
  - intros [= <-]. by exists [].
  - destruct (char_capacity width font size) as [cap|] eqn:Hcap; simpl; [|done].
    intros [= <-]. apply char_capacity_spec in Hcap as ->.
    destruct (wrap_loop_groups (spec_capacity width font size) [w0] rest)
      as (groups & Hcat & Hwrap & Hok).
    { split; [done|]. right. by exists w0. }
    exists groups. by rewrite <- Hwrap.
Qed.

Lemma group_ok_nonempty (cap : Z) (groups : list (list str)) :
  Forall (group_ok cap) groups → Forall (λ g, g ≠ []) groups.
Proof. intros H. eapply Forall_impl; [done|]. by intros g [? _]. Qed.

Lemma length_join_elem (g : list str) (w : str) :
  w ∈ g → length w <= length (join [SP] g).
Proof.
  induction g as [|a g IH]; [by intros ?%elem_of_nil|].
  intros Hin. destruct g as [|a' g].
  - apply list_elem_of_singleton in Hin as ->. done.
  - rewrite join_cons by done. rewrite !length_app.
    apply elem_of_cons in Hin as [->|Hin]; [lia|]. specialize (IH Hin). lia.
Qed.

(** The space-joined lines split back into the words of the text. *)
Lemma wrap_text_words (text : str) (width : Q) (font : str) (size : Q)
    (lines : list str) :
  wrap_text text width font size = Some lines →
  split (join [SP] lines) = split text.
Proof.
  intros (groups & Hcat & -> & Hok)%wrap_text_groups.
  rewrite join_concat by by eapply group_ok_nonempty.
  rewrite Hcat. apply split_join, split_words.
Qed.

End wrap_facts.

(** ** The claims on [wrap_text] *)

(** C8.  For an input that is empty or consists only of whitespace,
    [wrap_text] returns the empty list of lines, and raises nothing, whatever
    the width budget, the font tag and the size are (also for a size of
    zero, where a non-blank input would divide by zero). *)
Theorem wrap_text_blank (text : str) (width : Q) (font : str) (size : Q) :
  forallb is_space text = true →
  wrap_text text width font size = Some [].
Proof.
  intros Hblank. unfold wrap_text.
  by rewrite split_strip, split_blank.
Qed.

Lemma wrap_text_blank_witness :
  forallb is_space (lit "   ") = true
  ∧ wrap_text (lit "   ") 504 (lit "F1") 0 = Some [].
Proof.
  split; [reflexivity|]. apply (wrap_text_blank (lit "   ")). reflexivity.
Defined.

(** C10.  [wrap_text] preserves the word sequence of its input: the lines it
    returns, joined with single spaces and split on whitespace again, are
    exactly the words of the input ([text.split()]), in order.  Line by line:
    the words of the lines, one line after the other, are the words of the
    input, and every line is its own words joined by single spaces, so no
    word is dropped, duplicated, reordered or changed. *)
Theorem wrap_text_preserves_words (text : str) (width : Q) (font : str) (size : Q)
    (lines : list str) :
  wrap_text text width font size = Some lines →
  split (join [SP] lines) = split text
  ∧ concat (map split lines) = split text
  ∧ Forall (λ line, join [SP] (split line) = line) lines.
Proof.
  intros Hwrap. split; [by eapply wrap_text_words|].
  destruct (wrap_text_groups _ _ _ _ _ Hwrap) as (groups & Hcat & -> & _).
  assert (Forall (Forall is_word) groups) as Hwords.
  { pose proof (split_words text) as Hw. rewrite <- Hcat in Hw.
    clear Hcat Hwrap. induction groups as [|g groups IH]; [constructor|].
    simpl in Hw. apply Forall_app in Hw as [Hg Hgs].
    constructor; [done|by apply IH]. }
  split.
  - rewrite <- Hcat. f_equal. clear Hcat Hwrap.
    induction Hwords as [|g groups Hg _ IH]; [done|].
    simpl. by rewrite split_join, IH.
  - clear Hcat Hwrap. induction Hwords as [|g groups Hg _ IH]; [constructor|].
    simpl. constructor; [by rewrite split_join|done].
Qed.

Lemma wrap_text_preserves_words_witness :
  wrap_text (lit "  The quick   brown fox jumps over the lazy dog ") 90 (lit "F3") 10
  = Some [lit "The quick brown"; lit "fox jumps over"; lit "the lazy dog"]
  ∧ split (join [SP] [lit "The quick brown"; lit "fox jumps over"; lit "the lazy dog"])
    = split (lit "  The quick   brown fox jumps over the lazy dog ")
  ∧ concat (map split [lit "The quick brown"; lit "fox jumps over"; lit "the lazy dog"])
    = split (lit "  The quick   brown fox jumps over the lazy dog ")
  ∧ Forall (λ line, join [SP] (split line) = line)
      [lit "The quick brown"; lit "fox jumps over"; lit "the lazy dog"].
Proof.
  split; [reflexivity|].
  apply (wrap_text_preserves_words
           (lit "  The quick   brown fox jumps over the lazy dog ") 90 (lit "F3") 10
           [lit "The quick brown"; lit "fox jumps over"; lit "the lazy dog"]).
  reflexivity.
Defined.

(** C7.  Re-wrapping is idempotent: wrapping the space-joined lines returned
    by [wrap_text], at the same width, font and size, returns the same
    lines. *)
Theorem wrap_text_idempotent (text : str) (width : Q) (font : str) (size : Q)
    (lines : list str) :
  wrap_text text width font size = Some lines →
  wrap_text (join [SP] lines) width font size = Some lines.
Proof.
  intros Hwrap. pose proof (wrap_text_words _ _ _ _ _ Hwrap) as Hwords.
  revert Hwrap. unfold wrap_text. rewrite !split_strip. by rewrite Hwords.
Qed.

Lemma wrap_text_idempotent_witness :
  let text := lit "  The quick   brown fox jumps over the lazy dog " in
  let lines := [lit "The quick brown"; lit "fox jumps over"; lit "the lazy dog"] in
  wrap_text text 90 (lit "F3") 10 = Some lines
  ∧ wrap_text (join [SP] lines) 90 (lit "F3") 10 = Some lines.
Proof.
  intros text lines. split; [reflexivity|].
  apply (wrap_text_idempotent text 90 (lit "F3") 10 lines). reflexivity.
Defined.

(** * Properties of the composer *)

Section composer_facts.

Local Open Scope Q_scope.

Lemma append_cmds_nil (g : GuideComposer) : append_cmds [] g = g.
Proof.
  destruct g as [h ps cur y0 n]. unfold append_cmds; simpl. f_equal.
  apply list_alter_id. intros c. apply app_nil_r.
Qed.

Lemma append_cmds_app (c1 c2 : list Command) (g : GuideComposer) :
  append_cmds c2 (append_cmds c1 g) = append_cmds (c1 ++ c2) g.
Proof.
  unfold append_cmds; simpl. f_equal.
  rewrite list_alter_alter_eq. apply list_alter_ext; [|done].
  intros c _. simpl. by rewrite app_assoc.
Qed.

Lemma append_cmds_cons (cmd : Command) (cmds : list Command) (g : GuideComposer) :
  append_cmds cmds (draw cmd g) = append_cmds (cmd :: cmds) g.
Proof. apply (append_cmds_app [cmd] cmds). Qed.

Lemma paragraph_loop_trace (style : BlockStyle) (lines : list str) (g : GuideComposer) :
  paragraph_loop style lines g
  = set_y (paragraph_trace style (y g) lines).2
      (append_cmds (paragraph_trace style (y g) lines).1 g).
Proof.
  revert g. induction lines as [|line rest IH]; intros g.
  - simpl. rewrite append_cmds_nil. by destruct g.
  - cbn [paragraph_loop paragraph_trace]. rewrite IH. simpl y.
    destruct (paragraph_trace style (y g - leading style) rest) as [cmds y1].
    simpl. unfold set_y; simpl. f_equal.
    change (heap (append_cmds cmds (draw (Text MARGIN (y g) line style) g))
            = heap (append_cmds (Text MARGIN (y g) line style :: cmds) g)).
    by rewrite append_cmds_cons.
Qed.

Lemma bullet_loop_trace (n i : nat) (lines : list str) (g : GuideComposer) :
  bullet_loop n i lines g
  = set_y (bullet_trace n i (y g) lines).2
      (append_cmds (bullet_trace n i (y g) lines).1 g).
Proof.
  revert i g. induction lines as [|line rest IH]; intros i g.
  - simpl. rewrite append_cmds_nil. by destruct g.
  - cbn [bullet_loop bullet_trace]. rewrite IH.
    destruct (i <? n - 1)%nat; simpl y;
      destruct (bullet_trace n (S i) _ rest) as [cmds y1];
      simpl; unfold set_y; simpl; f_equal;
      change (heap (append_cmds cmds (draw (Text (MARGIN + 14) (y g) line body_style) g))
              = heap (append_cmds (Text (MARGIN + 14) (y g) line body_style :: cmds) g));
      by rewrite append_cmds_cons.
Qed.

Lemma subline_loop_trace (wrapped : list str) (yc : Q) (g : GuideComposer) :
  subline_loop wrapped yc g
  = ((subline_trace yc wrapped).2, append_cmds (subline_trace yc wrapped).1 g).
Proof.
  revert yc g. induction wrapped as [|subline rest IH]; intros yc g.
  - simpl. by rewrite append_cmds_nil.
  - cbn [subline_loop subline_trace]. rewrite IH.
    destruct (subline_trace (yc - leading code_style) rest) as [cmds y1].
    simpl. by rewrite append_cmds_cons.
Qed.

Lemma code_loop_trace (lines : list str) (yc : Q) (g : GuideComposer) :
  code_loop lines yc g
  = '(cmds, y1) ← code_trace yc lines; Some (y1, append_cmds cmds g).
Proof.
  revert yc g. induction lines as [|line rest IH]; intros yc g.
  - simpl. by rewrite append_cmds_nil.
  - cbn [code_loop code_trace].
    destruct (wrap_text line _ _ _) as [wrapped|]; simpl; [|done].
    rewrite subline_loop_trace.
    destruct (subline_trace yc wrapped) as [cmds1 y1]. simpl. rewrite IH.
    destruct (code_trace y1 rest) as [[cmds2 y2]|]; simpl; [|done].
    by rewrite append_cmds_app.
Qed.

Lemma draw_page_chrome_trace (g : GuideComposer) :
  _draw_page_chrome g = append_cmds (chrome_commands (page_num g)) g.
Proof.
  unfold _draw_page_chrome, draw, draw_on, append_cmds, chrome_commands; simpl.
  f_equal. rewrite !list_alter_alter_eq. apply list_alter_ext; [|done].
  intros c _. simpl. by rewrite <- !app_assoc.
Qed.

Lemma new_page_spec (g : GuideComposer) :
  new_page g
  = {| heap := heap g ++ [chrome_commands (page_num g + 1)];
       pages := pages g ++ [length (heap g)];
       current := length (heap g);
       y := PAGE_HEIGHT - 84;
       page_num := (page_num g + 1)%nat |}.
Proof.
  unfold new_page. rewrite draw_page_chrome_trace. unfold append_cmds; simpl.
  f_equal. rewrite alter_app_r_alt by done. by rewrite Nat.sub_diag.
Qed.

(** A block call is the space check followed by drawing on the page that
    is current then. *)
Lemma block_call_trace (c : Call) (g : GuideComposer) (needed : Q) :
  needed_height c = Some needed →
  call c g
  = '(cmds, v) ← block_trace c (y (ensure_space needed g));
    Some (set_y v (append_cmds cmds (ensure_space needed g))).
Proof.
  destruct c as [|text|text|text style|text|lines| |]; simpl; try done.
  - intros [= <-]. done.
  - intros [= <-]. done.
  - unfold add_paragraph.
    destruct (wrap_text text _ _ _) as [lines|]; simpl; [|done].
    intros [= <-]. rewrite paragraph_loop_trace.
    by destruct (paragraph_trace _ _ lines) as [cmds y2].
  - unfold add_bullet.
    destruct (wrap_text text _ _ _) as [lines|]; simpl; [|done].
    intros [= <-]. rewrite bullet_loop_trace. simpl y.
    destruct (bullet_trace _ _ _ lines) as [cmds y2]. simpl.
    unfold set_y; simpl. do 2 f_equal.
    change (heap (append_cmds cmds (draw (Text MARGIN
              (y (ensure_space (Qmax (leading body_style)
                    (len lines * leading body_style + 2)) g))
              (lit "-") body_style)
              (ensure_space (Qmax (leading body_style)
                    (len lines * leading body_style + 2)) g))) = 
            heap (append_cmds (Text MARGIN
              (y (ensure_space (Qmax (leading body_style)
                    (len lines * leading body_style + 2)) g))
              (lit "-") body_style :: cmds)
              (ensure_space (Qmax (leading body_style)
                    (len lines * leading body_style + 2)) g))).
    by rewrite append_cmds_cons.
  - intros [= <-]. unfold add_code_block. rewrite code_loop_trace. simpl y.
    destruct (code_trace _ lines) as [[cmds y2]|]; simpl; [|done].
    by rewrite append_cmds_cons.
Qed.

End composer_facts.

Section page_list_facts.

Local Open Scope Q_scope.

Lemma Qltb_lt (a b : Q) : Qltb a b = true ↔ a < b.
Proof.
  unfold Qltb. rewrite negb_true_iff, <- not_true_iff_false, Qle_bool_iff.
  split; [apply Qnot_le_lt | apply Qlt_not_le].
Qed.

Lemma Qltb_ge (a b : Q) : Qltb a b = false ↔ b <= a.
Proof.
  unfold Qltb. rewrite negb_false_iff. apply Qle_bool_iff.
Qed.

Lemma ensure_space_cases (needed : Q) (g : GuideComposer) :
  (y g - needed < 72 ∧ ensure_space needed g = new_page g)
  ∨ (72 <= y g - needed ∧ ensure_space needed g = g).
Proof.
  unfold ensure_space. destruct (Qltb (y g - needed) 72) eqn:Hlt.
  - left. by apply Qltb_lt in Hlt.
  - right. by apply Qltb_ge in Hlt.
Qed.

Lemma ensure_space_page_step (needed : Q) (g : GuideComposer) :
  page_step g (ensure_space needed g).
Proof.
  destruct (ensure_space_cases needed g) as [[_ ->]|[_ ->]].
  - right. by rewrite new_page_spec.
  - by left.
Qed.

Lemma call_page_step (c : Call) (g g' : GuideComposer) :
  call c g = Some g' → page_step g g'.
Proof.
  destruct (needed_height c) as [needed|] eqn:Hneeded.
  - rewrite (block_call_trace c g needed Hneeded).
    destruct (block_trace c _) as [[cmds v]|]; simpl; [|done].
    intros [= <-]. apply (ensure_space_page_step needed g).
  - destruct c as [|text|text|text style|text|lines|amount|today]; simpl in *;
      try done.
    + intros [= <-]. right. by rewrite new_page_spec.
    + unfold add_paragraph.
      by destruct (wrap_text text _ _ _).
    + unfold add_bullet.
      by destruct (wrap_text text _ _ _).
    + intros [= <-]. by left.
    + intros [= <-]. by left.
Qed.

Lemma page_step_inv (g g' : GuideComposer) :
  page_step g g' → composer_inv g → composer_inv g'.
Proof.
  intros [(Hp & Hc & Hn)|(Hp & Hc & Hn)] [Hlast Hnum]; unfold composer_inv.
  - by rewrite Hp, Hc, Hn.
  - rewrite Hp, Hc, Hn, last_snoc, length_app. simpl. split; [done|lia].
Qed.

Lemma page_step_prefix (g g' : GuideComposer) :
  page_step g g' → pages g `prefix_of` pages g'.
Proof.
  intros [(Hp & _)|(Hp & _)]; rewrite Hp; [done|]. by apply prefix_app_r.
Qed.

Lemma run_inv (cs : list Call) (g g' : GuideComposer) :
  run cs g = Some g' → composer_inv g →
  composer_inv g' ∧ pages g `prefix_of` pages g'.
Proof.
  revert g. induction cs as [|c cs IH]; intros g; simpl.
  - intros [= <-] Hinv. done.
  - destruct (call c g) as [g1|] eqn:Hcall; simpl; [|done].
    intros Hrun Hinv. apply call_page_step in Hcall.
    destruct (IH g1 Hrun) as [Hinv' Hpre]; [by eapply page_step_inv|].
    split; [done|]. etrans; [by apply page_step_prefix|done].
Qed.

End page_list_facts.

(** ** The claims on the composer's page list and on headings *)

(** C9.  After construction and after every sequence of public calls,
    [current] is the last element of [pages] and [page_num] is the length of
    [pages]; and whatever is called later, the page list of then starts with
    the page list of now: pages are only appended, never removed, replaced or
    reordered. *)
Theorem composer_page_list_invariant (cs1 cs2 : list Call) (g1 g2 : GuideComposer) :
  run cs1 init = Some g1 →
  run cs2 g1 = Some g2 →
  composer_inv init ∧ composer_inv g1 ∧ composer_inv g2
  ∧ pages g1 `prefix_of` pages g2.
Proof.
  intros H1 H2.
  assert (composer_inv init) as Hinit by done.
  destruct (run_inv cs1 init g1 H1 Hinit) as [Hinv1 _].
  destruct (run_inv cs2 g1 g2 H2 Hinv1) as [Hinv2 Hpre].
  done.
Qed.

Lemma composer_page_list_invariant_witness :
  run [AddCoverPage (lit "2026-01-01"); NewPage] init
    = Some (new_page (add_cover_page (lit "2026-01-01") init))
  ∧ run [AddH1 (lit "Start"); AddSpacer 640; AddH2 (lit "Setup")]
      (new_page (add_cover_page (lit "2026-01-01") init))
    = Some (add_h2 (lit "Setup") (add_spacer 640
         (add_h1 (lit "Start") (new_page (add_cover_page (lit "2026-01-01") init)))))
  ∧ composer_inv init
  ∧ composer_inv (new_page (add_cover_page (lit "2026-01-01") init))
  ∧ composer_inv (add_h2 (lit "Setup") (add_spacer 640
       (add_h1 (lit "Start") (new_page (add_cover_page (lit "2026-01-01") init)))))
  ∧ pages (new_page (add_cover_page (lit "2026-01-01") init))
      `prefix_of`
    pages (add_h2 (lit "Setup") (add_spacer 640
       (add_h1 (lit "Start") (new_page (add_cover_page (lit "2026-01-01") init))))).
Proof.
  split; [reflexivity|]. split; [reflexivity|].
  apply (composer_page_list_invariant
           [AddCoverPage (lit "2026-01-01"); NewPage]
           [AddH1 (lit "Start"); AddSpacer 640; AddH2 (lit "Setup")]
           (new_page (add_cover_page (lit "2026-01-01") init))
           (add_h2 (lit "Setup") (add_spacer 640
              (add_h1 (lit "Start") (new_page (add_cover_page (lit "2026-01-01") init)))))).
  - reflexivity.
  - reflexivity.
Defined.

Section drawing_facts.

Local Open Scope Q_scope.

Lemma append_cmds_lookup (cmds : list Command) (g : GuideComposer) :
  (current g < length (heap g))%nat →
  ∃ canvas, heap g !! current g = Some canvas
    ∧ heap (append_cmds cmds g) !! current g = Some (canvas ++ cmds)
    ∧ ∀ r, r ≠ current g → heap (append_cmds cmds g) !! r = heap g !! r.
Proof.
  intros Hlt. destruct (lookup_lt_is_Some_2 _ _ Hlt) as [canvas Hcanvas].
  exists canvas. split; [done|].
  change (heap (append_cmds cmds g))
    with (alter (λ c, c ++ cmds) (current g) (heap g)).
  split.
  - rewrite list_lookup_alter_eq. unfold PageCanvas in *. by rewrite Hcanvas.
  - intros r Hr. by rewrite list_lookup_alter_ne.
Qed.

Lemma ensure_space_current_valid (needed : Q) (g : GuideComposer) :
  (current g < length (heap g))%nat →
  (current (ensure_space needed g) < length (heap (ensure_space needed g)))%nat.
Proof.
  intros Hlt. destruct (ensure_space_cases needed g) as [[_ ->]|[_ ->]]; [|done].
  rewrite new_page_spec. simpl. rewrite length_app. simpl. lia.
Qed.

Lemma paragraph_trace_lines (style : BlockStyle) (y0 : Q) (lines : list str) :
  Forall2 (λ cmd line, ∃ y1, cmd = Text MARGIN y1 line style)
    (paragraph_trace style y0 lines).1 lines.
Proof.
  revert y0. induction lines as [|line rest IH]; intros y0; simpl; [constructor|].
  specialize (IH (y0 - leading style)).
  destruct (paragraph_trace style (y0 - leading style) rest) as [cmds y1]. simpl in *.
  constructor; [by exists y0|done].
Qed.

End drawing_facts.

Local Open Scope Q_scope.




Local Close Scope Q_scope.

(** * Properties of the serializer *)

Section decimal_facts.

Lemma to_uint_nonnil (n : nat) : Nat.to_uint n ≠ Decimal.Nil.
Proof.
  rewrite <- (DecimalNat.Unsigned.of_to n) at 1.
  rewrite DecimalNat.Unsigned.to_of. apply DecimalFacts.unorm_nonnil.
Qed.

Lemma dec_digits_uint (d : Decimal.uint) :
  Forall (λ c, is_digit c = true) (b (NilEmpty.string_of_uint d)).
Proof.
  induction d; simpl; [constructor|..]; by constructor.
Qed.

Lemma dec_digits (n : nat) : Forall (λ c, is_digit c = true) (dec n).
Proof.
  unfold dec. pose proof (to_uint_nonnil n) as Hn.
  pose proof (dec_digits_uint (Nat.to_uint n)) as H.
  by destruct (Nat.to_uint n).
Qed.

Lemma dec_nonempty (n : nat) : dec n ≠ [].
Proof.
  unfold dec. pose proof (to_uint_nonnil n) as Hn.
  by destruct (Nat.to_uint n).
Qed.

Lemma dec010_digits (n : nat) : Forall (λ c, is_digit c = true) (dec010 n).
Proof.
  unfold dec010. apply Forall_app. split; [|apply dec_digits].
  by apply Forall_replicate.
Qed.

Lemma uint_of_string_nonempty (s : string) :
  s ≠ EmptyString → NilZero.uint_of_string s = NilEmpty.uint_of_string s.
Proof. by destruct s. Qed.

Lemma parse_dec_padded (k n : nat) :
  ∃ d, NilEmpty.uint_of_string (string_of_list_byte (replicate k x30 ++ dec n)) = Some d
       ∧ Nat.of_uint d = n.
Proof.
  induction k as [|k (d & Hd & Hn)].
  - exists (Nat.to_uint n). simpl. unfold dec, b.
    rewrite string_of_list_byte_of_string.
    rewrite <- uint_of_string_nonempty.
    + split; [apply NilZero.usu, to_uint_nonnil | apply DecimalNat.Unsigned.of_to].
    + pose proof (to_uint_nonnil n). by destruct (Nat.to_uint n).
  - exists (Decimal.D0 d). split; [|done].
    change (string_of_list_byte (replicate (S k) x30 ++ dec n))
      with (String "0" (string_of_list_byte (replicate k x30 ++ dec n))).
    simpl. by rewrite Hd.
Qed.

Lemma string_of_list_byte_nonempty (bs : bytes) :
  bs ≠ [] → string_of_list_byte bs ≠ EmptyString.
Proof. by destruct bs. Qed.

Lemma parse_dec_dec010 (n : nat) : parse_dec (dec010 n) = Some n.
Proof.
  unfold parse_dec, dec010.
  destruct (parse_dec_padded (10 - length (dec n)) n) as (d & Hd & Hn).
  rewrite uint_of_string_nonempty, Hd; [by simpl; f_equal|].
  apply string_of_list_byte_nonempty. intros Hnil.
  apply app_eq_nil in Hnil as [_ Hnil]. by apply dec_nonempty in Hnil.
Qed.

Lemma parse_dec_dec (n : nat) : parse_dec (dec n) = Some n.
Proof.
  unfold parse_dec.
  destruct (parse_dec_padded 0 n) as (d & Hd & Hn). simpl in Hd.
  rewrite uint_of_string_nonempty, Hd; [by simpl; f_equal|].
  apply string_of_list_byte_nonempty, dec_nonempty.
Qed.

Lemma digit_not_newline (c : byte) : is_digit c = true → Byte.eqb c x0a = false.
Proof. by destruct c. Qed.

Lemma digit_not_space (c : byte) : is_digit c = true → Byte.eqb c x20 = false.
Proof. by destruct c. Qed.

Lemma first_field_digits (ds rest : bytes) :
  Forall (λ c, is_digit c = true) ds → first_field (ds ++ x20 :: rest) = ds.
Proof.
  induction 1 as [|c ds Hc _ IH]; simpl; [done|].
  by rewrite digit_not_space, IH.
Qed.

End decimal_facts.

Section object_table_facts.

Lemma setitem_middle {A} (l1 l2 : list A) (x v : A) :
  setitem (l1 ++ x :: l2) (length l1) v = Some (l1 ++ v :: l2).
Proof.
  unfold setitem. rewrite decide_True.
  - f_equal. rewrite insert_app_r_alt by done. by rewrite Nat.sub_diag.
  - rewrite length_app. simpl. lia.
Qed.

Lemma setitem_lt {A} (l : list A) (i : nat) (v : A) :
  i < length l → setitem l i v = Some (<[i:=v]> l).
Proof. intros Hlt. unfold setitem. by rewrite decide_True. Qed.

Lemma content_loop_fill (first idx : nat) (streams l1 mid l2 : list bytes) :
  length mid = length streams →
  length l1 + 1 = first + idx →
  content_loop first idx streams (l1 ++ mid ++ l2)
  = Some (l1 ++ map stream_obj streams ++ l2).
Proof.
  revert idx l1 mid. induction streams as [|content rest IH]; intros idx l1 mid Hmid Hl1.
  - by destruct mid.
  - destruct mid as [|m mid]; [done|]. simpl in Hmid.
    cbn [content_loop]. replace (first + idx - 1) with (length l1) by lia.
    change ((m :: mid) ++ l2) with (m :: (mid ++ l2)).
    rewrite setitem_middle. simpl.
    rewrite (cons_middle (stream_obj content) l1), app_assoc.
    rewrite IH; [by rewrite <- app_assoc | lia | rewrite length_app; simpl; lia].
Qed.

Lemma page_loop_fill (first_content first_page pages_obj idx todo : nat)
    (l1 mid l2 : list bytes) (page_ids : list nat) :
  length mid = todo →
  length l1 + 1 = first_page + idx →
  page_loop first_content first_page pages_obj idx todo (l1 ++ mid ++ l2) page_ids
  = Some (l1 ++ map (λ i, page_dict pages_obj (first_content + i)) (seq idx todo) ++ l2,
          page_ids ++ map (λ i, first_page + i) (seq idx todo)).
Proof.
  revert idx l1 mid page_ids.
  induction todo as [|todo IH]; intros idx l1 mid page_ids Hmid Hl1.
  - destruct mid; [|done]. simpl. by rewrite app_nil_r.
  - destruct mid as [|m mid]; [done|]. simpl in Hmid.
    cbn [page_loop]. replace (first_page + idx - 1) with (length l1) by lia.
    change ((m :: mid) ++ l2) with (m :: (mid ++ l2)).
    rewrite setitem_middle. simpl.
    rewrite (cons_middle (page_dict pages_obj (first_content + idx)) l1), app_assoc.
    rewrite IH; [| lia | rewrite length_app; simpl; lia].
    by rewrite <- !app_assoc.
Qed.

(** The object table in closed form: [objects[k - 1]] for the identifiers
    [k] = 1, 2, 3 (fonts), 4 .. n+3 (content streams), n+4 .. 2n+3 (page
    dictionaries), 2n+4 (pages tree) and 2n+5 (catalog). *)
Lemma build_objects_closed (streams : list bytes) :
  build_objects streams
  = Some ([font_regular; font_bold; font_code]
          ++ map stream_obj streams
          ++ map (λ i, page_dict (4 + length streams + length streams) (4 + i))
               (seq 0 (length streams))
          ++ [pages_dict (kids_of (map (λ i, 4 + length streams + i)
                                     (seq 0 (length streams))))
                (length streams);
              catalog_dict (4 + length streams + length streams)]).
Proof.
  unfold build_objects. cbv zeta. set (n := length streams).
  assert (replicate (4 + n + n + 1) (@nil byte)
          = [[]; []; []] ++ replicate n [] ++ replicate n [] ++ [[]; []]) as ->.
  { replace (4 + n + n + 1) with (3 + (n + (n + 2))) by lia.
    by rewrite !replicate_add. }
  rewrite (setitem_lt _ 0) by (cbn [app length]; lia).
  cbn [mbind option_bind insert list_insert app].
  rewrite (setitem_lt _ 1) by (cbn [app length]; lia).
  cbn [mbind option_bind insert list_insert app].
  rewrite (setitem_lt _ 2) by (cbn [app length]; lia).
  cbn [mbind option_bind insert list_insert app].
  change (content_loop 4 0 streams (font_regular :: font_bold :: font_code :: ?l))
    with (content_loop 4 0 streams ([font_regular; font_bold; font_code] ++ l)).
  rewrite (content_loop_fill 4 0 streams [font_regular; font_bold; font_code]
             (replicate n []) (replicate n [] ++ [[]; []]));
    [|by rewrite length_replicate|done].
  cbn [mbind option_bind].
  rewrite (app_assoc [font_regular; font_bold; font_code] (map stream_obj streams)).
  rewrite (page_loop_fill 4 (4 + n) (4 + n + n) 0 n _ (replicate n []) [[]; []] []);
    [|by rewrite length_replicate
     |rewrite length_app, length_map; cbn [length]; fold n; lia].
  cbn [mbind option_bind]. rewrite app_nil_l.
  set (l := ([font_regular; font_bold; font_code] ++ map stream_obj streams)
            ++ map (λ i, page_dict (4 + n + n) (4 + i)) (seq 0 n)).
  assert (length l = 4 + n + n - 1) as Hl.
  { unfold l. rewrite !length_app, !length_map, length_seq. cbn [length]. fold n. lia. }
  rewrite (app_assoc _ _ [[]; []]). fold l.
  rewrite <- Hl, setitem_middle. cbn [mbind option_bind].
  rewrite (cons_middle (pages_dict _ _) l), app_assoc.
  replace (4 + n + n + 1 - 1) with
    (length (l ++ [pages_dict (kids_of (map (λ i, 4 + n + i) (seq 0 n))) n])).
  2: { rewrite length_app. cbn [length]. lia. }
  rewrite setitem_middle. f_equal. unfold l.
  by rewrite <- !app_assoc.
Qed.

End object_table_facts.

Section output_facts.

Lemma write_loop_closed (obj_id : nat) (objects : list bytes) (offsets : list nat)
    (out : bytes) :
  write_loop obj_id objects offsets out
  = (offsets ++ offsets_from (length out) obj_id objects, out ++ body obj_id objects).
Proof.
  revert obj_id offsets out.
  induction objects as [|obj rest IH]; intros obj_id offsets out.
  - simpl. by rewrite !app_nil_r.
  - cbn [write_loop offsets_from body]. rewrite IH.
    assert (length (((out ++ obj_header obj_id) ++ obj) ++ endobj)
            = length out + length (obj_header obj_id ++ obj ++ endobj)) as ->
      by (rewrite !length_app; lia).
    unfold emit. by rewrite <- !app_assoc.
Qed.

Lemma xref_loop_closed (offs : list nat) (out : bytes) :
  xref_loop offs out = out ++ concat (map xref_entry offs).
Proof.
  revert out. induction offs as [|off rest IH]; intros out; simpl.
  - by rewrite app_nil_r.
  - by rewrite IH, <- app_assoc.
Qed.

Lemma body_app (obj_id : nat) (l1 l2 : list bytes) :
  body obj_id (l1 ++ l2) = body obj_id l1 ++ body (obj_id + length l1) l2.
Proof.
  revert obj_id. induction l1 as [|obj l1 IH]; intros obj_id; simpl.
  - by rewrite Nat.add_0_r.
  - rewrite IH, <- app_assoc. do 3 f_equal. lia.
Qed.

Lemma offsets_from_length (pos obj_id : nat) (objects : list bytes) :
  length (offsets_from pos obj_id objects) = length objects.
Proof.
  revert pos obj_id. induction objects as [|obj rest IH]; intros; simpl; [done|].
  by rewrite IH.
Qed.

Lemma offsets_from_lookup (pos obj_id i : nat) (objects : list bytes) :
  i < length objects →
  offsets_from pos obj_id objects !! i
  = Some (pos + length (body obj_id (take i objects))).
Proof.
  revert pos obj_id i. induction objects as [|obj rest IH]; intros pos obj_id i Hi.
  - simpl in Hi. lia.
  - destruct i as [|i]; simpl.
    + f_equal. lia.
    + rewrite IH by (simpl in Hi; lia). f_equal.
      unfold emit. rewrite !length_app. lia.
Qed.

(** Cutting into lines. *)
Lemma lines_of_line (l rest : bytes) :
  Forall (λ c, Byte.eqb c x0a = false) l →
  lines_of (l ++ x0a :: rest) = l :: lines_of rest.
Proof.
  induction 1 as [|c l Hc _ IH]; [done|].
  simpl. by rewrite Hc, IH.
Qed.

Lemma no_newline_digits (ds : bytes) :
  Forall (λ c, is_digit c = true) ds → Forall (λ c, Byte.eqb c x0a = false) ds.
Proof. intros H. eapply Forall_impl; [exact H|]. apply digit_not_newline. Qed.

Lemma lines_of_entries (offs : list nat) (rest : bytes) (i : nat) (off : nat) :
  offs !! i = Some off →
  lines_of (concat (map xref_entry offs) ++ rest) !! i
  = Some (dec010 off ++ b " 00000 n ").
Proof.
  revert i. induction offs as [|o offs IH]; intros i Hi; [done|].
  cbn [map concat]. unfold xref_entry at 1. unfold NL.
  rewrite <- !app_assoc. rewrite (app_assoc (dec010 o)).
  cbn [app]. rewrite lines_of_line.
  - destruct i as [|i]; simpl in Hi |- *; [by injection Hi as ->|by apply IH].
  - apply Forall_app. split; [apply no_newline_digits, dec010_digits|].
    by repeat constructor.
Qed.

Lemma first_field_entry (off : nat) :
  first_field (dec010 off ++ b " 00000 n ") = dec010 off.
Proof. apply (first_field_digits (dec010 off)), dec010_digits. Qed.

End output_facts.

Section build_pdf_facts.

(** [build_pdf] never raises, and its output is the header, the objects in
    the order of the table, the cross-reference section and the trailer. *)
Lemma build_pdf_locals_closed (streams : list bytes) :
  ∃ objects,
    build_objects streams = Some objects
    ∧ length objects = 2 * length streams + 5
    ∧ build_pdf_locals streams
      = Some {| objects_of := objects;
                offsets_of := 0 :: offsets_from (length pdf_header) 1 objects;
                xref_start_of := length (pdf_header ++ body 1 objects);
                out_of := (pdf_header ++ body 1 objects)
                          ++ xref_section (4 + length streams + length streams + 1)
                               (4 + length streams + length streams + 1)
                               (length (pdf_header ++ body 1 objects))
                               (offsets_from (length pdf_header) 1 objects) |}.
Proof.
  eexists. split; [apply build_objects_closed|]. split.
  { rewrite !length_app, !length_map, length_seq. simpl. lia. }
  unfold build_pdf_locals. rewrite build_objects_closed. cbn [mbind option_bind].
  rewrite write_loop_closed. cbv zeta. cbn [drop app].
  rewrite xref_loop_closed. unfold xref_section. do 2 f_equal.
  by rewrite <- !app_assoc.
Qed.

Lemma body_split (objects : list bytes) (i : nat) (obj : bytes) :
  objects !! i = Some obj →
  body 1 objects
  = body 1 (take i objects) ++ emit (S i) obj ++ body (S (S i)) (drop (S i) objects).
Proof.
  intros Hobj. rewrite <- (take_drop_middle objects i obj Hobj) at 1.
  rewrite body_app. cbn [body]. do 2 f_equal.
  - f_equal. rewrite length_take_le; [lia|]. apply lookup_lt_Some in Hobj. lia.
  - f_equal. rewrite length_take_le; [lia|]. apply lookup_lt_Some in Hobj. lia.
Qed.

Lemma xref_offset_read (pre : bytes) (total catalog xs : nat) (offs : list nat)
    (id off : nat) :
  1 ≤ id → offs !! (id - 1) = Some off →
  xref_offset (pre ++ xref_section total catalog xs offs) (length pre) id = Some off.
Proof.
  intros Hid Hoff. unfold xref_offset. rewrite drop_app_length.
  unfold xref_section, NL.
  change (b "xref" ++ [x0a] ++ ?r) with (b "xref" ++ x0a :: r).
  rewrite lines_of_line by by repeat constructor.
  rewrite (app_assoc (b "0 ")).
  change ((b "0 " ++ dec (total + 1)) ++ [x0a] ++ ?r)
    with ((b "0 " ++ dec (total + 1)) ++ x0a :: r).
  rewrite lines_of_line.
  2: { apply Forall_app. split; [by repeat constructor|].
       apply no_newline_digits, dec_digits. }
  change (b "0000000000 65535 f " ++ [x0a] ++ ?r)
    with (b "0000000000 65535 f " ++ x0a :: r).
  rewrite lines_of_line by by repeat constructor.
  destruct id as [|i]; [lia|]. cbn [lookup list_lookup Nat.add].
  simpl in Hoff. rewrite Nat.sub_0_r in Hoff.
  rewrite (lines_of_entries offs _ i off Hoff). cbn [mbind option_bind].
  rewrite first_field_entry. apply parse_dec_dec010.
Qed.

Lemma stream_obj_read (content : bytes) :
  declared_length (stream_obj content) = Some (length content)
  ∧ after_stream_marker (stream_obj content) = content ++ b "endstream".
Proof.
  unfold declared_length, after_stream_marker, stream_obj, NL.
  rewrite <- !app_assoc.
  change (drop 11 (b "<< /Length " ++ ?r)) with r.
  change (b " >>" ++ ?r) with (x20 :: (b ">>" ++ r)).
  rewrite first_field_digits by apply dec_digits.
  split; [apply parse_dec_dec|].
  rewrite <- Nat.add_assoc. rewrite <- drop_drop.
  change (drop 11 (b "<< /Length " ++ ?r)) with r.
  rewrite <- drop_drop, drop_app_length. reflexivity.
Qed.

End build_pdf_facts.

(** ** The claims on [build_pdf] *)

(** C2.  [build_pdf] numbers the objects from 1 without gaps, in this
    order: the three fonts are the objects 1 to 3, the content stream of page
    [i] (counted from 0) is object [4 + i], so the streams are the objects 4
    to [n + 3] in page order, the dictionary of page [i] is object
    [n + 4 + i] and refers to its content stream [4 + i] and to the pages
    tree, the pages tree is object [2n + 4] and lists the page objects in
    order, and the catalog is object [2n + 5].  The file body holds the
    objects in increasing order of identifier, each under its own
    [<id> 0 obj] header, starting with object 1 right after the file header.
    This holds for every [n], in particular for [n >= 1]. *)
Theorem build_pdf_object_numbering (streams : list bytes) :
  ∃ built,
    build_pdf_locals streams = Some built
    ∧ objects_of built
      = [font_regular; font_bold; font_code]
        ++ map stream_obj streams
        ++ map (λ i, page_dict (2 * length streams + 4) (4 + i))
             (seq 0 (length streams))
        ++ [pages_dict (kids_of (map (λ i, length streams + 4 + i)
                                   (seq 0 (length streams))))
              (length streams);
            catalog_dict (2 * length streams + 4)]
    ∧ length (objects_of built) = 2 * length streams + 5
    ∧ ∃ rest, out_of built = pdf_header ++ body 1 (objects_of built) ++ rest.
Proof.
  destruct (build_pdf_locals_closed streams) as (objects & Hobjs & Hlen & Hbuilt).
  eexists. split; [exact Hbuilt|]. cbn [objects_of out_of].
  split; [|split; [done|]].
  - rewrite build_objects_closed in Hobjs. apply (inj Some) in Hobjs as <-.
    replace (4 + length streams + length streams) with (2 * length streams + 4) by lia.
    rewrite (List.map_ext (λ i, 4 + length streams + i) (λ i, length streams + 4 + i));
      [done|]. intros i. lia.
  - eexists. by rewrite <- app_assoc.
Qed.

(** C1.  For every list of page buffers and every object identifier [id]
    of the file, [build_pdf] succeeds and: the offset read back from the
    entry of [id] in the cross-reference table of the output is the offset
    the writer recorded; the output up to that offset is the file header
    followed by the objects before [id], and from that offset on it starts
    with the [<id> 0 obj] header and the whole object; the file ends with
    [startxref], the offset of the cross-reference section and the
    end-of-file marker.  If [id] is the
    content stream of a page, the integer read after [/Length] is the length
    of the page's buffer, and the bytes after the [stream] marker line are
    exactly the buffer, followed at once by [endstream]. *)
Theorem build_pdf_round_trip (streams : list bytes) (id : nat) :
  1 ≤ id ≤ 2 * length streams + 5 →
  ∃ built obj off,
    build_pdf_locals streams = Some built
    ∧ objects_of built !! (id - 1) = Some obj
    ∧ xref_offset (out_of built) (xref_start_of built) id = Some off
    ∧ offsets_of built !! id = Some off
    ∧ take off (out_of built)
      = pdf_header ++ body 1 (take (id - 1) (objects_of built))
    ∧ obj_header id ++ obj ++ endobj `prefix_of` drop off (out_of built)
    ∧ b "startxref" ++ NL ++ dec (xref_start_of built) ++ NL ++ b "%%EOF" ++ NL
        `suffix_of` out_of built
    ∧ ∀ content, 4 ≤ id → streams !! (id - 4) = Some content →
        obj = stream_obj content
        ∧ declared_length obj = Some (length content)
        ∧ after_stream_marker obj = content ++ b "endstream".
Proof.
  intros Hid.
  destruct (build_pdf_locals_closed streams) as (objects & Hobjs & Hlen & Hbuilt).
  destruct (lookup_lt_is_Some_2 objects (id - 1)) as [obj Hobj]; [lia|].
  set (off := length pdf_header + length (body 1 (take (id - 1) objects))).
  assert (offsets_from (length pdf_header) 1 objects !! (id - 1) = Some off) as Hoff.
  { apply offsets_from_lookup. lia. }
  pose proof (body_split objects (id - 1) obj Hobj) as Hbody.
  replace (S (id - 1)) with id in Hbody by lia.
  eexists _, obj, off. split; [exact Hbuilt|].
  cbn [objects_of out_of xref_start_of offsets_of].
  split; [done|]. split; [apply xref_offset_read; [lia|done]|]. split.
  { destruct id as [|i]; [lia|]. simpl in Hoff |- *. by rewrite Nat.sub_0_r in Hoff. }
  assert ((pdf_header ++ body 1 objects)
            ++ xref_section (4 + length streams + length streams + 1)
                 (4 + length streams + length streams + 1)
                 (length (pdf_header ++ body 1 objects))
                 (offsets_from (length pdf_header) 1 objects)
          = (pdf_header ++ body 1 (take (id - 1) objects))
            ++ emit id obj
            ++ body (S id) (drop id objects)
            ++ xref_section (4 + length streams + length streams + 1)
                 (4 + length streams + length streams + 1)
                 (length (pdf_header ++ body 1 objects))
                 (offsets_from (length pdf_header) 1 objects)) as ->.
  { rewrite Hbody at 1. by rewrite <- !app_assoc. }
  assert (off = length (pdf_header ++ body 1 (take (id - 1) objects))) as ->
    by by rewrite length_app.
  split; [by rewrite take_app_length|]. split.
  { rewrite drop_app_length. by eexists. }
  split.
  { unfold xref_section, trailer. rewrite <- !app_assoc.
    repeat first [reflexivity | apply suffix_app_r]. }
  intros content Hid4 Hcontent.
  assert (obj = stream_obj content) as ->.
  { rewrite build_objects_closed in Hobjs. apply (inj Some) in Hobjs as <-.
    rewrite lookup_app_r in Hobj by (cbn [length]; lia).
    replace (id - 1 - length [font_regular; font_bold; font_code]) with (id - 4)
      in Hobj by (cbn [length]; lia).
    rewrite lookup_app_l in Hobj
      by (rewrite length_map; by apply lookup_lt_Some in Hcontent).
    rewrite list_lookup_fmap, Hcontent in Hobj. by injection Hobj as <-. }
  split; [done|]. apply stream_obj_read.
Qed.

Lemma build_pdf_round_trip_witness :
  1 ≤ 5 ≤ 2 * length [b "AB"; b "hello"] + 5
  ∧ ∃ built obj off,
      build_pdf_locals [b "AB"; b "hello"] = Some built
      ∧ objects_of built !! (5 - 1) = Some obj
      ∧ xref_offset (out_of built) (xref_start_of built) 5 = Some off
      ∧ offsets_of built !! 5 = Some off
      ∧ take off (out_of built)
        = pdf_header ++ body 1 (take (5 - 1) (objects_of built))
      ∧ obj_header 5 ++ obj ++ endobj `prefix_of` drop off (out_of built)
      ∧ b "startxref" ++ NL ++ dec (xref_start_of built) ++ NL ++ b "%%EOF" ++ NL
          `suffix_of` out_of built
      ∧ ∀ content, 4 ≤ 5 → [b "AB"; b "hello"] !! (5 - 4) = Some content →
          obj = stream_obj content
          ∧ declared_length obj = Some (length content)
          ∧ after_stream_marker obj = content ++ b "endstream".
Proof.
  split; [simpl; lia|].
  apply (build_pdf_round_trip [b "AB"; b "hello"] 5). simpl; lia.
Defined.

(** * Further properties of the source *)

Section pdf_escape_facts.

Lemma replace_char_app (old : char) (new s1 s2 : str) :
  replace_char old new (s1 ++ s2) = replace_char old new s1 ++ replace_char old new s2.
Proof.
  induction s1 as [|c s1 IH]; simpl; [done|]. by rewrite IH, <- app_assoc.
Qed.

Lemma pdf_escape_cons (c : char) (text : str) :
  pdf_escape (c :: text) = escape_char c ++ pdf_escape text.
Proof.
  unfold pdf_escape, escape_char, is_special. cbn [replace_char].
  destruct (c =? BACKSLASH)%N eqn:Hb.
  - apply N.eqb_eq in Hb as ->. by rewrite !replace_char_app.
  - destruct (c =? LPAREN)%N eqn:Hl.
    + apply N.eqb_eq in Hl as ->. by rewrite !replace_char_app.
    + destruct (c =? RPAREN)%N eqn:Hr.
      * apply N.eqb_eq in Hr as ->. by rewrite !replace_char_app.
      * rewrite !replace_char_app. cbn [replace_char app].
        rewrite Hl. cbn [replace_char app]. by rewrite Hr.
Qed.

Lemma pdf_escape_app (s1 s2 : str) :
  pdf_escape (s1 ++ s2) = pdf_escape s1 ++ pdf_escape s2.
Proof.
  induction s1 as [|c s1 IH]; [done|].
  simpl app. by rewrite !pdf_escape_cons, IH, <- app_assoc.
Qed.

Lemma length_escape_char (c : char) :
  length (escape_char c) = if is_special c then 2 else 1.
Proof. unfold escape_char. by destruct (is_special c). Qed.

End pdf_escape_facts.

(** X1.  What [pdf_escape] writes reads back as the text: in the output a
    backslash is always followed by a backslash or a parenthesis, no
    parenthesis stands unescaped, and undoing the escapes gives the original
    text, whatever characters it holds. *)
Theorem pdf_escape_round_trip (text : str) :
  pdf_unescape (pdf_escape text) = Some text.
Proof.
  induction text as [|c text IH]; [done|].
  rewrite pdf_escape_cons. unfold escape_char.
  destruct (is_special c) eqn:Hc.
  - cbn [app pdf_unescape]. change (BACKSLASH =? BACKSLASH)%N with true.
    cbn iota. by rewrite Hc, IH.
  - cbn [app pdf_unescape]. rewrite Hc, IH.
    unfold is_special in Hc. by destruct (c =? BACKSLASH)%N.
Qed.

(** X2.  [pdf_escape] adds one character for every backslash and
    parenthesis of the text and nothing else; it returns the text unchanged
    exactly when the text holds none of them, and it distributes over
    concatenation. *)
Theorem pdf_escape_growth (text more : str) :
  length (pdf_escape text) = length text + length (filter (λ c, is_special c = true) text)
  ∧ (pdf_escape text = text ↔ Forall (λ c, is_special c = false) text)
  ∧ pdf_escape (text ++ more) = pdf_escape text ++ pdf_escape more.
Proof.
  assert (length (pdf_escape text)
          = length text + length (filter (λ c, is_special c = true) text)) as Hlen.
  { induction text as [|c text IH]; [done|].
    rewrite pdf_escape_cons, length_app, length_escape_char, IH.
    unfold str in *. rewrite filter_cons. destruct (is_special c) eqn:Hc.
    - rewrite decide_True by done. simpl. lia.
    - rewrite decide_False by done. simpl. lia. }
  split; [done|]. split; [|apply pdf_escape_app].
  split.
  - intros Heq. rewrite Heq in Hlen.
    assert (filter (λ c, is_special c = true) text = []) as Hnil.
    { apply length_zero_iff_nil. lia. }
    apply Forall_forall. intros c Hin.
    destruct (is_special c) eqn:Hc; [|done].
    unfold str in *.
    assert (c ∈ filter (λ c, is_special c = true) text) as Hf
      by by apply list_elem_of_filter.
    rewrite Hnil in Hf. by apply elem_of_nil in Hf.
  - clear Hlen. induction 1 as [|c text Hc _ IH]; [done|].
    rewrite pdf_escape_cons, IH. unfold escape_char. by rewrite Hc.
Qed.

Section wrap_more_facts.

Lemma groups_words (groups : list (list str)) (text : str) :
  concat groups = split text → Forall (Forall is_word) groups.
Proof.
  intros Hcat. pose proof (split_words text) as Hw. rewrite <- Hcat in Hw.
  clear Hcat. induction groups as [|g groups IH]; [constructor|].
  simpl in Hw. apply Forall_app in Hw as [Hg Hgs].
  constructor; [done|by apply IH].
Qed.

Lemma join_nonempty (g : list str) : g ≠ [] → Forall is_word g → join [SP] g ≠ [].
Proof.
  intros Hne Hw. destruct g as [|w g]; [done|].
  inversion Hw as [|? ? [Hwne _] _]; subst.
  destruct g; simpl; [done|]. by destruct w.
Qed.

Lemma length_join_prefix (g rest : list str) :
  length (join [SP] g) <= length (join [SP] (g ++ rest)).
Proof.
  destruct g as [|a g]; [simpl; lia|].
  destruct rest as [|r rest]; [by rewrite app_nil_r|].
  rewrite join_app by done. rewrite length_app. lia.
Qed.

Lemma wrap_loop_fits (cap : Z) (g0 rest : list str) :
  g0 ≠ [] → fits cap (join [SP] (g0 ++ rest)) →
  wrap_loop cap [] (join [SP] g0) rest = [join [SP] (g0 ++ rest)].
Proof.
  revert g0. induction rest as [|word rest IH]; intros g0 Hne Hfit.
  - simpl. by rewrite app_nil_r.
  - cbn [wrap_loop]. rewrite <- join_snoc by done.
    rewrite (cons_middle word g0 rest), app_assoc in Hfit |- *.
    assert ((Z.of_nat (length (join [SP] (g0 ++ [word]))) <=? cap)%Z = true) as ->.
    { apply Z.leb_le. unfold fits in Hfit.
      pose proof (length_join_prefix (g0 ++ [word]) rest). lia. }
    apply IH; [by destruct g0|done].
Qed.

Lemma wrap_loop_forced (cap : Z) (g0 rest : list str) :
  g0 ≠ [] →
  ∃ groups more tl,
    groups = (g0 ++ more) :: tl
    ∧ concat groups = g0 ++ rest
    ∧ wrap_loop cap [] (join [SP] g0) rest = map (join [SP]) groups
    ∧ Forall (λ g, g ≠ []) groups
    ∧ breaks_forced cap groups.
Proof.
  revert g0. induction rest as [|word rest IH]; intros g0 Hne.
  - exists [g0], [], []. rewrite !app_nil_r. simpl. rewrite app_nil_r.
    repeat split; by repeat constructor.
  - cbn [wrap_loop]. destruct (_ <=? _)%Z eqn:Hle.
    + rewrite <- join_snoc by done.
      destruct (IH (g0 ++ [word])) as (groups & more & tl & -> & Hcat & Hwrap & Hnes & Hf);
        [by destruct g0|].
      exists ((g0 ++ word :: more) :: tl), (word :: more), tl.
      rewrite <- !app_assoc in *. simpl in *. by rewrite Hwrap.
    + destruct (IH [word]) as (groups & more & tl & -> & Hcat & Hwrap & Hnes & Hf);
        [done|].
      exists (g0 :: ([word] ++ more) :: tl), [], (([word] ++ more) :: tl).
      rewrite app_nil_r. split; [done|]. split.
      { cbn [concat] in *. by rewrite Hcat. }
      split.
      { rewrite wrap_loop_lines. simpl in Hwrap. by rewrite Hwrap. }
      split; [by constructor|].
      cbn [breaks_forced]. split; [|done].
      intros w [= <-]. apply Z.leb_gt in Hle. lia.
Qed.

End wrap_more_facts.

(** X6.  [wrap_text] never returns an empty line, never returns more lines
    than the text has words, and returns no line exactly when the text has
    no word. *)
Theorem wrap_text_line_count (text : str) (width : Q) (font : str) (size : Q)
    (lines : list str) :
  wrap_text text width font size = Some lines →
  Forall (λ line, line ≠ []) lines
  ∧ length lines <= length (split text)
  ∧ (lines = [] ↔ split text = []).
Proof.
  intros (groups & Hcat & -> & Hok)%wrap_text_groups.
  pose proof (groups_words groups text Hcat) as Hwords.
  pose proof (group_ok_nonempty _ _ Hok) as Hne. clear Hok.
  rewrite <- Hcat, length_map. clear Hcat. split; [|split].
  - induction Hwords as [|g groups Hg _ IH]; [constructor|].
    inversion Hne; subst. simpl. constructor; [by apply join_nonempty|by apply IH].
  - clear Hwords. induction Hne as [|g groups Hg _ IH]; [done|].
    simpl. rewrite length_app. destruct g; [done|]. simpl. lia.
  - destruct Hne as [|g groups Hg _]; [done|]. simpl. split; [done|].
    intros [Hnil _]%app_eq_nil. done.
Qed.

Lemma wrap_text_line_count_witness :
  wrap_text (lit "hello world foo bar extraordinarily baz") 50 (lit "F1") 11
  = Some [lit "hello"; lit "world"; lit "foo bar"; lit "extraordinarily"; lit "baz"]
  ∧ Forall (λ line, line ≠ [])
      [lit "hello"; lit "world"; lit "foo bar"; lit "extraordinarily"; lit "baz"]
  ∧ length [lit "hello"; lit "world"; lit "foo bar"; lit "extraordinarily"; lit "baz"]
    <= length (split (lit "hello world foo bar extraordinarily baz"))
  ∧ ([lit "hello"; lit "world"; lit "foo bar"; lit "extraordinarily"; lit "baz"] = []
     ↔ split (lit "hello world foo bar extraordinarily baz") = []).
Proof.
  split; [reflexivity|].
  apply (wrap_text_line_count (lit "hello world foo bar extraordinarily baz")
           50 (lit "F1") 11). reflexivity.
Defined.

Section canvas_facts.

Local Open Scope Q_scope.

Lemma draw_on_append (r : nat) (cmd : Command) (cmds : list Command)
    (g : GuideComposer) :
  r = current g →
  draw_on r cmd (append_cmds cmds g) = append_cmds (cmds ++ [cmd]) g.
Proof. intros ->. apply (append_cmds_app cmds [cmd]). Qed.

Lemma add_cover_page_trace (today : str) (g : GuideComposer) :
  add_cover_page today g = append_cmds (cover_commands today) g.
Proof.
  unfold add_cover_page. cbv zeta.
  change (draw_on (current g) ?c g) with (append_cmds [c] g).
  rewrite !draw_on_append by reflexivity.
  reflexivity.
Qed.

Lemma append_on_new_page (cmds : list Command) (g : GuideComposer) :
  heap (append_cmds cmds (new_page g))
  = heap g ++ [chrome_commands (page_num g + 1) ++ cmds].
Proof.
  rewrite new_page_spec. unfold append_cmds. simpl.
  rewrite alter_app_r_alt by done. by rewrite Nat.sub_diag.
Qed.

(** Every public call draws on the current canvas or on one new page. *)
Lemma call_shape (c : Call) (g g' : GuideComposer) :
  call c g = Some g' →
  ∃ more, draws_on_current more g g' ∨ draws_on_new_page more g g'.
Proof.
  destruct (needed_height c) as [needed|] eqn:Hneeded.
  - rewrite (block_call_trace c g needed Hneeded).
    destruct (block_trace c _) as [[cmds v]|]; simpl; [|done].
    intros [= <-]. exists cmds.
    destruct (ensure_space_cases needed g) as [[_ ->]|[_ ->]].
    + right. split; [apply append_on_new_page|]. by rewrite new_page_spec.
    + by left.
  - destruct c as [|text|text|text style|text|lines|amount|today];
      cbn [call needed_height] in *; try discriminate.
    + intros [= <-]. exists []. right. unfold draws_on_new_page.
      rewrite app_nil_r. by rewrite new_page_spec.
    + unfold add_paragraph.
      destruct (wrap_text text _ _ _); [discriminate|]. intros [=].
    + unfold add_bullet.
      destruct (wrap_text text _ _ _); [discriminate|]. intros [=].
    + intros [= <-]. exists []. left. unfold draws_on_current, add_spacer, set_y.
      cbn [heap pages current page_num]. repeat split.
      symmetry. apply list_alter_id. intros x. apply app_nil_r.
    + intros [= <-]. exists (cover_commands today). left.
      rewrite add_cover_page_trace. by unfold draws_on_current.
Qed.

Lemma call_heap (c : Call) (g g' : GuideComposer) :
  call c g = Some g' →
  (current g < length (heap g))%nat →
  (length (heap g) <= length (heap g'))%nat
  ∧ (current g' < length (heap g'))%nat
  ∧ (current g' = current g ∨ (length (heap g) <= current g')%nat)
  ∧ ∀ r canvas, heap g !! r = Some canvas →
      ∃ more, heap g' !! r = Some (canvas ++ more) ∧ (r ≠ current g → more = []).
Proof.
  intros [more [(Hh & _ & Hc & _)|(Hh & _ & Hc & _)]]%call_shape Hvalid.
  - rewrite Hh, Hc, length_alter. repeat split; [done|done|by left|].
    intros r canvas Hr. destruct (decide (r = current g)) as [->|Hne].
    + exists more. rewrite list_lookup_alter_eq. unfold PageCanvas in *.
      by rewrite Hr.
    + exists []. rewrite list_lookup_alter_ne by done. by rewrite app_nil_r.
  - rewrite Hh, Hc, length_app. simpl. repeat split; [lia|lia|by right|].
    intros r canvas Hr. exists []. rewrite app_nil_r.
    split; [|done]. by apply lookup_app_l_Some.
Qed.

End canvas_facts.

Section numbering_facts.

Lemma call_numbered (c : Call) (g g' : GuideComposer) :
  call c g = Some g' →
  pages g = seq 0 (length (heap g)) →
  page_num g = length (heap g) →
  (∀ i canvas, heap g !! S i = Some canvas →
     chrome_commands (S (S i)) `prefix_of` canvas) →
  pages g' = seq 0 (length (heap g'))
  ∧ page_num g' = length (heap g')
  ∧ (∀ i canvas, heap g' !! S i = Some canvas →
       chrome_commands (S (S i)) `prefix_of` canvas).
Proof.
  intros [more [(Hh & Hp & Hc & Hn)|(Hh & Hp & Hc & Hn)]]%call_shape Hpages Hnum Hchrome.
  - rewrite Hh, Hp, Hn, length_alter. repeat split; [done..|].
    intros i canvas. rewrite list_lookup_alter. unfold PageCanvas in *.
    destruct (decide (current g = S i)) as [->|_]; [|by apply Hchrome].
    destruct (_ !! S i) as [canvas0|] eqn:Hi; simpl; [|discriminate].
    intros [= <-]. apply prefix_app_r. by apply Hchrome.
  - rewrite Hh, Hp, Hn, length_app, Hpages. simpl length.
    repeat split; [by rewrite seq_app|lia|].
    intros i canvas Hi. destruct (decide (S i < length (heap g))) as [Hlt|Hge].
    + rewrite lookup_app_l in Hi by done. by apply Hchrome.
    + assert (S i = length (heap g)) as Heq.
      { apply lookup_lt_Some in Hi. rewrite length_app in Hi. simpl in Hi.
        unfold PageCanvas in *. lia. }
      rewrite list_lookup_middle in Hi by done. injection Hi as <-.
      replace (page_num g + 1) with (S (S i)) by (unfold PageCanvas in *; lia).
      by exists more.
Qed.

End numbering_facts.

(** X7.  The drawing log is append-only: whatever public calls follow, the
    commands a canvas holds stay where they are, in order, and only new
    commands come after them; and a canvas other than the current one is
    never drawn on again. *)
Theorem drawn_commands_are_kept (cs : list Call) (g g' : GuideComposer) (r : nat)
    (canvas : PageCanvas) :
  run cs g = Some g' →
  current g < length (heap g) →
  heap g !! r = Some canvas →
  ∃ more, heap g' !! r = Some (canvas ++ more) ∧ (r ≠ current g → more = []).
Proof.
  revert g canvas. induction cs as [|c cs IH]; intros g canvas Hrun Hvalid Hr.
  - injection Hrun as <-. exists []. by rewrite app_nil_r.
  - simpl in Hrun. destruct (call c g) as [g1|] eqn:Hcall; [|done]. simpl in Hrun.
    destruct (call_heap c g g1 Hcall Hvalid) as (Hlen & Hvalid1 & Hcur & Hkeep).
    destruct (Hkeep r canvas Hr) as (m1 & Hr1 & Hm1).
    destruct (IH g1 (canvas ++ m1) Hrun Hvalid1 Hr1) as (m2 & Hr2 & Hm2).
    exists (m1 ++ m2). rewrite app_assoc. split; [done|].
    intros Hne. rewrite (Hm1 Hne), Hm2; [done|].
    apply lookup_lt_Some in Hr. destruct Hcur as [->|Hge]; [done|lia].
Qed.

Lemma drawn_commands_are_kept_witness :
  run [AddH2 (lit "Setup"); NewPage; AddH1 (lit "Troubleshooting")]
      (add_h1 (lit "Start") init)
  = Some (add_h1 (lit "Troubleshooting")
            (new_page (add_h2 (lit "Setup") (add_h1 (lit "Start") init))))
  ∧ current (add_h1 (lit "Start") init) < length (heap (add_h1 (lit "Start") init))
  ∧ heap (add_h1 (lit "Start") init) !! 0
    = Some [Text MARGIN (PAGE_HEIGHT - 96) (lit "Start") h1_style]
  ∧ ∃ more,
      heap (add_h1 (lit "Troubleshooting")
              (new_page (add_h2 (lit "Setup") (add_h1 (lit "Start") init)))) !! 0
      = Some ([Text MARGIN (PAGE_HEIGHT - 96) (lit "Start") h1_style] ++ more)
      ∧ (0 ≠ current (add_h1 (lit "Start") init) → more = []).
Proof.
  split; [reflexivity|]. split; [simpl; lia|]. split; [reflexivity|].
  apply (drawn_commands_are_kept
           [AddH2 (lit "Setup"); NewPage; AddH1 (lit "Troubleshooting")]
           (add_h1 (lit "Start") init)); [reflexivity | simpl; lia | reflexivity].
Defined.

(** X8.  In every state reached from a new composer by public calls, the
    page list holds every allocated canvas exactly once, in the order of
    allocation, the page counter is their number, and every page but the
    first starts with the page chrome whose label carries the position of
    the page in the list: the k-th page says [Page k]. *)
Theorem page_labels_match_positions (cs : list Call) (g : GuideComposer) :
  run cs init = Some g →
  pages g = seq 0 (length (heap g))
  ∧ page_num g = length (heap g)
  ∧ (∀ i canvas, heap g !! S i = Some canvas →
       chrome_commands (S (S i)) `prefix_of` canvas).
Proof.
  assert (∀ g0, pages g0 = seq 0 (length (heap g0)) →
            page_num g0 = length (heap g0) →
            (∀ i canvas, heap g0 !! S i = Some canvas →
               chrome_commands (S (S i)) `prefix_of` canvas) →
            run cs g0 = Some g →
            pages g = seq 0 (length (heap g))
            ∧ page_num g = length (heap g)
            ∧ (∀ i canvas, heap g !! S i = Some canvas →
                 chrome_commands (S (S i)) `prefix_of` canvas)) as Hgen.
  { induction cs as [|c cs IH]; intros g0 Hp Hn Hc Hrun.
    - by injection Hrun as <-.
    - simpl in Hrun. destruct (call c g0) as [g1|] eqn:Hcall; [|done].
      destruct (call_numbered c g0 g1 Hcall Hp Hn Hc) as (Hp1 & Hn1 & Hc1).
      by apply (IH g1). }
  apply Hgen; [done|done|]. intros i canvas Hi. by destruct i.
Qed.

Lemma page_labels_match_positions_witness :
  run [AddCoverPage (lit "2026-01-01"); NewPage; AddH1 (lit "Start"); NewPage] init
  = Some (new_page (add_h1 (lit "Start")
            (new_page (add_cover_page (lit "2026-01-01") init))))
  ∧ pages (new_page (add_h1 (lit "Start")
            (new_page (add_cover_page (lit "2026-01-01") init))))
    = seq 0 (length (heap (new_page (add_h1 (lit "Start")
            (new_page (add_cover_page (lit "2026-01-01") init))))))
  ∧ page_num (new_page (add_h1 (lit "Start")
            (new_page (add_cover_page (lit "2026-01-01") init))))
    = length (heap (new_page (add_h1 (lit "Start")
            (new_page (add_cover_page (lit "2026-01-01") init)))))
  ∧ (∀ i canvas,
       heap (new_page (add_h1 (lit "Start")
            (new_page (add_cover_page (lit "2026-01-01") init)))) !! S i = Some canvas →
       chrome_commands (S (S i)) `prefix_of` canvas).
Proof.
  split; [reflexivity|].
  apply (page_labels_match_positions
           [AddCoverPage (lit "2026-01-01"); NewPage; AddH1 (lit "Start"); NewPage]).
  reflexivity.
Defined.

Local Open Scope Q_scope.

(** X10.  For a height of more than 636 the space check can never be
    satisfied: even on a page that was just started it starts another one,
    so the page before holds the chrome and nothing else. *)
Theorem ensure_space_too_tall (needed : Q) (g : GuideComposer) :
  PAGE_HEIGHT - 84 - 72 < needed →
  ensure_space needed (new_page g) = new_page (new_page g)
  ∧ heap (ensure_space needed (new_page g))
    = heap g ++ [chrome_commands (page_num g + 1);
                 chrome_commands (page_num g + 1 + 1)].
Proof.
  intros Htall.
  assert (ensure_space needed (new_page g) = new_page (new_page g)) as ->.
  { unfold ensure_space.
    assert (Qltb (y (new_page g) - needed) 72 = true) as ->; [|done].
    apply Qltb_lt. rewrite new_page_spec. simpl. unfold PAGE_HEIGHT in *. lra. }
  split; [done|]. rewrite !new_page_spec. simpl. by rewrite <- app_assoc.
Qed.

Lemma ensure_space_too_tall_witness :
  PAGE_HEIGHT - 84 - 72 < 804
  ∧ ensure_space 804 (new_page init) = new_page (new_page init)
  ∧ heap (ensure_space 804 (new_page init))
    = heap init ++ [chrome_commands (page_num init + 1);
                    chrome_commands (page_num init + 1 + 1)].
Proof.
  split; [by vm_compute|].
  apply (ensure_space_too_tall 804 init). by vm_compute.
Defined.


(** X12.  In the loop of [add_code_block] a blank line draws nothing and
    does not move [y_cursor]: the loop over the lines with a blank line among
    them ends in the same state as the loop over the lines without it, so a
    blank line leaves no vertical gap between the lines around it (the
    rectangle, sized by [len(lines)], is one line higher all the same). *)
Theorem code_block_blank_line (l1 l2 : list str) (blank : str) (yc : Q)
    (g : GuideComposer) :
  forallb is_space blank = true →
  code_loop (l1 ++ blank :: l2) yc g = code_loop (l1 ++ l2) yc g.
Proof.
  intros Hblank. revert yc g. induction l1 as [|line l1 IH]; intros yc g.
  - cbn [app code_loop]. unfold wrap_text at 1.
    by rewrite split_strip, split_blank.
  - cbn [app code_loop]. destruct (wrap_text line _ _ _) as [wrapped|]; [|done].
    simpl. destruct (subline_loop wrapped yc g) as [yc' g']. apply IH.
Qed.

Lemma code_block_blank_line_witness :
  forallb is_space (lit "  ") = true
  ∧ code_loop ([lit "npm install"] ++ lit "  " :: [lit "npm start"]) 600 init
    = code_loop ([lit "npm install"] ++ [lit "npm start"]) 600 init.
Proof.
  split; [reflexivity|].
  apply (code_block_blank_line [lit "npm install"] [lit "npm start"] (lit "  ")).
  reflexivity.
Defined.

Local Close Scope Q_scope.

Section read_back_facts.

Lemma starts_with_app (p l : bytes) : starts_with p (p ++ l) = true.
Proof.
  induction p as [|c p IH]; [done|]. simpl.
  assert (Byte.eqb c c = true) as -> by by apply Byte.byte_dec_lb.
  exact IH.
Qed.

Lemma stream_obj_read_tail (content tail : bytes) :
  declared_length (stream_obj content ++ tail) = Some (length content)
  ∧ after_stream_marker (stream_obj content ++ tail)
    = content ++ b "endstream" ++ tail.
Proof.
  unfold declared_length, after_stream_marker, stream_obj, NL.
  rewrite <- !app_assoc.
  change (drop 11 (b "<< /Length " ++ ?r)) with r.
  change (b " >>" ++ ?r) with (x20 :: (b ">>" ++ r)).
  rewrite first_field_digits by apply dec_digits.
  split; [apply parse_dec_dec|].
  rewrite <- Nat.add_assoc. rewrite <- drop_drop.
  change (drop 11 (b "<< /Length " ++ ?r)) with r.
  rewrite <- drop_drop, drop_app_length. reflexivity.
Qed.

(** Where the object [id] stands in the output. *)
Lemma object_at_offset (streams : list bytes) (id : nat) :
  1 ≤ id ≤ 2 * length streams + 5 →
  ∃ objects obj off rest,
    build_objects streams = Some objects
    ∧ build_pdf_locals streams
      = Some {| objects_of := objects;
                offsets_of := 0 :: offsets_from (length pdf_header) 1 objects;
                xref_start_of := length (pdf_header ++ body 1 objects);
                out_of := (pdf_header ++ body 1 objects)
                          ++ xref_section (4 + length streams + length streams + 1)
                               (4 + length streams + length streams + 1)
                               (length (pdf_header ++ body 1 objects))
                               (offsets_from (length pdf_header) 1 objects) |}
    ∧ objects !! (id - 1) = Some obj
    ∧ xref_offset
        ((pdf_header ++ body 1 objects)
         ++ xref_section (4 + length streams + length streams + 1)
              (4 + length streams + length streams + 1)
              (length (pdf_header ++ body 1 objects))
              (offsets_from (length pdf_header) 1 objects))
        (length (pdf_header ++ body 1 objects)) id = Some off
    ∧ drop off
        ((pdf_header ++ body 1 objects)
         ++ xref_section (4 + length streams + length streams + 1)
              (4 + length streams + length streams + 1)
              (length (pdf_header ++ body 1 objects))
              (offsets_from (length pdf_header) 1 objects))
      = obj_header id ++ obj ++ endobj ++ rest.
Proof.
  intros Hid.
  destruct (build_pdf_locals_closed streams) as (objects & Hobjs & Hlen & Hbuilt).
  destruct (lookup_lt_is_Some_2 objects (id - 1)) as [obj Hobj]; [lia|].
  set (off := length pdf_header + length (body 1 (take (id - 1) objects))).
  assert (offsets_from (length pdf_header) 1 objects !! (id - 1) = Some off) as Hoff.
  { apply offsets_from_lookup. lia. }
  pose proof (body_split objects (id - 1) obj Hobj) as Hbody.
  replace (S (id - 1)) with id in Hbody by lia.
  eexists objects, obj, off, _. split; [done|]. split; [exact Hbuilt|].
  split; [done|]. split; [apply xref_offset_read; [lia|done]|].
  rewrite Hbody at 1.
  assert (off = length (pdf_header ++ body 1 (take (id - 1) objects))) as ->
    by by rewrite length_app.
  rewrite <- !app_assoc.
  rewrite (app_assoc pdf_header (body 1 (take (id - 1) objects))).
  rewrite drop_app_length. unfold emit. rewrite <- !app_assoc. reflexivity.
Qed.

Lemma emit_nonempty (obj_id : nat) (obj : bytes) :
  0 < length (obj_header obj_id ++ obj ++ endobj).
Proof.
  rewrite !length_app. unfold endobj, NL. rewrite !length_app.
  cbn [length b]. change (length (b "endobj")) with 6. lia.
Qed.

Lemma offsets_from_bounds (objects : list bytes) (pos obj_id j c : nat) :
  offsets_from pos obj_id objects !! j = Some c →
  pos <= c ∧ c < pos + length (body obj_id objects).
Proof.
  revert pos obj_id j.
  induction objects as [|obj rest IH]; intros pos obj_id j Hj; [done|].
  cbn [offsets_from body] in *. unfold emit. rewrite length_app.
  pose proof (emit_nonempty obj_id obj) as Hpos.
  destruct j as [|j].
  - apply (inj Some) in Hj as <-. lia.
  - apply IH in Hj. lia.
Qed.

Lemma offsets_from_increasing (objects : list bytes) (pos obj_id i j a c : nat) :
  i < j →
  offsets_from pos obj_id objects !! i = Some a →
  offsets_from pos obj_id objects !! j = Some c →
  pos <= a ∧ a < c ∧ c < pos + length (body obj_id objects).
Proof.
  revert pos obj_id i j.
  induction objects as [|obj rest IH]; intros pos obj_id i j Hij Hi Hj; [done|].
  cbn [offsets_from body] in *. unfold emit. rewrite length_app.
  pose proof (emit_nonempty obj_id obj) as Hpos.
  destruct j as [|j]; [lia|].
  destruct i as [|i].
  - apply (inj Some) in Hi as <-. apply offsets_from_bounds in Hj. lia.
  - destruct (IH _ _ i j ltac:(lia) Hi Hj) as (Ha1 & Ha2 & Ha3). lia.
Qed.

End read_back_facts.

(** X13.  Every page buffer can be read back from the file [build_pdf]
    writes: following the cross-reference entry of the content object of
    page [i] (object [4 + i]), the object header stands at the recorded
    offset, and the [/Length] bytes after the [stream] marker are the buffer
    of page [i], followed by [endstream], for arbitrary buffer contents. *)
Theorem build_pdf_streams_read_back (streams : list bytes) (i : nat) (content : bytes) :
  streams !! i = Some content →
  ∃ built,
    build_pdf_locals streams = Some built
    ∧ read_stream (out_of built) (xref_start_of built) (4 + i) = Some content.
Proof.
  intros Hcontent. pose proof (lookup_lt_Some _ _ _ Hcontent) as Hi.
  destruct (object_at_offset streams (4 + i))
    as (objects & obj & off & rest & Hobjs & Hbuilt & Hobj & Hxref & Hdrop); [lia|].
  eexists. split; [exact Hbuilt|]. cbn [out_of xref_start_of].
  assert (obj = stream_obj content) as ->.
  { rewrite build_objects_closed in Hobjs. apply (inj Some) in Hobjs as <-.
    rewrite lookup_app_r in Hobj by (cbn [length]; lia).
    replace (4 + i - 1 - length [font_regular; font_bold; font_code]) with i
      in Hobj by (cbn [length]; lia).
    rewrite lookup_app_l in Hobj by by rewrite length_map.
    rewrite list_lookup_fmap, Hcontent in Hobj. by injection Hobj as <-. }
  unfold read_stream. rewrite Hxref. cbn [mbind option_bind]. rewrite Hdrop.
  rewrite starts_with_app, drop_app_length.
  destruct (stream_obj_read_tail content (endobj ++ rest)) as [-> ->].
  cbn [mbind option_bind].
  by rewrite drop_app_length, starts_with_app, take_app_length.
Qed.

Lemma build_pdf_streams_read_back_witness :
  [b "AB"; b "q (x) endstream Q"] !! 1 = Some (b "q (x) endstream Q")
  ∧ ∃ built,
      build_pdf_locals [b "AB"; b "q (x) endstream Q"] = Some built
      ∧ read_stream (out_of built) (xref_start_of built) (4 + 1)
        = Some (b "q (x) endstream Q").
Proof.
  split; [reflexivity|].
  apply (build_pdf_streams_read_back [b "AB"; b "q (x) endstream Q"] 1). reflexivity.
Defined.

(** X14.  The offsets [build_pdf] records are strictly increasing in the
    object identifier, start after the placeholder 0 of object 0, and all lie
    before the cross-reference section: no two objects share an offset and
    none points into the table. *)
Theorem build_pdf_offsets_increasing (streams : list bytes) (built : Built)
    (i j oi oj : nat) :
  build_pdf_locals streams = Some built →
  i < j →
  offsets_of built !! i = Some oi →
  offsets_of built !! j = Some oj →
  oi < oj ∧ oj < xref_start_of built.
Proof.
  destruct (build_pdf_locals_closed streams) as (objects & _ & _ & ->).
  intros Hbuilt Hij Hi Hj. apply (inj Some) in Hbuilt as <-.
  cbn [offsets_of xref_start_of] in *. rewrite length_app.
  destruct j as [|j]; [lia|].
  destruct i as [|i].
  - apply (inj Some) in Hi as <-. apply offsets_from_bounds in Hj.
    assert (0 < length pdf_header) by (vm_compute; lia). lia.
  - destruct (offsets_from_increasing _ _ _ i j oi oj ltac:(lia) Hi Hj)
      as (_ & H1 & H2). lia.
Qed.

Lemma build_pdf_offsets_increasing_witness :
  ∃ built,
    build_pdf_locals [b "AB"; b "hello"] = Some built
    ∧ 2 < 5
    ∧ offsets_of built !! 2 = Some 85
    ∧ offsets_of built !! 5 = Some 278
    ∧ 85 < 278 ∧ 278 < xref_start_of built.
Proof.
  destruct (build_pdf_locals [b "AB"; b "hello"]) as [built|] eqn:Hbuilt;
    [|by vm_compute in Hbuilt].
  exists built. split; [reflexivity|].
  assert (offsets_of built !! 2 = Some 85) as H2.
  { vm_compute in Hbuilt. by injection Hbuilt as <-. }
  assert (offsets_of built !! 5 = Some 278) as H5.
  { vm_compute in Hbuilt. by injection Hbuilt as <-. }
  split; [lia|]. split; [done|]. split; [done|].
  apply (build_pdf_offsets_increasing [b "AB"; b "hello"] built 2 5 85 278);
    [done | lia | done | done].
Defined.

Section xref_width_facts.

Lemma of_uint_acc_bounds (d : Decimal.uint) (acc : nat) :
  acc * 10 ^ Decimal.nb_digits d <= Nat.of_uint_acc d acc
  ∧ Nat.of_uint_acc d acc < (acc + 1) * 10 ^ Decimal.nb_digits d.
Proof.
  revert acc.
  induction d as [|d IH|d IH|d IH|d IH|d IH|d IH|d IH|d IH|d IH|d IH]; intros acc;
    cbn [Nat.of_uint_acc Decimal.nb_digits];
    [rewrite Nat.pow_0_r; lia|..];
    rewrite Nat.tail_mul_spec, Nat.pow_succ_r';
    match goal with |- context [Nat.of_uint_acc d ?a] => specialize (IH a) end;
    generalize dependent (10 ^ Decimal.nb_digits d); intros P IH; nia.
Qed.

Lemma to_uint_normal (n : nat) : Decimal.unorm (Nat.to_uint n) = Nat.to_uint n.
Proof. by rewrite <- Unsigned.to_of, Unsigned.of_to. Qed.

Lemma leading_zero_normal (d : Decimal.uint) :
  Decimal.unorm (Decimal.D0 d) = Decimal.D0 d → d = Decimal.Nil.
Proof.
  intros H.
  assert (d = Decimal.Nil ∨ d ≠ Decimal.Nil) as [|Hd]
    by (destruct d; [by left|by right..]); [done|].
  pose proof (nb_digits_unorm d Hd) as Hle.
  change (Decimal.unorm (Decimal.D0 d)) with (Decimal.unorm d) in H.
  rewrite H in Hle. cbn [Decimal.nb_digits] in Hle. lia.
Qed.

(** A number below [10 ^ k] has at most [k] digits, and only such a number. *)
Lemma nb_digits_to_uint (n k : nat) :
  1 <= k → Decimal.nb_digits (Nat.to_uint n) <= k ↔ n < 10 ^ k.
Proof.
  intros Hk. pose proof (Unsigned.of_to n) as Hn.
  pose proof (to_uint_normal n) as Hnorm.
  pose proof (of_uint_acc_bounds (Nat.to_uint n) 0) as [_ Hhi].
  fold (Nat.of_uint (Nat.to_uint n)) in Hhi. rewrite Hn in Hhi.
  split.
  - intros Hle. eapply Nat.lt_le_trans; [exact Hhi|].
    rewrite Nat.add_0_l, Nat.mul_1_l. apply Nat.pow_le_mono_r; lia.
  - intros Hlt. apply Nat.nlt_ge. intros Hgt.
    assert (10 ^ k <= n); [|lia].
    clear Hhi Hlt.
    destruct (Nat.to_uint n) as [|d|d|d|d|d|d|d|d|d|d];
      [cbn in Hgt; lia|apply leading_zero_normal in Hnorm as ->; cbn in Hgt; lia|..].
    all: unfold Nat.of_uint in Hn; cbn [Nat.of_uint_acc Decimal.nb_digits] in *.
    all: rewrite Nat.tail_mul_spec in Hn.
    all: match type of Hn with
         | Nat.of_uint_acc _ ?a = _ =>
             pose proof (of_uint_acc_bounds d a) as [Hlo _]; rewrite Hn in Hlo
         end.
    all: assert (10 ^ k <= 10 ^ Decimal.nb_digits d)
           by (apply Nat.pow_le_mono_r; lia).
    all: generalize dependent (10 ^ Decimal.nb_digits d); intros; nia.
Qed.

Lemma length_b (s : string) : length (b s) = String.length s.
Proof. unfold b. induction s as [|c s IH]; [done|]. simpl. f_equal. exact IH. Qed.

Lemma length_dec (n : nat) : length (dec n) = Decimal.nb_digits (Nat.to_uint n).
Proof.
  unfold dec. rewrite length_b. pose proof (to_uint_nonnil n) as Hn.
  destruct (Nat.to_uint n) as [|d|d|d|d|d|d|d|d|d|d]; [done|..].
  all: cbn [NilZero.string_of_uint NilEmpty.string_of_uint String.length Decimal.nb_digits].
  all: f_equal; clear Hn.
  all: induction d; simpl; congruence.
Qed.

Lemma length_dec010 (n : nat) : length (dec010 n) = 10 `max` length (dec n).
Proof. unfold dec010. rewrite length_app, length_replicate. lia. Qed.

Lemma length_xref_entry (off : nat) :
  length (xref_entry off) = 10 `max` length (dec off) + 10.
Proof.
  unfold xref_entry, NL. rewrite !length_app, length_dec010, length_b. reflexivity.
Qed.

Lemma entries_fixed_width (offs : list nat) (rest : bytes) (i off : nat) :
  Forall (λ o, o < 10 ^ 10) offs →
  offs !! i = Some off →
  take 20 (drop (20 * i) (concat (map xref_entry offs) ++ rest)) = xref_entry off.
Proof.
  intros Hall. revert i.
  induction Hall as [|o offs Ho _ IH]; intros i Hi; [done|].
  assert (length (xref_entry o) = 20) as Hlen.
  { rewrite length_xref_entry, length_dec.
    apply (nb_digits_to_uint o 10) in Ho; lia. }
  cbn [map concat]. rewrite <- app_assoc.
  destruct i as [|i].
  - apply (inj Some) in Hi as ->. rewrite Nat.mul_0_r, drop_0.
    by rewrite <- Hlen, take_app_length.
  - replace (20 * S i) with (length (xref_entry o) + 20 * i) by lia.
    rewrite <- drop_drop, drop_app_length. by apply IH.
Qed.

Lemma xref_section_split (total catalog xs : nat) (offs : list nat) :
  xref_section total catalog xs offs
  = (b "xref" ++ NL ++ b "0 " ++ dec (total + 1) ++ NL)
    ++ (b "0000000000 65535 f " ++ NL)
    ++ concat (map xref_entry offs) ++ trailer total catalog xs.
Proof. unfold xref_section. by rewrite <- !app_assoc. Qed.

End xref_width_facts.

(** X15.  An entry of the cross-reference table, written with
    [f"{off:010d} 00000 n \n"], is exactly 20 bytes long if and only if the
    offset is below [10 ^ 10]: the format pads to ten digits but does not
    cut a longer number. *)
Theorem xref_entry_width (off : nat) :
  length (xref_entry off) = 20 ↔ off < 10 ^ 10.
Proof.
  rewrite length_xref_entry, length_dec, <- (nb_digits_to_uint off 10) by lia. lia.
Qed.

(** X16.  If the cross-reference section starts below [10 ^ 10], the table
    [build_pdf] writes has fixed-width entries: the 20 bytes at position
    [xref_start + len(header lines) + 20 * id] are the entry of object [id],
    the free entry for object 0 and the entry with the recorded offset for
    every other object. *)
Theorem build_pdf_xref_fixed_width (streams : list bytes) (built : Built)
    (id off : nat) :
  build_pdf_locals streams = Some built →
  xref_start_of built < 10 ^ 10 →
  offsets_of built !! id = Some off →
  xref_entry_at (out_of built) (xref_start_of built) (length (objects_of built)) id
  = if decide (id = 0) then b "0000000000 65535 f " ++ NL else xref_entry off.
Proof.
  destruct (build_pdf_locals_closed streams) as (objects & _ & Hlen & ->).
  intros Hbuilt Hsmall Hoff. apply (inj Some) in Hbuilt as <-.
  cbn [offsets_of xref_start_of out_of objects_of] in *.
  unfold xref_entry_at.
  rewrite <- Nat.add_assoc, <- drop_drop, drop_app_length.
  replace (4 + length streams + length streams + 1) with (length objects) by lia.
  rewrite xref_section_split, <- drop_drop, drop_app_length.
  destruct id as [|i].
  - rewrite Nat.mul_0_r, drop_0. rewrite decide_True by done.
    change (take 20 ((b "0000000000 65535 f " ++ NL) ++ ?r))
      with (b "0000000000 65535 f " ++ NL). reflexivity.
  - rewrite decide_False by done. cbn [lookup list_lookup] in Hoff.
    replace (20 * S i) with (length (b "0000000000 65535 f " ++ NL) + 20 * i)
      by (replace (length (b "0000000000 65535 f " ++ NL)) with 20 by reflexivity; lia).
    rewrite <- drop_drop, drop_app_length.
    apply entries_fixed_width; [|done].
    apply Forall_lookup_2. intros j o Ho.
    apply offsets_from_bounds in Ho. rewrite length_app in Hsmall. lia.
Qed.

Lemma build_pdf_xref_fixed_width_witness :
  ∃ built,
    build_pdf_locals [b "AB"; b "hello"] = Some built
    ∧ xref_start_of built < 10 ^ 10
    ∧ offsets_of built !! 2 = Some 85
    ∧ xref_entry_at (out_of built) (xref_start_of built) (length (objects_of built)) 2
      = xref_entry 85.
Proof.
  destruct (build_pdf_locals [b "AB"; b "hello"]) as [built|] eqn:Hbuilt;
    [|by vm_compute in Hbuilt].
  exists built. split; [reflexivity|].
  assert (xref_start_of built < 10 ^ 10) as Hsmall.
  { apply Nat.lt_le_trans with (10 ^ 3); [|apply Nat.pow_le_mono_r; lia].
    vm_compute in Hbuilt. injection Hbuilt as <-. vm_compute. lia. }
  assert (offsets_of built !! 2 = Some 85) as H2.
  { vm_compute in Hbuilt. by injection Hbuilt as <-. }
  split; [done|]. split; [done|].
  apply (build_pdf_xref_fixed_width [b "AB"; b "hello"] built 2 85); done.
Defined.

(** * The program over doubles *)

#[local] Arguments Float64.of_Z : simpl never.
#[local] Arguments Float64.dlit : simpl never.
#[local] Arguments Float64.fadd : simpl never.
#[local] Arguments Float64.fsub : simpl never.
#[local] Arguments Float64.fmul : simpl never.
#[local] Arguments Float64.fltb : simpl never.
#[local] Arguments Float64.py_max : simpl never.

Section float_wrap_facts.

Import Float64.

(** Truncation and floor differ on negative numbers only, where [max(8, _)]
    hides the difference. *)
Lemma f64_int_max_floor (x : float) :
  (n ← py_int x; Some (Z.max 8 n)) = (n ← ffloor x; Some (Z.max 8 n)).
Proof.
  destruct x as [s|s| |s m e]; try done.
  cbn [py_int ffloor mbind option_bind]. f_equal.
  destruct s; cbn [cond_Zopp]; [|done].
  destruct e as [|e|k].
  - rewrite !Z.shiftl_0_r. lia.
  - rewrite !Z.shiftl_mul_pow2 by lia.
    assert (0 < 2 ^ Z.pos e)%Z by (apply Z.pow_pos_nonneg; lia). nia.
  - rewrite !Z.shiftr_div_pow2 by lia.
    assert (0 < 2 ^ Z.pos k)%Z as Hpow by (apply Z.pow_pos_nonneg; lia).
    assert (0 <= Z.pos m / 2 ^ Z.pos k)%Z by (apply Z.div_pos; lia).
    assert (- Z.pos m / 2 ^ Z.pos k < 0)%Z by (apply Z.div_lt_upper_bound; lia).
    lia.
Qed.

Lemma f64_estimate_char_width_spec (font : str) (size : float) :
  estimate_char_width font size = fmul size (spec_factor font).
Proof. unfold estimate_char_width, spec_factor. by repeat case_decide. Qed.

(** The capacity the code computes is the one the specification words. *)
Lemma f64_char_capacity_spec (width : float) (font : str) (size : float) :
  char_capacity width font size = spec_capacity width font size.
Proof.
  unfold char_capacity, spec_capacity. rewrite f64_estimate_char_width_spec.
  destruct (truediv width _) as [q|]; [|done]. apply f64_int_max_floor.
Qed.

(** The lines of [wrap_text] are the joined groups of a cutting of the
    word list into consecutive groups, cut by the computed capacity. *)
Lemma f64_wrap_text_groups (text : str) (width : float) (font : str) (size : float)
    (lines : list str) :
  wrap_text text width font size = Some lines →
  (lines = [] ∧ split text = [])
  ∨ ∃ cap groups,
      char_capacity width font size = Some cap
      ∧ split text ≠ []
      ∧ concat groups = split text
      ∧ lines = map (join [SP]) groups
      ∧ Forall (group_ok cap) groups.
Proof.
  unfold wrap_text. rewrite split_strip.
  destruct (split text) as [|w0 rest] eqn:Hw.
  - intros [= <-]. by left.
  - destruct (char_capacity width font size) as [cap|] eqn:Hcap; simpl; [|done].
    intros [= <-]. right.
    destruct (wrap_loop_groups cap [w0] rest) as (groups & Hcat & Hwrap & Hok).
    { split; [done|]. right. by exists w0. }
    exists cap, groups. by rewrite <- Hwrap.
Qed.

End float_wrap_facts.

(** C4 (as amended).  With [charWidth = size * factor] (0.56 for F2, 0.60
    for F3, 0.53 otherwise) and
    [capacity = max(8, floor(width / charWidth))], the product and the
    quotient being the rounded double operations the code performs, the
    lines returned by [wrap_text] are the space-joined groups of a cutting of
    the input's words into consecutive groups; every line has at most
    [capacity] characters, except a line that is one single word longer than
    [capacity]; and a word longer than [capacity] is alone in its group, so
    it is a line by itself, unmodified. *)
Theorem wrap_text_line_capacity (text : str) (width : Float64.float) (font : str)
    (size : Float64.float) (lines : list str) :
  Float64.wrap_text text width font size = Some lines →
  lines ≠ [] →
  ∃ capacity groups,
    Float64.char_capacity width font size = Some capacity
    ∧ Float64.spec_capacity width font size = Some capacity
    ∧ concat groups = split text
    ∧ lines = map (join [SP]) groups
    ∧ Forall (λ g, fits capacity (join [SP] g)
                   ∨ ∃ w, g = [w] ∧ join [SP] g = w ∧ ¬ fits capacity w) groups
    ∧ Forall (λ g, ∀ w, w ∈ g → ¬ fits capacity w → g = [w]) groups.
Proof.
  intros Hwrap Hne.
  destruct (f64_wrap_text_groups _ _ _ _ _ Hwrap)
    as [[-> _]|(capacity & groups & Hcap & _ & Hcat & Hlines & Hok)]; [done|].
  exists capacity, groups.
  split; [done|]. split; [by rewrite <- f64_char_capacity_spec|].
  split; [done|]. split; [done|]. split.
  - eapply Forall_impl; [exact Hok|]. intros g [_ [Hfit|[w ->]]]; [by left|].
    destruct (decide (Z.of_nat (length w) <= capacity)%Z) as [Hw|Hw].
    + by left.
    + right. by exists w.
  - eapply Forall_impl; [exact Hok|]. intros g [_ [Hfit|[w ->]]] w' Hin Hbig.
    + exfalso. apply Hbig. unfold fits in *.
      pose proof (length_join_elem g w' Hin). lia.
    + by apply list_elem_of_singleton in Hin as ->.
Qed.

Lemma wrap_text_line_capacity_witness :
  Float64.wrap_text (lit "aaaa bbbbb extraordinarily") (Float64.of_Z 56) (lit "F2")
    (Float64.of_Z 10)
  = Some [lit "aaaa"; lit "bbbbb"; lit "extraordinarily"]
  ∧ [lit "aaaa"; lit "bbbbb"; lit "extraordinarily"] ≠ []
  ∧ ∃ capacity groups,
      Float64.char_capacity (Float64.of_Z 56) (lit "F2") (Float64.of_Z 10) = Some capacity
      ∧ Float64.spec_capacity (Float64.of_Z 56) (lit "F2") (Float64.of_Z 10)
        = Some capacity
      ∧ concat groups = split (lit "aaaa bbbbb extraordinarily")
      ∧ [lit "aaaa"; lit "bbbbb"; lit "extraordinarily"] = map (join [SP]) groups
      ∧ Forall (λ g, fits capacity (join [SP] g)
                     ∨ ∃ w, g = [w] ∧ join [SP] g = w ∧ ¬ fits capacity w) groups
      ∧ Forall (λ g, ∀ w, w ∈ g → ¬ fits capacity w → g = [w]) groups.
Proof.
  split; [vm_compute; reflexivity|]. split; [discriminate|].
  apply (wrap_text_line_capacity (lit "aaaa bbbbb extraordinarily") (Float64.of_Z 56)
           (lit "F2") (Float64.of_Z 10)); [vm_compute; reflexivity | discriminate].
Defined.

(** C4, with the capacity taken as the exact quotient, fails: for the width
    5.3999999999999995 (the double below 5.4), font F3 and size 1 the exact
    capacity [max(8, floor(width / (size * 0.60)))] is 8, but the code
    divides in doubles, gets 9.0, and returns the two words [aaaa bbbb] on
    one line of 9 characters. *)
Lemma wrap_text_exceeds_exact_capacity :
  ∃ w s : Q,
    Float64.value (S754_finite false 6079859496950169 (-50)) = Some w
    ∧ Float64.value (Float64.of_Z 1) = Some s
    ∧ Float64.wrap_text (lit "aaaa bbbb") (S754_finite false 6079859496950169 (-50))
        (lit "F3") (Float64.of_Z 1)
      = Some [lit "aaaa bbbb"]
    ∧ split (lit "aaaa bbbb") = [lit "aaaa"; lit "bbbb"]
    ∧ spec_capacity w (lit "F3") s = 8%Z
    ∧ ¬ fits (spec_capacity w (lit "F3") s) (lit "aaaa bbbb").
Proof.
  eexists _, _. split; [reflexivity|]. split; [reflexivity|].
  split; [vm_compute; reflexivity|]. split; [vm_compute; reflexivity|].
  split; [vm_compute; reflexivity|].
  vm_compute. intros H. apply H. reflexivity.
Qed.

(** X5.  A text whose words, joined by single spaces, fit the capacity the
    code computes is wrapped into that one line. *)
Theorem wrap_text_single_line (text : str) (width : Float64.float) (font : str)
    (size : Float64.float) (capacity : Z) :
  Float64.char_capacity width font size = Some capacity →
  split text ≠ [] →
  fits capacity (join [SP] (split text)) →
  Float64.wrap_text text width font size = Some [join [SP] (split text)].
Proof.
  intros Hcap Hne Hfit. unfold Float64.wrap_text. rewrite split_strip.
  destruct (split text) as [|w0 rest]; [done|].
  rewrite Hcap. cbn [mbind option_bind]. f_equal.
  by apply (wrap_loop_fits _ [w0] rest).
Qed.

Lemma wrap_text_single_line_witness :
  Float64.char_capacity (Float64.of_Z 56) (lit "F2") (Float64.of_Z 10) = Some 9%Z
  ∧ split (lit " aaaa   bbbb ") ≠ []
  ∧ fits 9 (join [SP] (split (lit " aaaa   bbbb ")))
  ∧ Float64.wrap_text (lit " aaaa   bbbb ") (Float64.of_Z 56) (lit "F2") (Float64.of_Z 10)
    = Some [join [SP] (split (lit " aaaa   bbbb "))].
Proof.
  split; [vm_compute; reflexivity|]. split; [by vm_compute|]. split; [by vm_compute|].
  apply (wrap_text_single_line (lit " aaaa   bbbb ") (Float64.of_Z 56) (lit "F2")
           (Float64.of_Z 10) 9); [vm_compute; reflexivity | by vm_compute | by vm_compute].
Defined.

(** X4.  The wrapping is greedy: wherever [wrap_text] breaks between two
    consecutive lines, the first word of the second line would not have fit
    at the end of the first one within the capacity the code computes. *)
Theorem wrap_text_breaks_forced (text : str) (width : Float64.float) (font : str)
    (size : Float64.float) (capacity : Z) (lines : list str) (i : nat)
    (l1 l2 w : str) (ws : list str) :
  Float64.wrap_text text width font size = Some lines →
  Float64.char_capacity width font size = Some capacity →
  lines !! i = Some l1 → lines !! S i = Some l2 →
  split l2 = w :: ws →
  ¬ fits capacity (l1 ++ [SP] ++ w).
Proof.
  unfold Float64.wrap_text. rewrite split_strip.
  destruct (split text) as [|w0 rest] eqn:Hsplit; [by intros [= <-]|].
  intros Hwrap Hcap. rewrite Hcap in Hwrap. cbn [mbind option_bind] in Hwrap.
  apply (inj Some) in Hwrap as <-.
  destruct (wrap_loop_forced capacity [w0] rest)
    as (groups & more & tl & _ & Hcat & Hwrap & _ & Hforced); [done|].
  simpl in Hwrap. rewrite Hwrap. clear Hwrap.
  assert (Forall (Forall is_word) groups) as Hwords.
  { apply (groups_words groups text). by rewrite Hsplit. }
  clear Hcat Hsplit. revert i.
  induction Hwords as [|g1 groups Hg1 Hgs IH]; intros i; [done|].
  destruct groups as [|g2 groups]; [by destruct i|].
  cbn [breaks_forced] in Hforced. destruct Hforced as [Hhere Hrest].
  destruct i as [|i].
  - simpl. intros [= <-] [= <-] Hl2. apply Hhere.
    inversion Hgs; subst. rewrite split_join in Hl2 by done. by rewrite Hl2.
  - intros Hi HSi. by apply (IH Hrest i).
Qed.

Lemma wrap_text_breaks_forced_witness :
  Float64.wrap_text (lit "aaaa bbbbb") (Float64.of_Z 56) (lit "F2") (Float64.of_Z 10)
  = Some [lit "aaaa"; lit "bbbbb"]
  ∧ Float64.char_capacity (Float64.of_Z 56) (lit "F2") (Float64.of_Z 10) = Some 9%Z
  ∧ ¬ fits 9 (lit "aaaa" ++ [SP] ++ lit "bbbbb").
Proof.
  split; [vm_compute; reflexivity|]. split; [vm_compute; reflexivity|].
  apply (wrap_text_breaks_forced (lit "aaaa bbbbb") (Float64.of_Z 56) (lit "F2")
           (Float64.of_Z 10) 9 [lit "aaaa"; lit "bbbbb"] 0 (lit "aaaa") (lit "bbbbb")
           (lit "bbbbb") []); vm_compute; reflexivity.
Defined.

Section float_composer_facts.

Import Float64.

Lemma f64_append_cmds_nil (g : GuideComposer) : append_cmds [] g = g.
Proof.
  destruct g as [h ps cur y0 n]. unfold append_cmds; cbn [heap pages current y page_num].
  f_equal. apply list_alter_id. intros c. apply app_nil_r.
Qed.

Lemma f64_append_cmds_app (c1 c2 : list Command) (g : GuideComposer) :
  append_cmds c2 (append_cmds c1 g) = append_cmds (c1 ++ c2) g.
Proof.
  unfold append_cmds; cbn [heap pages current y page_num]. f_equal.
  rewrite list_alter_alter_eq. apply list_alter_ext; [|done].
  intros c _. cbn. by rewrite app_assoc.
Qed.

Lemma f64_append_cmds_cons (cmd : Command) (cmds : list Command) (g : GuideComposer) :
  append_cmds cmds (draw cmd g) = append_cmds (cmd :: cmds) g.
Proof. apply (f64_append_cmds_app [cmd] cmds). Qed.

Lemma f64_append_set_y (cmds : list Command) (v : float) (g : GuideComposer) :
  append_cmds cmds (set_y v g) = set_y v (append_cmds cmds g).
Proof. done. Qed.

Lemma f64_set_y_set_y (v w : float) (g : GuideComposer) :
  set_y v (set_y w g) = set_y v g.
Proof. done. Qed.

Lemma f64_paragraph_loop_trace (style : BlockStyle) (lines : list str)
    (g : GuideComposer) :
  paragraph_loop style lines g
  = set_y (paragraph_trace style (y g) lines).2
      (append_cmds (paragraph_trace style (y g) lines).1 g).
Proof.
  revert g. induction lines as [|line rest IH]; intros g.
  - cbn [paragraph_loop paragraph_trace fst snd]. rewrite f64_append_cmds_nil.
    by destruct g.
  - cbn [paragraph_loop paragraph_trace]. rewrite IH.
    change (y (set_y ?v _)) with v. change (y (draw _ ?g0)) with (y g0).
    destruct (paragraph_trace style (fsub (y g) (leading style)) rest) as [cmds y1].
    cbn [fst snd]. by rewrite f64_append_set_y, f64_set_y_set_y, f64_append_cmds_cons.
Qed.

Lemma f64_bullet_loop_trace (n i : nat) (lines : list str) (g : GuideComposer) :
  bullet_loop n i lines g
  = set_y (bullet_trace n i (y g) lines).2
      (append_cmds (bullet_trace n i (y g) lines).1 g).
Proof.
  revert i g. induction lines as [|line rest IH]; intros i g.
  - cbn [bullet_loop bullet_trace fst snd]. rewrite f64_append_cmds_nil.
    by destruct g.
  - cbn [bullet_loop bullet_trace]. rewrite IH.
    destruct (i <? n - 1)%nat.
    + change (y (set_y ?v _)) with v. change (y (draw _ ?g0)) with (y g0).
      destruct (bullet_trace n (S i) _ rest) as [cmds y1]. cbn [fst snd].
      by rewrite f64_append_set_y, f64_set_y_set_y, f64_append_cmds_cons.
    + change (y (draw _ ?g0)) with (y g0).
      destruct (bullet_trace n (S i) _ rest) as [cmds y1]. cbn [fst snd].
      by rewrite f64_append_cmds_cons.
Qed.

Lemma f64_subline_loop_trace (wrapped : list str) (yc : float) (g : GuideComposer) :
  subline_loop wrapped yc g
  = ((subline_trace yc wrapped).2, append_cmds (subline_trace yc wrapped).1 g).
Proof.
  revert yc g. induction wrapped as [|subline rest IH]; intros yc g.
  - cbn [subline_loop subline_trace fst snd]. by rewrite f64_append_cmds_nil.
  - cbn [subline_loop subline_trace]. rewrite IH.
    destruct (subline_trace (fsub yc (leading code_style)) rest) as [cmds y1].
    cbn [fst snd]. by rewrite f64_append_cmds_cons.
Qed.

Lemma f64_subline_trace_app (l1 l2 : list str) (yc : float) :
  subline_trace yc (l1 ++ l2)
  = ((subline_trace yc l1).1 ++ (subline_trace (subline_trace yc l1).2 l2).1,
     (subline_trace (subline_trace yc l1).2 l2).2).
Proof.
  revert yc. induction l1 as [|s l1 IH]; intros yc.
  - cbn [app subline_trace fst snd]. by destruct (subline_trace yc l2).
  - cbn [app subline_trace]. rewrite IH.
    destruct (subline_trace (fsub yc (leading code_style)) l1) as [cmds1 y1].
    cbn [fst snd]. by destruct (subline_trace y1 l2).
Qed.

(** The two loops of [add_code_block] draw the sublines of all lines in one
    run. *)
Lemma f64_code_loop_trace (lines : list str) (yc : float) (g : GuideComposer) :
  code_loop lines yc g
  = sublines ← code_sublines lines;
    Some ((subline_trace yc sublines).2, append_cmds (subline_trace yc sublines).1 g).
Proof.
  revert yc g. induction lines as [|line rest IH]; intros yc g.
  - cbn [code_loop code_sublines mbind option_bind subline_trace fst snd].
    by rewrite f64_append_cmds_nil.
  - cbn [code_loop code_sublines].
    destruct (wrap_text line _ _ _) as [wrapped|]; [|done].
    cbn [mbind option_bind]. rewrite f64_subline_loop_trace, IH.
    destruct (code_sublines rest) as [more|]; [|done].
    cbn [mbind option_bind]. rewrite f64_subline_trace_app. cbn [fst snd].
    by rewrite f64_append_cmds_app.
Qed.

Lemma f64_draw_page_chrome_trace (g : GuideComposer) :
  _draw_page_chrome g = append_cmds (chrome_commands (page_num g)) g.
Proof.
  unfold _draw_page_chrome, draw, append_cmds, chrome_commands;
    cbn [heap pages current y page_num].
  f_equal. rewrite !list_alter_alter_eq. apply list_alter_ext; [|done].
  intros c _. cbn [compose]. by rewrite <- !app_assoc.
Qed.

Lemma f64_new_page_spec (g : GuideComposer) :
  new_page g
  = {| heap := heap g ++ [chrome_commands (page_num g + 1)];
       pages := pages g ++ [length (heap g)];
       current := length (heap g);
       y := fsub PAGE_HEIGHT (of_Z 84);
       page_num := (page_num g + 1)%nat |}.
Proof.
  unfold new_page. rewrite f64_draw_page_chrome_trace.
  unfold append_cmds; cbn [heap pages current y page_num]. f_equal.
  rewrite alter_app_r_alt by done. by rewrite Nat.sub_diag.
Qed.

Lemma f64_append_on_new_page (cmds : list Command) (g : GuideComposer) :
  heap (append_cmds cmds (new_page g))
  = heap g ++ [chrome_commands (page_num g + 1) ++ cmds].
Proof.
  rewrite f64_new_page_spec. unfold append_cmds; cbn [heap pages current y page_num].
  rewrite alter_app_r_alt by done. by rewrite Nat.sub_diag.
Qed.

(** A block call is the space check followed by drawing on the page that
    is current then. *)
Lemma f64_block_call_trace (c : Call) (g : GuideComposer) (needed : float) :
  needed_height c = Some needed →
  call c g
  = '(cmds, v) ← block_trace c (y (ensure_space needed g));
    Some (set_y v (append_cmds cmds (ensure_space needed g))).
Proof.
  destruct c as [text|text|text style|text|lines|amount];
    cbn [needed_height call block_trace]; [| | | | |done].
  - intros [= <-]. done.
  - intros [= <-]. done.
  - unfold add_paragraph.
    destruct (wrap_text text _ _ _) as [lines|]; cbn [mbind option_bind]; [|done].
    intros [= <-]. rewrite f64_paragraph_loop_trace.
    by destruct (paragraph_trace _ _ lines) as [cmds y2].
  - unfold add_bullet.
    destruct (wrap_text text _ _ _) as [lines|]; cbn [mbind option_bind]; [|done].
    intros [= <-]. rewrite f64_bullet_loop_trace.
    change (y (draw _ ?g0)) with (y g0).
    destruct (bullet_trace _ _ _ lines) as [cmds y2]. cbn [fst snd mbind option_bind].
    by rewrite f64_append_cmds_cons.
  - intros [= <-]. unfold add_code_block. cbv zeta.
    rewrite f64_code_loop_trace. change (y (draw _ ?g0)) with (y g0).
    destruct (code_sublines lines) as [sublines|]; cbn [mbind option_bind]; [|done].
    by rewrite f64_append_cmds_cons.
Qed.

Lemma f64_ensure_space_cases (needed : float) (g : GuideComposer) :
  (fltb (fsub (y g) needed) (of_Z 72) = true ∧ ensure_space needed g = new_page g)
  ∨ (fltb (fsub (y g) needed) (of_Z 72) = false ∧ ensure_space needed g = g).
Proof.
  unfold ensure_space. destruct (fltb _ _); [by left|by right].
Qed.

Lemma f64_paragraph_trace_lines (style : BlockStyle) (y0 : float) (lines : list str) :
  Forall2 (λ cmd line, ∃ y1, cmd = Text MARGIN y1 line style)
    (paragraph_trace style y0 lines).1 lines.
Proof.
  revert y0. induction lines as [|line rest IH]; intros y0; [by constructor|].
  cbn [paragraph_trace]. specialize (IH (fsub y0 (leading style))).
  destruct (paragraph_trace style _ rest) as [cmds y1]. cbn [fst] in *.
  constructor; [by exists y0|done].
Qed.

End float_composer_facts.

(** C5 (as amended).  When the space check of the code fires for the wrapped
    paragraph, that is when the double [cursor - needed], rounded as the
    subtraction rounds it, is below 72, [add_paragraph] creates exactly one
    new page: one fresh canvas is allocated and appended to [pages], it
    becomes [current], and the page counter grows by one.  No canvas that
    existed before is changed, so no line is drawn on the original page; the
    new canvas holds the page chrome followed by one text run per wrapped
    line, in order. *)
Theorem paragraph_moves_to_new_page (text : str) (style : option Float64.BlockStyle)
    (g : Float64.GuideComposer) (lines : list str) :
  let st := default Float64.body_style style in
  Float64.wrap_text text
    (Float64.fsub Float64.PAGE_WIDTH (Float64.fmul (Float64.of_Z 2) Float64.MARGIN))
    (Float64.font st) (Float64.size st) = Some lines →
  Float64.fltb
    (Float64.fsub (Float64.y g)
       (Float64.py_max (Float64.leading st)
          (Float64.fadd (Float64.fmul (Float64.len lines) (Float64.leading st))
             (Float64.of_Z 4))))
    (Float64.of_Z 72) = true →
  ∃ g' cmds,
    Float64.add_paragraph text style g = Some g'
    ∧ Float64.pages g' = Float64.pages g ++ [length (Float64.heap g)]
    ∧ Float64.current g' = length (Float64.heap g)
    ∧ Float64.page_num g' = (Float64.page_num g + 1)%nat
    ∧ Float64.heap g'
      = Float64.heap g ++ [Float64.chrome_commands (Float64.page_num g + 1) ++ cmds]
    ∧ Forall2 (λ cmd line, ∃ y1, cmd = Float64.Text Float64.MARGIN y1 line st) cmds lines.
Proof.
  intros st Hwrap Hlow.
  set (needed := Float64.py_max _ _) in Hlow.
  assert (Float64.needed_height (Float64.AddParagraph text style) = Some needed)
    as Hneeded.
  { cbn [Float64.needed_height]. fold st. by rewrite Hwrap. }
  pose proof (f64_block_call_trace (Float64.AddParagraph text style) g needed Hneeded)
    as Hcall.
  destruct (f64_ensure_space_cases needed g) as [[_ Hnew]|[Hhigh _]];
    [|by rewrite Hlow in Hhigh].
  rewrite Hnew in Hcall. cbn [Float64.block_trace Float64.call] in Hcall.
  fold st in Hcall. rewrite Hwrap in Hcall. cbn [mbind option_bind] in Hcall.
  pose proof (f64_paragraph_trace_lines st (Float64.y (Float64.new_page g)) lines)
    as Hlines.
  destruct (Float64.paragraph_trace st _ lines) as [cmds y2]. cbn [fst] in Hlines.
  eexists _, cmds. split; [exact Hcall|].
  change (Float64.heap (Float64.set_y ?v ?g0)) with (Float64.heap g0).
  rewrite f64_append_on_new_page, f64_new_page_spec. done.
Qed.

Lemma paragraph_moves_to_new_page_witness :
  Float64.wrap_text (lit "Hello world")
    (Float64.fsub Float64.PAGE_WIDTH (Float64.fmul (Float64.of_Z 2) Float64.MARGIN))
    (Float64.font Float64.body_style) (Float64.size Float64.body_style)
  = Some [lit "Hello world"]
  ∧ Float64.fltb
      (Float64.fsub (Float64.y (Float64.add_spacer (Float64.of_Z 620) Float64.init))
         (Float64.py_max (Float64.leading Float64.body_style)
            (Float64.fadd
               (Float64.fmul (Float64.len [lit "Hello world"])
                  (Float64.leading Float64.body_style))
               (Float64.of_Z 4))))
      (Float64.of_Z 72) = true
  ∧ ∃ g' cmds,
      Float64.add_paragraph (lit "Hello world") None
        (Float64.add_spacer (Float64.of_Z 620) Float64.init) = Some g'
      ∧ Float64.pages g'
        = Float64.pages (Float64.add_spacer (Float64.of_Z 620) Float64.init)
          ++ [length (Float64.heap (Float64.add_spacer (Float64.of_Z 620) Float64.init))]
      ∧ Float64.current g'
        = length (Float64.heap (Float64.add_spacer (Float64.of_Z 620) Float64.init))
      ∧ Float64.page_num g'
        = (Float64.page_num (Float64.add_spacer (Float64.of_Z 620) Float64.init) + 1)%nat
      ∧ Float64.heap g'
        = Float64.heap (Float64.add_spacer (Float64.of_Z 620) Float64.init)
          ++ [Float64.chrome_commands
                (Float64.page_num (Float64.add_spacer (Float64.of_Z 620) Float64.init) + 1)
              ++ cmds]
      ∧ Forall2 (λ cmd line,
                   ∃ y1, cmd = Float64.Text Float64.MARGIN y1 line Float64.body_style)
          cmds [lit "Hello world"].
Proof.
  split; [vm_compute; reflexivity|]. split; [vm_compute; reflexivity|].
  apply (paragraph_moves_to_new_page (lit "Hello world") None
           (Float64.add_spacer (Float64.of_Z 620) Float64.init) [lit "Hello world"]);
    vm_compute; reflexivity.
Defined.

(** C5, with [cursor - needed < 72] taken exactly, fails: with the cursor at
    91.0 and a one-line paragraph in a style whose leading is
    15.000000000000004, the needed height is 19.000000000000004 and
    [cursor - needed] is below 72 (by [2 ^ -48]), but the code subtracts in
    doubles, gets 72.0, starts no page and draws the line on the original
    page. *)
Lemma paragraph_stays_on_rounded_check :
  ∃ (yq nq : Q) (g' : Float64.GuideComposer),
    Float64.value (Float64.y (Float64.add_spacer (Float64.of_Z 605) Float64.init))
    = Some yq
    ∧ Float64.value
        (Float64.py_max (S754_finite false 8444249301319682 (-49))
           (Float64.fadd
              (Float64.fmul (Float64.len [lit "a"])
                 (S754_finite false 8444249301319682 (-49)))
              (Float64.of_Z 4)))
      = Some nq
    ∧ (yq - nq < 72)%Q
    ∧ Float64.add_paragraph (lit "a")
        (Some (Float64.Build_BlockStyle (lit "F1") (Float64.of_Z 11)
                 (S754_finite false 8444249301319682 (-49))
                 (Float64.of_Z 0, Float64.of_Z 0, Float64.of_Z 0)))
        (Float64.add_spacer (Float64.of_Z 605) Float64.init)
      = Some g'
    ∧ Float64.pages g' = [0%nat]
    ∧ Float64.page_num g' = 1%nat
    ∧ Float64.heap g'
      = [[Float64.Text Float64.MARGIN (Float64.of_Z 91) (lit "a")
            (Float64.Build_BlockStyle (lit "F1") (Float64.of_Z 11)
               (S754_finite false 8444249301319682 (-49))
               (Float64.of_Z 0, Float64.of_Z 0, Float64.of_Z 0))]].
Proof.
  eexists _, _, _. split; [vm_compute; reflexivity|]. split; [vm_compute; reflexivity|].
  split; [vm_compute; reflexivity|]. split; [vm_compute; reflexivity|].
  split; [reflexivity|]. split; [reflexivity|]. vm_compute. reflexivity.
Qed.

(** X9.  If the space check passes on a fresh page for the needed height
    (the rounded [708 - needed] is not below 72), [ensure_space] is
    idempotent: after it has run, with or without a page break, the check
    passes at the cursor, and running it again changes nothing. *)
Theorem ensure_space_idempotent (needed : Float64.float) (g : Float64.GuideComposer) :
  Float64.fltb
    (Float64.fsub (Float64.fsub Float64.PAGE_HEIGHT (Float64.of_Z 84)) needed)
    (Float64.of_Z 72) = false →
  Float64.fltb
    (Float64.fsub (Float64.y (Float64.ensure_space needed g)) needed)
    (Float64.of_Z 72) = false
  ∧ Float64.ensure_space needed (Float64.ensure_space needed g)
    = Float64.ensure_space needed g.
Proof.
  intros Hfits.
  assert (Float64.fltb
            (Float64.fsub (Float64.y (Float64.ensure_space needed g)) needed)
            (Float64.of_Z 72) = false) as Hpass.
  { destruct (f64_ensure_space_cases needed g) as [[_ ->]|[Hhigh ->]]; [|done].
    by rewrite f64_new_page_spec. }
  split; [done|]. unfold Float64.ensure_space at 1. by rewrite Hpass.
Qed.

Lemma ensure_space_idempotent_witness :
  Float64.fltb
    (Float64.fsub (Float64.fsub Float64.PAGE_HEIGHT (Float64.of_Z 84)) (Float64.of_Z 40))
    (Float64.of_Z 72) = false
  ∧ Float64.fltb
      (Float64.fsub
         (Float64.y (Float64.ensure_space (Float64.of_Z 40)
                       (Float64.add_spacer (Float64.of_Z 600) Float64.init)))
         (Float64.of_Z 40))
      (Float64.of_Z 72) = false
  ∧ Float64.ensure_space (Float64.of_Z 40)
      (Float64.ensure_space (Float64.of_Z 40)
         (Float64.add_spacer (Float64.of_Z 600) Float64.init))
    = Float64.ensure_space (Float64.of_Z 40)
        (Float64.add_spacer (Float64.of_Z 600) Float64.init).
Proof.
  split; [vm_compute; reflexivity|].
  apply (ensure_space_idempotent (Float64.of_Z 40)
           (Float64.add_spacer (Float64.of_Z 600) Float64.init)).
  vm_compute; reflexivity.
Defined.

Section float_code_block_facts.

Import Float64.

Lemma f64_code_sublines_concat (lines sublines : list str) :
  code_sublines lines = Some sublines →
  ∃ wrapped,
    Forall2 (λ line w, wrap_text line code_width (font code_style) (size code_style)
                       = Some w) lines wrapped
    ∧ sublines = concat wrapped.
Proof.
  revert sublines. induction lines as [|line rest IH]; intros sublines.
  - intros [= <-]. exists []. by split; [constructor|].
  - cbn [code_sublines].
    destruct (wrap_text line _ _ _) as [w|] eqn:Hw; [|done].
    destruct (code_sublines rest) as [more|]; [|done].
    cbn [mbind option_bind]. intros [= <-].
    destruct (IH more eq_refl) as (wrapped & Hall & ->).
    exists (w :: wrapped). by split; [constructor|].
Qed.

Lemma f64_subline_trace_lookup (sublines : list str) (yc : float) (k : nat) (s : str) :
  sublines !! k = Some s →
  (subline_trace yc sublines).1 !! k
  = Some (Text (fadd MARGIN (of_Z 8))
            (Nat.iter k (λ v, fsub v (leading code_style)) yc) s code_style).
Proof.
  revert yc k. induction sublines as [|s0 rest IH]; intros yc k Hk; [done|].
  cbn [subline_trace]. specialize (IH (fsub yc (leading code_style))).
  destruct (subline_trace (fsub yc (leading code_style)) rest) as [cmds y1].
  cbn [fst] in *. destruct k as [|k].
  - by apply (inj Some) in Hk as ->.
  - etrans; [exact (IH k Hk)|]. by rewrite Nat.iter_succ_r.
Qed.

Lemma f64_subline_trace_length (sublines : list str) (yc : float) :
  length (subline_trace yc sublines).1 = length sublines.
Proof.
  revert yc. induction sublines as [|s0 rest IH]; intros yc; [done|].
  cbn [subline_trace]. specialize (IH (fsub yc (leading code_style))).
  destruct (subline_trace (fsub yc (leading code_style)) rest) as [cmds y1].
  cbn [fst length] in *. by rewrite IH.
Qed.

End float_code_block_facts.

(** X17.  [add_code_block] draws, on the page that is current after the
    space check, the rectangle, whose height [16 + 13 * len(lines)] depends
    on the number of lines alone, and then exactly one text run per wrapped
    subline: the sublines of all lines in order, each with its own string at
    [x = MARGIN + 8] in the code style, the first at the baseline [y - 8]
    and each next one lower by the leading 13 (a double subtraction each
    time).  Nothing else is drawn, and the cursor ends 10 below the lower
    edge of the rectangle whatever the number of sublines. *)
Theorem code_block_text_runs (lines : list str) (g g' : Float64.GuideComposer) :
  Float64.add_code_block lines g = Some g' →
  ∃ (wrapped : list (list str)) (texts : list Float64.Command),
    let block_height :=
      Float64.fadd (Float64.fmul (Float64.of_Z 8) (Float64.of_Z 2))
        (Float64.fmul (Float64.len lines) (Float64.leading Float64.code_style)) in
    let g1 := Float64.ensure_space (Float64.fadd block_height (Float64.of_Z 8)) g in
    let y_bottom :=
      Float64.fadd (Float64.fsub (Float64.y g1) block_height) (Float64.of_Z 10) in
    Forall2 (λ line w,
               Float64.wrap_text line Float64.code_width
                 (Float64.font Float64.code_style) (Float64.size Float64.code_style)
               = Some w) lines wrapped
    ∧ g' = Float64.set_y (Float64.fsub y_bottom (Float64.of_Z 10))
             (Float64.append_cmds
                (Float64.RectFill Float64.MARGIN y_bottom
                   (Float64.fsub Float64.PAGE_WIDTH
                      (Float64.fmul (Float64.of_Z 2) Float64.MARGIN))
                   block_height
                   (Float64.dlit 93 100, Float64.dlit 95 100, Float64.dlit 98 100)
                 :: texts) g1)
    ∧ length texts = length (concat wrapped)
    ∧ ∀ k s, concat wrapped !! k = Some s →
        texts !! k
        = Some (Float64.Text (Float64.fadd Float64.MARGIN (Float64.of_Z 8))
                  (Nat.iter k (λ v, Float64.fsub v (Float64.leading Float64.code_style))
                     (Float64.fsub (Float64.y g1) (Float64.of_Z 8)))
                  s Float64.code_style).
Proof.
  intros Hcall.
  change (Float64.add_code_block lines g)
    with (Float64.call (Float64.AddCodeBlock lines) g) in Hcall.
  rewrite (f64_block_call_trace (Float64.AddCodeBlock lines) g _ eq_refl) in Hcall.
  cbn [Float64.block_trace] in Hcall.
  destruct (Float64.code_sublines lines) as [sublines|] eqn:Hsub; [|done].
  cbn [mbind option_bind] in Hcall. apply (inj Some) in Hcall as <-.
  destruct (f64_code_sublines_concat lines sublines Hsub) as (wrapped & Hall & ->).
  eexists wrapped, _. cbv zeta. split; [exact Hall|]. split; [reflexivity|].
  split; [apply f64_subline_trace_length|].
  intros k s Hk. by apply f64_subline_trace_lookup.
Qed.

Lemma code_block_text_runs_witness :
  ∃ g',
    Float64.add_code_block [lit "npm install"; lit "  "; lit "npm start"] Float64.init
    = Some g'
    ∧ ∃ (wrapped : list (list str)) (texts : list Float64.Command),
        let block_height :=
          Float64.fadd (Float64.fmul (Float64.of_Z 8) (Float64.of_Z 2))
            (Float64.fmul (Float64.len [lit "npm install"; lit "  "; lit "npm start"])
               (Float64.leading Float64.code_style)) in
        let g1 :=
          Float64.ensure_space (Float64.fadd block_height (Float64.of_Z 8))
            Float64.init in
        let y_bottom :=
          Float64.fadd (Float64.fsub (Float64.y g1) block_height) (Float64.of_Z 10) in
        Forall2 (λ line w,
                   Float64.wrap_text line Float64.code_width
                     (Float64.font Float64.code_style) (Float64.size Float64.code_style)
                   = Some w) [lit "npm install"; lit "  "; lit "npm start"] wrapped
        ∧ g' = Float64.set_y (Float64.fsub y_bottom (Float64.of_Z 10))
                 (Float64.append_cmds
                    (Float64.RectFill Float64.MARGIN y_bottom
                       (Float64.fsub Float64.PAGE_WIDTH
                          (Float64.fmul (Float64.of_Z 2) Float64.MARGIN))
                       block_height
                       (Float64.dlit 93 100, Float64.dlit 95 100, Float64.dlit 98 100)
                     :: texts) g1)
        ∧ length texts = length (concat wrapped)
        ∧ ∀ k s, concat wrapped !! k = Some s →
            texts !! k
            = Some (Float64.Text (Float64.fadd Float64.MARGIN (Float64.of_Z 8))
                      (Nat.iter k
                         (λ v, Float64.fsub v (Float64.leading Float64.code_style))
                         (Float64.fsub (Float64.y g1) (Float64.of_Z 8)))
                      s Float64.code_style).
Proof.
  destruct (Float64.add_code_block [lit "npm install"; lit "  "; lit "npm start"]
              Float64.init) as [g'|] eqn:Hcall; [|by vm_compute in Hcall].
  exists g'. split; [reflexivity|].
  apply (code_block_text_runs [lit "npm install"; lit "  "; lit "npm start"]
           Float64.init g').
  exact Hcall.
Defined.

Section float_integer_facts.

Import Float64.

Lemma f64_float_eqb_eq (a b : float) : float_eqb a b = true → a = b.
Proof.
  destruct a as [s1|s1| |s1 m1 e1], b as [s2|s2| |s2 m2 e2]; cbn [float_eqb]; try done.
  - by intros ->%Bool.eqb_prop.
  - by intros ->%Bool.eqb_prop.
  - intros [[->%Bool.eqb_prop ->%Pos.eqb_eq]%andb_true_iff ->%Z.eqb_eq]%andb_true_iff.
    done.
Qed.

Lemma f64_elem_zrange (lo a : Z) (n : nat) :
  (lo <= a < lo + Z.of_nat n)%Z → a ∈ zrange lo n.
Proof.
  intros Ha. unfold zrange. apply list_elem_of_fmap.
  exists (Z.to_nat (a - lo)). split; [lia|]. apply elem_of_seq. lia.
Qed.

Lemma f64_exact_on_spec (op : float → float → float) (zop : Z → Z → Z)
    (la lb : list Z) (a b : Z) :
  exact_on op zop la lb = true → a ∈ la → b ∈ lb →
  op (of_Z a) (of_Z b) = of_Z (zop a b).
Proof.
  unfold exact_on. rewrite forallb_forall. intros Hall Ha Hb.
  apply list_elem_of_In in Ha. specialize (Hall a Ha). cbv zeta in Hall.
  rewrite forallb_forall in Hall. apply list_elem_of_In in Hb.
  by apply f64_float_eqb_eq, Hall.
Qed.

Lemma f64_agree_on_spec (cmp : float → float → bool) (zcmp : Z → Z → bool)
    (la lb : list Z) (a b : Z) :
  agree_on cmp zcmp la lb = true → a ∈ la → b ∈ lb →
  cmp (of_Z a) (of_Z b) = zcmp a b.
Proof.
  unfold agree_on. rewrite forallb_forall. intros Hall Ha Hb.
  apply list_elem_of_In in Ha. specialize (Hall a Ha). cbv zeta in Hall.
  rewrite forallb_forall in Hall. apply list_elem_of_In in Hb.
  by apply Bool.eqb_prop, Hall.
Qed.

(** On the integers the composer meets, the double operations are exact:
    checked on every pair of the ranges. *)
Lemma f64_sub_table : exact_on fsub Z.sub (zrange 0 709) (zrange 0 709) = true.
Proof. vm_compute. reflexivity. Qed.

Lemma f64_add_table : exact_on fadd Z.add (zrange 0 709) (zrange 0 17) = true.
Proof. vm_compute. reflexivity. Qed.

Lemma f64_add16_table : exact_on fadd Z.add [16%Z] (zrange 0 693) = true.
Proof. vm_compute. reflexivity. Qed.

Lemma f64_mul_table : exact_on fmul Z.mul (zrange 0 638) (zrange 0 33) = true.
Proof. vm_compute. reflexivity. Qed.

Lemma f64_lt72_table : agree_on fltb Z.ltb (zrange (-708) 1417) [72%Z] = true.
Proof. vm_compute. reflexivity. Qed.

Lemma f64_le72_table : agree_on fleb Z.leb [72%Z] (zrange 0 709) = true.
Proof. vm_compute. reflexivity. Qed.

Lemma f64_lt_table : agree_on fltb Z.ltb (zrange 0 33) (zrange 0 709) = true.
Proof. vm_compute. reflexivity. Qed.

Lemma f64_sub_exact (a b : Z) :
  (0 <= a <= 708)%Z → (0 <= b <= 708)%Z → fsub (of_Z a) (of_Z b) = of_Z (a - b).
Proof.
  intros Ha Hb. apply (f64_exact_on_spec _ _ _ _ a b f64_sub_table);
    apply f64_elem_zrange; lia.
Qed.

Lemma f64_add_exact (a b : Z) :
  (0 <= a <= 708)%Z → (0 <= b <= 16)%Z → fadd (of_Z a) (of_Z b) = of_Z (a + b).
Proof.
  intros Ha Hb. apply (f64_exact_on_spec _ _ _ _ a b f64_add_table);
    apply f64_elem_zrange; lia.
Qed.

Lemma f64_add16_exact (b : Z) :
  (0 <= b <= 692)%Z → fadd (of_Z 16) (of_Z b) = of_Z (16 + b).
Proof.
  intros Hb. apply (f64_exact_on_spec _ _ _ _ 16%Z b f64_add16_table);
    [apply list_elem_of_singleton; done|apply f64_elem_zrange; lia].
Qed.

Lemma f64_mul_exact (a b : Z) :
  (0 <= a <= 637)%Z → (0 <= b <= 32)%Z → fmul (of_Z a) (of_Z b) = of_Z (a * b).
Proof.
  intros Ha Hb. apply (f64_exact_on_spec _ _ _ _ a b f64_mul_table);
    apply f64_elem_zrange; lia.
Qed.

Lemma f64_lt72_exact (a : Z) :
  (-708 <= a <= 708)%Z → fltb (of_Z a) (of_Z 72) = (a <? 72)%Z.
Proof.
  intros Ha. apply (f64_agree_on_spec _ _ _ _ a 72%Z f64_lt72_table);
    [apply f64_elem_zrange; lia|by apply list_elem_of_singleton].
Qed.

Lemma f64_le72_exact (a : Z) :
  (0 <= a <= 708)%Z → fleb (of_Z 72) (of_Z a) = (72 <=? a)%Z.
Proof.
  intros Ha. apply (f64_agree_on_spec _ _ _ _ 72%Z a f64_le72_table);
    [by apply list_elem_of_singleton|apply f64_elem_zrange; lia].
Qed.

Lemma f64_max_exact (a b : Z) :
  (0 <= a <= 32)%Z → (0 <= b <= 708)%Z → py_max (of_Z a) (of_Z b) = of_Z (Z.max a b).
Proof.
  intros Ha Hb. unfold py_max.
  rewrite (f64_agree_on_spec _ _ _ _ a b f64_lt_table) by (apply f64_elem_zrange; lia).
  destruct (Z.ltb_spec a b); f_equal; lia.
Qed.

End float_integer_facts.

Section float_threshold_facts.

Import Float64.

#[local] Arguments fleb : simpl never.

Lemma f64_fresh_cursor : fsub PAGE_HEIGHT (of_Z 84) = of_Z 708.
Proof. vm_compute. reflexivity. Qed.

Lemma f64_init_cursor : y init = of_Z 696.
Proof. vm_compute. reflexivity. Qed.

Lemma f64_above_int (k : Z) (cmd : Command) :
  ypos cmd = of_Z k → (72 <= k <= 708)%Z → above_threshold cmd.
Proof.
  intros Hy Hk. unfold above_threshold. rewrite Hy, f64_le72_exact by lia.
  apply Z.leb_le. lia.
Qed.

Lemma f64_chrome_commands_ok (n : nat) : Forall command_ok (chrome_commands n).
Proof.
  unfold chrome_commands. repeat first [apply Forall_nil_2 | apply Forall_cons_2].
  - right. unfold above_threshold. vm_compute. reflexivity.
  - right. unfold above_threshold. vm_compute. reflexivity.
  - right. unfold above_threshold. vm_compute. reflexivity.
  - left. by left.
  - left. right. by exists n.
Qed.

Lemma f64_append_cmds_ok (cmds : list Command) (g : GuideComposer) :
  content_above_threshold g → Forall above_threshold cmds →
  content_above_threshold (append_cmds cmds g).
Proof.
  unfold content_above_threshold, append_cmds; cbn [heap]. intros Hg Hcmds.
  apply Forall_alter; [done|]. intros canvas _ Hcanvas.
  apply Forall_app. split; [done|].
  eapply Forall_impl; [exact Hcmds|]. intros cmd ?. by right.
Qed.

Lemma f64_new_page_ok (g : GuideComposer) :
  content_above_threshold g → content_above_threshold (new_page g).
Proof.
  rewrite f64_new_page_spec. unfold content_above_threshold; cbn [heap]. intros Hg.
  apply Forall_app. split; [done|]. constructor; [|done].
  apply f64_chrome_commands_ok.
Qed.

Lemma f64_whole_leading_spec (x : float) (L : Z) :
  whole_leading x = Some L → x = of_Z L ∧ (1 <= L <= 32)%Z.
Proof.
  unfold whole_leading. intros [Hin Heq]%find_some.
  split; [by apply f64_float_eqb_eq|].
  unfold zrange in Hin. apply in_map_iff in Hin as (i & <- & Hi%in_seq). lia.
Qed.

Lemma f64_paragraph_trace_int (st : BlockStyle) (L : Z) (lines : list str) (k : Z) :
  leading st = of_Z L → (0 <= L <= 32)%Z → (0 <= k <= 708)%Z →
  (lines ≠ [] → 72 <= k - (Z.of_nat (length lines) - 1) * L)%Z →
  Forall above_threshold (paragraph_trace st (of_Z k) lines).1
  ∧ (paragraph_trace st (of_Z k) lines).2 = of_Z (k - Z.of_nat (length lines) * L).
Proof.
  intros Hlead HL. revert k.
  induction lines as [|line rest IH]; intros k Hk Hroom.
  - cbn [paragraph_trace fst snd length]. split; [constructor|]. f_equal. lia.
  - cbn [paragraph_trace]. rewrite Hlead, f64_sub_exact by lia.
    specialize (Hroom ltac:(done)). cbn [length] in Hroom.
    destruct (IH (k - L)%Z) as [Hcmds Hend];
      [nia | intros Hne; destruct rest as [|line2 rest]; [done|];
             cbn [length] in *; nia |].
    destruct (paragraph_trace st (of_Z (k - L)) rest) as [cmds y1].
    cbn [fst snd] in *. split.
    + constructor; [|done]. apply (f64_above_int k); [done|nia].
    + rewrite Hend. f_equal. cbn [length]. lia.
Qed.

Lemma f64_bullet_trace_int (n : nat) (lines : list str) (i : nat) (k : Z) :
  (i + length lines = n)%nat → (0 <= k <= 708)%Z →
  (lines ≠ [] → 72 <= k - (Z.of_nat (length lines) - 1) * 15)%Z →
  Forall above_threshold (bullet_trace n i (of_Z k) lines).1
  ∧ (bullet_trace n i (of_Z k) lines).2
    = of_Z (k - Z.max 0 (Z.of_nat (length lines) - 1) * 15).
Proof.
  revert i k. induction lines as [|line rest IH]; intros i k Hn Hk Hroom.
  - cbn [bullet_trace fst snd length]. split; [constructor|]. f_equal. lia.
  - cbn [bullet_trace]. specialize (Hroom ltac:(done)). cbn [length] in Hroom, Hn.
    change (leading body_style) with (of_Z 15).
    destruct rest as [|line2 rest].
    + assert ((i <? n - 1)%nat = false) as -> by (apply Nat.ltb_ge; cbn [length] in Hn; lia).
      cbn [bullet_trace fst snd length]. split.
      * constructor; [|constructor]. apply (f64_above_int k); [done|lia].
      * f_equal. lia.
    + assert ((i <? n - 1)%nat = true) as -> by (apply Nat.ltb_lt; cbn [length] in Hn; lia).
      rewrite f64_sub_exact by lia.
      destruct (IH (S i) (k - 15)%Z) as [Hcmds Hend];
        [cbn [length] in *; lia | cbn [length] in *; lia
        | intros _; cbn [length] in *; lia |].
      destruct (bullet_trace n (S i) (of_Z (k - 15)) (line2 :: rest)) as [cmds y2].
      cbn [fst snd] in *. split.
      * constructor; [|done]. apply (f64_above_int k); [done|cbn [length] in *; lia].
      * rewrite Hend. f_equal. cbn [length]. lia.
Qed.

Lemma f64_subline_trace_int (sublines : list str) (k : Z) :
  (0 <= k <= 708)%Z →
  (sublines ≠ [] → 72 <= k - (Z.of_nat (length sublines) - 1) * 13)%Z →
  Forall above_threshold (subline_trace (of_Z k) sublines).1.
Proof.
  revert k. induction sublines as [|s rest IH]; intros k Hk Hroom.
  - constructor.
  - cbn [subline_trace]. specialize (Hroom ltac:(done)). cbn [length] in Hroom.
    change (leading code_style) with (of_Z 13). rewrite f64_sub_exact by lia.
    assert (Forall above_threshold (subline_trace (of_Z (k - 13)) rest).1) as Hcmds.
    { destruct rest as [|s2 rest]; [constructor|].
      apply IH; [cbn [length] in *; lia|]. intros _. cbn [length] in *. lia. }
    destruct (subline_trace (of_Z (k - 13)) rest) as [cmds y1]. cbn [fst] in *.
    constructor; [|done]. apply (f64_above_int k); [done|lia].
Qed.

Lemma f64_code_sublines_short (lines : list str) :
  forallb one_subline lines = true →
  ∃ sublines, code_sublines lines = Some sublines
              ∧ (length sublines <= length lines)%nat.
Proof.
  induction lines as [|line rest IH]; [by exists []|].
  cbn [forallb]. intros [Hline Hrest]%andb_true_iff.
  destruct (IH Hrest) as (more & Hmore & Hlen).
  unfold one_subline in Hline. cbn [code_sublines].
  destruct (wrap_text line _ _ _) as [wrapped|]; [|done].
  rewrite Hmore. cbn [mbind option_bind]. eexists. split; [done|].
  apply Nat.leb_le in Hline. rewrite length_app. cbn [length]. lia.
Qed.

End float_threshold_facts.

Section float_block_facts.

Import Float64.

(** A block with a defined extent computes in small integers: its needed
    height is an integer that covers the extent, and from an integer cursor
    that leaves room for the extent it draws on or above the threshold and
    leaves an integer cursor. *)
Lemma f64_block_int (c : Call) (e : Z) :
  extent c = Some e → (e <= 636)%Z →
  ∃ N, needed_height c = Some (of_Z N)
       ∧ (0 <= N <= 708)%Z ∧ (e <= N)%Z
       ∧ ∀ k1, (0 <= k1 <= 708)%Z → (72 <= k1 - Z.max 0 e)%Z →
           ∃ cmds k', block_trace c (of_Z k1) = Some (cmds, of_Z k')
                      ∧ Forall above_threshold cmds ∧ (0 <= k' <= 708)%Z.
Proof.
  destruct c as [text|text|text style|text|lines|amount]; cbn [extent]; [| | | | |done].
  - intros [= <-] _. exists 32%Z. cbn [needed_height block_trace].
    change (leading h1_style) with (of_Z 24). rewrite !f64_add_exact by lia.
    split; [done|]. split; [lia|]. split; [lia|]. intros k1 Hk1 Hroom.
    rewrite f64_sub_exact by lia. eexists _, _. split; [done|]. split; [|lia].
    constructor; [|constructor]. apply (f64_above_int k1); [done|lia].
  - intros [= <-] _. exists 24%Z. cbn [needed_height block_trace].
    change (leading h2_style) with (of_Z 18). rewrite !f64_add_exact by lia.
    split; [done|]. split; [lia|]. split; [lia|]. intros k1 Hk1 Hroom.
    rewrite f64_sub_exact by lia. eexists _, _. split; [done|]. split; [|lia].
    constructor; [|constructor]. apply (f64_above_int k1); [done|lia].
  - cbn [needed_height block_trace]. set (st := default body_style style).
    destruct (wrap_text text _ _ _) as [lines|]; [|done]. cbn [mbind option_bind].
    destruct (whole_leading (leading st)) as [L|] eqn:HL; [|done].
    cbn [mbind option_bind]. intros [= <-] He.
    apply f64_whole_leading_spec in HL as [Hlead HL].
    set (n := Z.of_nat (length lines)) in *.
    assert (0 <= n <= 637)%Z as Hn by (subst n; nia).
    assert (n * L <= 668)%Z as HnL by nia.
    exists (Z.max L (n * L + 4)). unfold len. fold n.
    rewrite Hlead, f64_mul_exact, f64_add_exact, f64_max_exact by nia.
    split; [done|]. split; [nia|]. split; [nia|]. intros k1 Hk1 Hroom.
    destruct (f64_paragraph_trace_int st L lines k1 Hlead) as [Hcmds Hend];
      [lia|lia|fold n; intros Hne; destruct lines; [done|]; cbn [length] in *; nia|].
    destruct (paragraph_trace st (of_Z k1) lines) as [cmds y2]. cbn [fst snd] in *.
    subst y2. fold n. rewrite f64_sub_exact by nia.
    eexists _, _. split; [done|]. split; [done|nia].
  - cbn [needed_height block_trace].
    destruct (wrap_text text _ _ _) as [lines|]; [|done]. cbn [mbind option_bind].
    intros [= <-] He. set (n := Z.of_nat (length lines)) in *.
    assert (0 <= n <= 43)%Z as Hn by (subst n; lia).
    exists (Z.max 15 (n * 15 + 2)). unfold len. fold n.
    change (leading body_style) with (of_Z 15).
    rewrite f64_mul_exact, f64_add_exact, f64_max_exact by lia.
    split; [done|]. split; [lia|]. split; [lia|]. intros k1 Hk1 Hroom.
    destruct (f64_bullet_trace_int (length lines) lines 0 k1) as [Hcmds Hend];
      [done|lia|fold n; lia|].
    destruct (bullet_trace (length lines) 0 (of_Z k1) lines) as [cmds y2].
    cbn [fst snd] in *. subst y2. fold n. rewrite f64_sub_exact by lia.
    eexists _, _. split; [done|]. split; [|lia].
    constructor; [|done]. apply (f64_above_int k1); [done|lia].
  - destruct (forallb one_subline lines) eqn:Hone; [|done].
    intros [= <-] He. set (n := Z.of_nat (length lines)) in *.
    assert (0 <= n <= 48)%Z as Hn by (subst n; lia).
    exists (13 * n + 24)%Z. cbn [needed_height block_trace]. unfold len. fold n.
    change (leading code_style) with (of_Z 13).
    rewrite !f64_mul_exact, f64_add16_exact, f64_add_exact by lia.
    split; [f_equal; f_equal; lia|]. split; [lia|]. split; [lia|].
    intros k1 Hk1 Hroom.
    destruct (f64_code_sublines_short lines Hone) as (sublines & -> & Hlen).
    cbn [mbind option_bind].
    rewrite !f64_sub_exact, f64_add_exact, f64_sub_exact by lia.
    eexists _, _. split; [done|]. split; [|lia].
    constructor.
    + apply (f64_above_int (k1 - (8 * 2 + n * 13) + 10)); [done|lia].
    + apply f64_subline_trace_int; [lia|]. intros _. subst n. lia.
Qed.

Lemma f64_call_ok (c : Call) (g g' : GuideComposer) (k : Z) :
  fits_page c = true →
  content_above_threshold g → y g = of_Z k → (0 <= k <= 708)%Z →
  call c g = Some g' →
  ∃ needed cmds v,
    needed_height c = Some needed
    ∧ ((fltb (fsub (y g) needed) (of_Z 72) = true ∧ ensure_space needed g = new_page g)
       ∨ (fltb (fsub (y g) needed) (of_Z 72) = false ∧ ensure_space needed g = g))
    ∧ g' = set_y v (append_cmds cmds (ensure_space needed g))
    ∧ Forall above_threshold cmds
    ∧ content_above_threshold g'
    ∧ ∃ k', y g' = of_Z k' ∧ (0 <= k' <= 708)%Z.
Proof.
  unfold fits_page. destruct (extent c) as [e|] eqn:He; [|done].
  intros Hle%Z.leb_le Hg Hy Hk Hcall.
  destruct (f64_block_int c e He Hle) as (N & Hneeded & HN & HeN & Htrace).
  rewrite (f64_block_call_trace c g (of_Z N) Hneeded) in Hcall.
  assert (∃ k1, y (ensure_space (of_Z N) g) = of_Z k1 ∧ (0 <= k1 <= 708)%Z
                ∧ (72 <= k1 - Z.max 0 e)%Z
                ∧ content_above_threshold (ensure_space (of_Z N) g))
    as (k1 & Hy1 & Hk1 & Hroom & Hg1).
  { destruct (f64_ensure_space_cases (of_Z N) g) as [[_ ->]|[Hhigh ->]].
    - exists 708%Z. rewrite f64_new_page_spec. cbn [y].
      split; [apply f64_fresh_cursor|]. split; [lia|]. split; [lia|].
      rewrite <- f64_new_page_spec. by apply f64_new_page_ok.
    - exists k. rewrite Hy, f64_sub_exact, f64_lt72_exact in Hhigh by lia.
      apply Z.ltb_ge in Hhigh. repeat split; [done|lia|lia|lia|done]. }
  rewrite Hy1 in Hcall.
  destruct (Htrace k1 Hk1 Hroom) as (cmds & k' & Hbt & Hcmds & Hk').
  rewrite Hbt in Hcall.
  cbn [mbind option_bind] in Hcall. apply (inj Some) in Hcall as <-.
  exists (of_Z N), cmds, (of_Z k'). split; [done|].
  split; [apply f64_ensure_space_cases|]. split; [done|]. split; [done|].
  split; [|by exists k'].
  by apply (f64_append_cmds_ok cmds (ensure_space (of_Z N) g)).
Qed.

Lemma f64_run_ok (cs : list Call) (g g' : GuideComposer) (k : Z) :
  forallb fits_page cs = true →
  content_above_threshold g → y g = of_Z k → (0 <= k <= 708)%Z →
  run cs g = Some g' →
  content_above_threshold g' ∧ ∃ k', y g' = of_Z k' ∧ (0 <= k' <= 708)%Z.
Proof.
  revert g k. induction cs as [|c cs IH]; intros g k Hfits Hg Hy Hk Hrun.
  - cbn [run] in Hrun. apply (inj Some) in Hrun as <-. split; [done|by exists k].
  - cbn [forallb run] in Hfits, Hrun. apply andb_true_iff in Hfits as [Hc Hcs].
    destruct (call c g) as [g1|] eqn:Hcall; [|done]. cbn [mbind option_bind] in Hrun.
    destruct (f64_call_ok c g g1 k Hc Hg Hy Hk Hcall)
      as (? & ? & ? & _ & _ & _ & _ & Hg1 & k1 & Hy1 & Hk1).
    by apply (IH g1 k1).
Qed.

End float_block_facts.



